(** * MCPT_BARS: Monte-Carlo permutation test of a mean-reversion system

    A shallow embedding of [MCPT_BARS/MCPT_BARS.CPP]: the multiply-with-carry
    generator [RAND32M], [unifrand], the grid optimiser [opt_params], the
    permutation routines [prepare_permute] / [do_permute] and, of [main], the
    loop that reads the price file and the replication loop.

    Conventions.
    - [unsigned int] and [unsigned _int64] values are integers in [Z] with the
      wrap-around written out ([mod 2^32], [mod 2^64]).
    - [double] values are canonical rationals ([Qc]), and the routines that
      compute with them are embedded twice.  The first embedding (sections
      [Permutation routines] and [The optimiser]) adds, subtracts and
      multiplies exactly.  It carries the statements that do not depend on
      how a result is rounded: which entries are read, written and
      exchanged, how many words are drawn, how results are compared and
      counted, what the report prints from them.  The second embedding,
      [B64], rounds every operation as binary64 does.  It carries the
      statements about the values themselves: what [opt_params] returns and
      what prices [do_permute] rebuilds.  A [double] division whose divisor
      is zero has no rational value and is modelled by [None] (see [ddiv]).
    - C arrays are lists, read with [rd] and written with stdpp's list insert;
      array sizes and loop indices are [nat]. *)

From Stdlib Require Import ZArith QArith Qcanon Qround Lia Ascii.
From stdpp Require Import base numbers list sorting strings.

Local Open Scope Z_scope.

(** ** The random generator *)

Module Rng.

(** The file-level statics [Q], [carry], [MWC256_initialized], [MWC256_seed]
    and the function-level static [i] of [RAND32M]. *)
Record state : Type := mk_state {
  Qtab : list Z;
  carry : Z;
  MWC256_initialized : bool;
  MWC256_seed : Z;
  RAND32M_i : Z
}.

(** The state at program start: [Q] is zero-initialised static storage. *)
Definition initial : state :=
  {| Qtab := replicate 256 0;
     carry := 362436;
     MWC256_initialized := false;
     MWC256_seed := 123456789;
     RAND32M_i := 255 |}.

Definition RAND32M_seed (iseed : Z) (st : state) : state :=
  {| Qtab := Qtab st;
     carry := carry st;
     MWC256_initialized := false;
     MWC256_seed := iseed;
     RAND32M_i := RAND32M_i st |}.

(** [for (k=0 ; k<256 ; k++) { j = 69069 * j + 12345 ; Q[k] = j ; }],
    with [n] iterations left. *)
Fixpoint fill_table (n : nat) (k : nat) (j : Z) (q : list Z) : list Z :=
  match n with
  | O => q
  | S n' =>
      let j' := (69069 * j + 12345) mod 2 ^ 32 in
      fill_table n' (S k) j' (<[k := j']> q)
  end.

(** The [if (! MWC256_initialized)] block. *)
Definition ensure_initialized (st : state) : state :=
  if MWC256_initialized st then st
  else {| Qtab := fill_table 256 0 (MWC256_seed st mod 2 ^ 32) (Qtab st);
          carry := carry st;
          MWC256_initialized := true;
          MWC256_seed := MWC256_seed st;
          RAND32M_i := RAND32M_i st |}.

Definition RAND32M (st : state) : Z * state :=
  let a := 809430660 in
  let st := ensure_initialized st in
  let i := (RAND32M_i st + 1) mod 256 in
  let t := (a * (Qtab st !!! Z.to_nat i) + carry st) mod 2 ^ 64 in
  let c := Z.shiftr t 32 mod 2 ^ 32 in
  let q := Z.land t 4294967295 in
  (q, {| Qtab := <[Z.to_nat i := q]> (Qtab st);
         carry := c;
         MWC256_initialized := MWC256_initialized st;
         MWC256_seed := MWC256_seed st;
         RAND32M_i := i |}).

(** [double mult = 1.0 / 0xFFFFFFFF ; return mult * RAND32M() ;] *)
Definition unifrand (st : state) : Qc * state :=
  let mult := (1 / Qc_of_Z 4294967295)%Qc in
  let '(r, st') := RAND32M st in
  ((mult * Qc_of_Z r)%Qc, st').

(** [n] successive calls of [RAND32M]. *)
Fixpoint draws (n : nat) (st : state) : list Z * state :=
  match n with
  | O => ([], st)
  | S n' =>
      let '(r, st1) := RAND32M st in
      let '(rs, st2) := draws n' st1 in
      (r :: rs, st2)
  end.

End Rng.

(** ** Arrays of [double] *)

Local Open Scope nat_scope.

#[global] Instance Qc_inhabited : Inhabited Qc := populate 0%Qc.

(** Array read [a[i]]. *)
Definition rd (a : list Qc) (i : nat) : Qc := a !!! i.

(** [dtemp = a[i] ; a[i] = a[j] ; a[j] = dtemp ;] *)
Definition swap {A} `{Inhabited A} (i j : nat) (a : list A) : list A :=
  let dtemp := a !!! i in
  <[j := dtemp]> (<[i := a !!! j]> a).

(** The four price arrays [open], [high], [low], [close]. *)
Record bars : Type := mk_bars {
  open : list Qc;
  high : list Qc;
  low : list Qc;
  close : list Qc
}.

(** The four work arrays [rel_open], [rel_high], [rel_low], [rel_close]. *)
Record rels : Type := mk_rels {
  rel_open : list Qc;
  rel_high : list Qc;
  rel_low : list Qc;
  rel_close : list Qc
}.

(** ** Permutation routines *)

(** Body of the loop of [prepare_permute], [n] iterations left. *)
Fixpoint prepare_loop (n icase : nat) (b : bars) (r : rels) : rels :=
  match n with
  | O => r
  | S n' =>
      prepare_loop n' (S icase) b
        {| rel_open := <[icase - 1 := (rd (open b) icase - rd (close b) (icase - 1))%Qc]> (rel_open r);
           rel_high := <[icase - 1 := (rd (high b) icase - rd (open b) icase)%Qc]> (rel_high r);
           rel_low := <[icase - 1 := (rd (low b) icase - rd (open b) icase)%Qc]> (rel_low r);
           rel_close := <[icase - 1 := (rd (close b) icase - rd (open b) icase)%Qc]> (rel_close r) |}
  end.

(** [for (icase=1 ; icase<nc ; icase++)]: [nc - 1] iterations from 1.
    [r] is the work area as allocated by the caller. *)
Definition prepare_permute (nc : nat) (b : bars) (r : rels) : rels :=
  prepare_loop (nc - 1) 1 b r.

(** [j = (int) (unifrand() * i) ; if (j >= i) j = i - 1 ;] *)
Definition pick (i : nat) (st : Rng.state) : nat * Rng.state :=
  let '(u, st') := Rng.unifrand st in
  let j := Z.to_nat (Qfloor (u * Qc_of_Z (Z.of_nat i))%Qc) in
  let j := if decide (i ≤ j) then i - 1 else j in
  (j, st').

(** Both shuffling loops of [do_permute] have the shape
    [while (i > 1) { j = ... ; --i ; <exchange entries i and j> }];
    [exch i j] is the exchange, called with the decremented [i]. *)
Fixpoint shuffle_loop {T} (exch : nat → nat → T → T) (i : nat)
    (st : Rng.state) (s : T) : T * Rng.state :=
  match i with
  | O => (s, st)
  | S i' =>
      if decide (1 < i) then
        let '(j, st') := pick i st in
        shuffle_loop exch i' st' (exch i' j s)
      else (s, st)
  end.

(** Exchange in the loop "Shuffle the close-to-open changes". *)
Definition exch_open (preserve_OO : nat) (i j : nat) (r : rels) : rels :=
  {| rel_open := swap (i + preserve_OO) (j + preserve_OO) (rel_open r);
     rel_high := rel_high r;
     rel_low := rel_low r;
     rel_close := rel_close r |}.

(** Exchange in the loop "Shuffle the open-to-close changes". *)
Definition exch_intrabar (i j : nat) (r : rels) : rels :=
  {| rel_open := rel_open r;
     rel_high := swap i j (rel_high r);
     rel_low := swap i j (rel_low r);
     rel_close := swap i j (rel_close r) |}.

(** [if (preserve_OO) preserve_OO = 1 ;] *)
Definition normalize_flag (preserve_OO : Z) : nat :=
  if decide (preserve_OO = 0%Z) then 0 else 1.

(** The two shuffling loops of [do_permute]. *)
Definition shuffle (nc : nat) (preserve_OO : Z) (r : rels) (st : Rng.state)
    : rels * Rng.state :=
  let p := normalize_flag preserve_OO in
  let '(r1, st1) := shuffle_loop (exch_open p) (nc - 1 - p) st r in
  shuffle_loop exch_intrabar (nc - 1 - p) st1 r1.

(** Body of the rebuilding loop of [do_permute], [n] iterations left. *)
Fixpoint rebuild_loop (n icase : nat) (r : rels) (b : bars) : bars :=
  match n with
  | O => b
  | S n' =>
      let open' := <[icase := (rd (close b) (icase - 1) + rd (rel_open r) (icase - 1))%Qc]> (open b) in
      rebuild_loop n' (S icase) r
        {| open := open';
           high := <[icase := (rd open' icase + rd (rel_high r) (icase - 1))%Qc]> (high b);
           low := <[icase := (rd open' icase + rd (rel_low r) (icase - 1))%Qc]> (low b);
           close := <[icase := (rd open' icase + rd (rel_close r) (icase - 1))%Qc]> (close b) |}
  end.

Definition rebuild (nc : nat) (r : rels) (b : bars) : bars :=
  rebuild_loop (nc - 1) 1 r b.

Definition do_permute (nc : nat) (preserve_OO : Z) (b : bars) (r : rels)
    (st : Rng.state) : bars * rels * Rng.state :=
  let '(r', st') := shuffle nc preserve_OO r st in
  (rebuild nc r' b, r', st').

(** ** The optimiser *)

(** What [opt_params] returns and what it stores through its three output
    pointers [opt_rise], [opt_drop] and [nlong]. *)
Record opt_out : Type := mk_opt_out {
  best_perf : Qc;
  opt_rise : Qc;
  opt_drop : Qc;
  nlong : nat
}.

(** The literals [0.005], [.0005] and [-1.e60]. *)
Definition rise_step : Qc := Q2Qc (5 # 1000).
Definition drop_step : Qc := Q2Qc (5 # 10000).
Definition minus_1e60 : Qc := (- Qc_of_Z (10 ^ 60))%Qc.

(** [rise >= rise_thresh  &&  drop >= drop_thresh] at case [i].  The loop
    runs from [i = lookback], so [i - lookback] is never negative; [i - 1]
    is negative only when [lookback = 0], and then [rise] is 0, below every
    threshold of the grid, whatever [close[i-1]] holds. *)
Definition signal (lookback : nat) (close : list Qc)
    (rise_thresh drop_thresh : Qc) (i : nat) : bool :=
  let rise := (rd close i - rd close (i - lookback))%Qc in
  let drop := (rd close (i - 1) - rd close i)%Qc in
  bool_decide (rise_thresh ≤ rise)%Qc && bool_decide (drop_thresh ≤ drop)%Qc.

(** [for (i=lookback ; i<ncases-2 ; i++)], [n] iterations left; the
    accumulators are [total_return] and [nl]. *)
Fixpoint perf_loop (n i : nat) (lookback : nat) (open close : list Qc)
    (rise_thresh drop_thresh : Qc) (total_return : Qc) (nl : nat) : Qc * nat :=
  match n with
  | O => (total_return, nl)
  | S n' =>
      if signal lookback close rise_thresh drop_thresh i then
        let ret := (rd open (i + 2) - rd open (i + 1))%Qc in
        perf_loop n' (S i) lookback open close rise_thresh drop_thresh
          (total_return + ret)%Qc (S nl)
      else
        let ret := 0%Qc in
        perf_loop n' (S i) lookback open close rise_thresh drop_thresh
          (total_return + ret)%Qc nl
  end.

(** One trial pair: the performance loop, then
    [if (total_return > best_perf) { ... }]. *)
Definition trial (ncases lookback : nat) (open close : list Qc)
    (irise idrop : nat) (acc : opt_out) : opt_out :=
  let rise_thresh := (Qc_of_Z (Z.of_nat irise) * rise_step)%Qc in
  let drop_thresh := (Qc_of_Z (Z.of_nat idrop) * drop_step)%Qc in
  let '(total_return, nl) :=
    perf_loop (ncases - 2 - lookback) lookback lookback open close
      rise_thresh drop_thresh 0%Qc 0 in
  if bool_decide (best_perf acc < total_return)%Qc then
    {| best_perf := total_return;
       opt_rise := rise_thresh;
       opt_drop := drop_thresh;
       nlong := nl |}
  else acc.

(** [for (idrop=1 ; idrop<=50 ; idrop++)], [n] iterations left. *)
Fixpoint idrop_loop (n idrop : nat) (ncases lookback : nat)
    (open close : list Qc) (irise : nat) (acc : opt_out) : opt_out :=
  match n with
  | O => acc
  | S n' =>
      idrop_loop n' (S idrop) ncases lookback open close irise
        (trial ncases lookback open close irise idrop acc)
  end.

(** [for (irise=1 ; irise<=50 ; irise++)], [n] iterations left. *)
Fixpoint irise_loop (n irise : nat) (ncases lookback : nat)
    (open close : list Qc) (acc : opt_out) : opt_out :=
  match n with
  | O => acc
  | S n' =>
      irise_loop n' (S irise) ncases lookback open close
        (idrop_loop 50 1 ncases lookback open close irise acc)
  end.

(** [opt_params].  [prev_rise], [prev_drop] and [prev_nlong] are what the
    caller's three output variables hold on entry: they are overwritten only
    when a trial breaks the record. *)
Definition opt_params (ncases lookback : nat) (open close : list Qc)
    (prev_rise prev_drop : Qc) (prev_nlong : nat) : opt_out :=
  irise_loop 50 1 ncases lookback open close
    {| best_perf := minus_1e60;
       opt_rise := prev_rise;
       opt_drop := prev_drop;
       nlong := prev_nlong |}.

(** ** The replication loop of [main] *)

(** A [double] division.  A zero divisor gives no number (the program would
    print a NaN or an infinity): [None]. *)
Definition ddiv (x y : Qc) : option Qc :=
  if decide (y = 0%Qc) then None else Some (x / y)%Qc.

(** [open+lookback], ...: the part of the arrays that is permuted. *)
Definition window (lookback : nat) (b : bars) : bars :=
  {| open := drop lookback (open b);
     high := drop lookback (high b);
     low := drop lookback (low b);
     close := drop lookback (close b) |}.

(** The arrays after the window was overwritten in place with [w]. *)
Definition put_window (lookback : nat) (b w : bars) : bars :=
  {| open := take lookback (open b) ++ open w;
     high := take lookback (high b) ++ high w;
     low := take lookback (low b) ++ low w;
     close := take lookback (close b) ++ close w |}.

(** One line of the per-replication [printf]. *)
Record rep_line : Type := mk_rep_line {
  line_irep : nat;
  line_ret : Qc;
  line_rise : Qc;
  line_drop : Qc;
  line_NL : nat;
  line_TrndComp : Qc;
  line_TrnBias : Qc
}.

(** The variables of [main] that live across replications, and the lines
    printed so far. *)
Record loop_state : Type := mk_loop_state {
  prices : bars;
  moves : rels;
  rng : Rng.state;
  cur_rise : Qc;
  cur_drop : Qc;
  cur_nlong : nat;
  original : Qc;
  original_trend_component : Qc;
  original_nlong : nat;
  count : Z;
  mean_training_bias : Qc;
  printed : list rep_line
}.

(** The body of [for (irep=0 ; irep<nreps ; irep++)]. *)
Definition replication (nprices lookback : nat) (trend_per_return : Qc)
    (irep : nat) (s : loop_state) : loop_state :=
  let '(b, r, st) :=
    if decide (irep = 0) then (prices s, moves s, rng s)
    else
      let '(w, r, st) :=
        do_permute (nprices - lookback) 1 (window lookback (prices s))
          (moves s) (rng s) in
      (put_window lookback (prices s) w, r, st) in
  let o := opt_params nprices lookback (open b) (close b)
             (cur_rise s) (cur_drop s) (cur_nlong s) in
  let opt_return := best_perf o in
  let trend_component := (Qc_of_Z (Z.of_nat (nlong o)) * trend_per_return)%Qc in
  let line :=
    {| line_irep := irep;
       line_ret := opt_return;
       line_rise := opt_rise o;
       line_drop := opt_drop o;
       line_NL := nlong o;
       line_TrndComp := trend_component;
       line_TrnBias := (opt_return - trend_component)%Qc |} in
  if decide (irep = 0) then
    {| prices := b; moves := r; rng := st;
       cur_rise := opt_rise o; cur_drop := opt_drop o; cur_nlong := nlong o;
       original := opt_return;
       original_trend_component := trend_component;
       original_nlong := nlong o;
       count := 1;
       mean_training_bias := 0%Qc;
       printed := printed s ++ [line] |}
  else
    let training_bias := (opt_return - trend_component)%Qc in
    {| prices := b; moves := r; rng := st;
       cur_rise := opt_rise o; cur_drop := opt_drop o; cur_nlong := nlong o;
       original := original s;
       original_trend_component := original_trend_component s;
       original_nlong := original_nlong s;
       count := if bool_decide (original s ≤ opt_return)%Qc
                then (count s + 1)%Z else count s;
       mean_training_bias := (mean_training_bias s + training_bias)%Qc;
       printed := printed s ++ [line] |}.

(** [n] iterations of the loop left, the next one for [irep]. *)
Fixpoint rep_loop (n irep : nat) (nprices lookback : nat)
    (trend_per_return : Qc) (s : loop_state) : loop_state :=
  match n with
  | O => s
  | S n' =>
      rep_loop n' (S irep) nprices lookback trend_per_return
        (replication nprices lookback trend_per_return irep s)
  end.

(** The final report. *)
Record summary : Type := mk_summary {
  rep_lines : list rep_line;
  p_value : option Qc;
  total_trend : Qc;
  sum_original_nlong : nat;
  sum_original : Qc;
  sum_trend_component : Qc;
  training_bias : option Qc;
  skill : option Qc;
  unbiased_return : option Qc;
  final_count : Z;              (* [count], the numerator of the p-value *)
  final_rng : Rng.state;        (* not printed: the generator after the run *)
  final_moves : rels            (* not printed: the work arrays after the run *)
}.

Inductive outcome : Type :=
  | Exit1                      (* "ERROR... Number of prices must be at least 10 greater than lookback" *)
  | Report (r : summary).

(** [main] from "The market data is read.  Initialize for MCPT." on: the
    arguments are the parsed command line ([lookback], [nreps]), the price
    arrays as read from the file ([nprices] entries each) and the generator.
    [rel_open] is a fresh block of [4 * nprices] doubles cut in four; the
    variables of [main] assigned in replication 0 are indeterminate before
    it, here zero. *)
Definition main (lookback : nat) (nreps : Z) (nprices : nat) (b : bars)
    (st : Rng.state) : outcome :=
  if decide (nprices - lookback < 10) then Exit1
  else
    let work :=
      {| rel_open := replicate nprices 0%Qc;
         rel_high := replicate nprices 0%Qc;
         rel_low := replicate nprices 0%Qc;
         rel_close := replicate nprices 0%Qc |} in
    let trend_per_return :=
      ((rd (open b) (nprices - 1) - rd (open b) (lookback + 1))
       / Qc_of_Z (Z.of_nat (nprices - lookback - 2)))%Qc in
    let r := prepare_permute (nprices - lookback) (window lookback b) work in
    let s0 :=
      {| prices := b; moves := r; rng := st;
         cur_rise := 0%Qc; cur_drop := 0%Qc; cur_nlong := 0;
         original := 0%Qc; original_trend_component := 0%Qc;
         original_nlong := 0; count := 0; mean_training_bias := 0%Qc;
         printed := [] |} in
    let s := rep_loop (Z.to_nat nreps) 0 nprices lookback trend_per_return s0 in
    let mean := ddiv (mean_training_bias s) (Qc_of_Z (nreps - 1)) in
    let unbiased := (λ m, (original s - m)%Qc) <$> mean in
    Report
      {| rep_lines := printed s;
         p_value := ddiv (Qc_of_Z (count s)) (Qc_of_Z nreps);
         total_trend := (rd (open (prices s)) (nprices - 1)
                         - rd (open (prices s)) (lookback + 1))%Qc;
         sum_original_nlong := original_nlong s;
         sum_original := original s;
         sum_trend_component := original_trend_component s;
         training_bias := mean;
         skill := (λ u, (u - original_trend_component s)%Qc) <$> unbiased;
         unbiased_return := unbiased;
         final_count := count s;
         final_rng := rng s;
         final_moves := moves s |}.

(** ** The reading loop of [main]

    The loop [for (;;)] that reads the market file, from the opened file
    to "Market price history read".  [fp] is the list of the characters the
    text-mode stream still has to deliver; [line] is the buffer
    [char line[256]], which keeps behind the terminator what earlier lines
    left there.  A pointer into [line] is the rest of the buffer from that
    place on; reading past the end of the buffer, which C leaves undefined,
    gives [None].  [atof] and [log] are the C library's: they are parameters
    of the model and are taken to return numbers (a NaN or an infinity has
    no [Qc]).  Read errors ([ferror]) and allocation failures are not
    modelled, and memory fresh from [malloc] or [realloc] holds zeros. *)

Section reader.

Variable atof : list ascii → Qc.
Variable log : Qc → Qc.

Definition MKTBUF : nat := 2048.
Definition NUL : ascii := "000"%char.
Definition newline : ascii := "010"%char.

(** [fgets ( line , 256 , fp )] reads at most [n] = 255 characters and
    stops behind a newline: the characters read and the rest of the
    stream. *)
Fixpoint fgets (n : nat) (fp : list ascii) : list ascii * list ascii :=
  match n, fp with
  | S n', c :: fp' =>
      if decide (c = newline) then ([c], fp')
      else let '(l, rest) := fgets n' fp' in (c :: l, rest)
  | _, _ => ([], fp)
  end.

(** The buffer after [fgets] has stored [l] and the terminator. *)
Definition store_line (l line : list ascii) : list ascii :=
  l ++ NUL :: drop (S (length l)) line.

Fixpoint strlen (s : list ascii) : nat :=
  match s with
  | [] => 0
  | c :: s' => if decide (c = NUL) then 0 else S (strlen s')
  end.

(** The C string at a pointer: the characters before the terminator. *)
Fixpoint c_string (cptr : list ascii) : option (list ascii) :=
  match cptr with
  | [] => None
  | c :: cptr' =>
      if decide (c = NUL) then Some [] else (c ::.) <$> c_string cptr'
  end.

(** [! ((line[i] < '0') || (line[i] > '9'))]; a character above 127 fails
    the test whether [char] is signed or not. *)
Definition is_digit (c : ascii) : bool :=
  bool_decide (48 ≤ nat_of_ascii c ≤ 57).

(** [*cptr == ' ' || *cptr == '\t' || *cptr == ','] *)
Definition is_delimiter (c : ascii) : bool :=
  bool_decide (c = " "%char ∨ c = "009"%char ∨ c = ","%char).

(** [while ( *cptr == ' ' || *cptr == '\t' || *cptr == ',') ++cptr ;] *)
Fixpoint skip_delimiters (cptr : list ascii) : option (list ascii) :=
  match cptr with
  | [] => None
  | c :: cptr' => if is_delimiter c then skip_delimiters cptr' else Some cptr
  end.

(** [while ( *cptr && *cptr != ' ' && *cptr != ',' && *cptr != '\t') ++cptr ;] *)
Fixpoint pass_price (cptr : list ascii) : option (list ascii) :=
  match cptr with
  | [] => None
  | c :: cptr' =>
      if decide (c = NUL) then Some cptr
      else if is_delimiter c then Some cptr
      else pass_price cptr'
  end.

(** [x = atof ( cptr ) ; if (x > 0.0) x = log ( x ) ;] *)
Definition read_price (cptr : list ascii) : option Qc :=
  s ← c_string cptr;
  Some (if decide (0 < atof s)%Qc then log (atof s) else atof s).

(** The four prices of the line in the buffer, from [cptr = line + 9]
    on: open, high, low, close. *)
Definition parse_prices (line : list ascii) : option (Qc * Qc * Qc * Qc) :=
  cptr ← skip_delimiters (drop 9 line);
  o ← read_price cptr;
  cptr ← pass_price cptr;
  cptr ← skip_delimiters cptr;
  h ← read_price cptr;
  cptr ← pass_price cptr;
  cptr ← skip_delimiters cptr;
  l ← read_price cptr;
  cptr ← pass_price cptr;
  cptr ← skip_delimiters cptr;
  c ← read_price cptr;
  Some (o, h, l, c).

(** [low > open || low > close || high < open || high < close] *)
Definition invalid_prices (v : Qc * Qc * Qc * Qc) : bool :=
  let '(o, h, l, c) := v in
  bool_decide (o < l)%Qc || bool_decide (c < l)%Qc
  || bool_decide (h < o)%Qc || bool_decide (h < c)%Qc.

(** The four [realloc]s to [n] records. *)
Definition realloc_bars (n : nat) (b : bars) : bars :=
  {| open := resize n 0%Qc (open b);
     high := resize n 0%Qc (high b);
     low := resize n 0%Qc (low b);
     close := resize n 0%Qc (close b) |}.

(** [open[nprices] = o ; high[nprices] = h ; ...]: no value when the
    record lies outside what is allocated. *)
Definition store_bar (nprices : nat) (v : Qc * Qc * Qc * Qc) (b : bars)
    : option bars :=
  let '(o, h, l, c) := v in
  if decide (nprices < length (open b) ∧ nprices < length (high b)
             ∧ nprices < length (low b) ∧ nprices < length (close b))
  then Some {| open := <[nprices := o]> (open b);
               high := <[nprices := h]> (high b);
               low := <[nprices := l]> (low b);
               close := <[nprices := c]> (close b) |}
  else None.

(** How the loop ends. *)
Inductive read_result : Type :=
  | Prices (nprices : nat) (b : bars)   (* "Market price history read" *)
  | Invalid_date (line_no : nat)        (* "Invalid date reading line %d" *)
  | Invalid_OHLC (line_no : nat)        (* "Invalid open/high/low/close reading line %d" *)
  | Buffer_overrun                      (* a read behind [line[255]] *)
  | Array_overrun.                      (* a write behind the allocated records *)

(** One pass through the body of the loop [for (;;)]: the result the loop
    ends with, or the rest of the stream and the variables for the next
    pass. *)
Definition read_line (fp line : list ascii) (nprices bufcnt : nat) (b : bars)
    : read_result + (list ascii * list ascii * nat * nat * bars) :=
  match fp with
  | [] => inl (Prices nprices b)                 (* end of file *)
  | _ :: _ =>
      let '(l, fp') := fgets 255 fp in
      let line := store_line l line in
      if decide (strlen line < 2) then inl (Prices nprices b)
      else
        let '(b, bufcnt) :=
          if decide (bufcnt = 0)
          then (realloc_bars (nprices + MKTBUF) b, MKTBUF)
          else (b, bufcnt) in
        if negb (forallb is_digit (take 8 line))
        then inl (Invalid_date (nprices + 1))
        else
          match parse_prices line with
          | None => inl Buffer_overrun
          | Some v =>
              match store_bar nprices v b with
              | None => inl Array_overrun
              | Some b =>
                  if invalid_prices v then inl (Invalid_OHLC (nprices + 1))
                  else inr (fp', line, S nprices, bufcnt - 1, b)
              end
          end
  end.

(** The loop, with [fuel] passes allowed: [None] when they are used up. *)
Fixpoint read_loop (fuel : nat) (fp line : list ascii) (nprices bufcnt : nat)
    (b : bars) : option read_result :=
  match fuel with
  | O => None
  | S fuel' =>
      match read_line fp line nprices bufcnt b with
      | inl res => Some res
      | inr (fp', line', nprices', bufcnt', b') =>
          read_loop fuel' fp' line' nprices' bufcnt' b'
      end
  end.

(** The reading part of [main]: four arrays of [MKTBUF] records, then the
    loop.  Every pass takes at least one character from the stream. *)
Definition read_prices (fp line : list ascii) : option read_result :=
  read_loop (S (length fp)) fp line 0 MKTBUF
    {| open := replicate MKTBUF 0%Qc;
       high := replicate MKTBUF 0%Qc;
       low := replicate MKTBUF 0%Qc;
       close := replicate MKTBUF 0%Qc |}.

End reader.

(** ** Binary64 arithmetic

    The definitions above compute with exact rationals.  They give what the
    program computes wherever no rounding is involved - the generator, the
    exchanges, the counts, the comparisons of stored values - and they are
    what the statements on those parts are about.  Where the result of the
    program depends on the rounding of [double] arithmetic, the routines are
    given again in [B64], with every operation rounded as IEEE 754 binary64
    does in the default mode: the exact result, rounded to the nearest
    number with a 53-bit significand and an exponent of at least -1074,
    ties to the even significand.

    A binary64 number is the rational it denotes.  Both zeros are 0, and
    there is no infinity and no NaN: results of magnitude [2^1024] and more
    and divisions by zero are outside [B64].  No operation of the routines
    comes near that on log prices. *)

Module B64.

Local Open Scope Z_scope.

(** [2^k], for every integer [k]. *)
Definition pow2 (k : Z) : Qc :=
  if decide (0 ≤ k) then Qc_of_Z (2 ^ k) else (/ Qc_of_Z (2 ^ (- k)))%Qc.

(** The integer part of the binary logarithm of a positive rational: the
    difference of the bit lengths of numerator and denominator, or one
    less. *)
Definition ilog2 (x : Qc) : Z :=
  let k := Z.log2 (Qnum x) - Z.log2 (Zpos (Qden x)) in
  if decide (pow2 k ≤ x)%Qc then k else k - 1.

(** The nearest integer, the even one of two that are equally near. *)
Definition rne (a : Qc) : Z :=
  let f := Qfloor a in
  match (a - Qc_of_Z f ?= Q2Qc (1 # 2))%Qc with
  | Lt => f
  | Gt => f + 1
  | Eq => if Z.even f then f else f + 1
  end.

(** The exponent of the last bit of the significand of [a >= 0]: 52 places
    below the leading bit, and -1074 at least (subnormal numbers). *)
Definition ulp_exp (a : Qc) : Z := Z.max (ilog2 a - 52) (-1074).

(** Rounding of a rational [a >= 0]. *)
Definition fl_pos (a : Qc) : Qc :=
  (Qc_of_Z (rne (a / pow2 (ulp_exp a))) * pow2 (ulp_exp a))%Qc.

(** Rounding to binary64: the magnitude is rounded, the sign kept. *)
Definition fl (x : Qc) : Qc :=
  if decide (0 ≤ x)%Qc then fl_pos x else (- fl_pos (- x))%Qc.

(** [x + y], [x - y], [x * y] and [x / y] on [double]. *)
Definition add (x y : Qc) : Qc := fl (x + y).
Definition sub (x y : Qc) : Qc := fl (x - y).
Definition mul (x y : Qc) : Qc := fl (x * y).
Definition div (x y : Qc) : Qc := fl (x / y).

(** The conversion of an [int] or [unsigned int] to [double]. *)
Definition of_int (n : Z) : Qc := fl (Qc_of_Z n).

(** A decimal literal [n / d] of the source: the nearest [double]. *)
Definition literal (n d : Z) : Qc := fl (Qc_of_Z n / Qc_of_Z d).

Local Open Scope nat_scope.

(** *** The generator *)

(** [double mult = 1.0 / 0xFFFFFFFF ; return mult * RAND32M() ;] *)
Definition unifrand (st : Rng.state) : Qc * Rng.state :=
  let mult := div (of_int 1) (of_int 4294967295) in
  let '(r, st') := Rng.RAND32M st in
  (mul mult (of_int r), st').

(** *** Permutation routines *)

(** Body of the loop of [prepare_permute], [n] iterations left. *)
Fixpoint prepare_loop (n icase : nat) (b : bars) (r : rels) : rels :=
  match n with
  | O => r
  | S n' =>
      prepare_loop n' (S icase) b
        {| rel_open := <[icase - 1 := sub (rd (open b) icase) (rd (close b) (icase - 1))]> (rel_open r);
           rel_high := <[icase - 1 := sub (rd (high b) icase) (rd (open b) icase)]> (rel_high r);
           rel_low := <[icase - 1 := sub (rd (low b) icase) (rd (open b) icase)]> (rel_low r);
           rel_close := <[icase - 1 := sub (rd (close b) icase) (rd (open b) icase)]> (rel_close r) |}
  end.

Definition prepare_permute (nc : nat) (b : bars) (r : rels) : rels :=
  prepare_loop (nc - 1) 1 b r.

(** [j = (int) (unifrand() * i) ; if (j >= i) j = i - 1 ;]: the conversion
    to [int] drops the fraction. *)
Definition pick (i : nat) (st : Rng.state) : nat * Rng.state :=
  let '(u, st') := unifrand st in
  let j := Z.to_nat (Qfloor (mul u (of_int (Z.of_nat i)))) in
  let j := if decide (i ≤ j) then i - 1 else j in
  (j, st').

(** [while (i > 1) { j = ... ; --i ; <exchange entries i and j> }] *)
Fixpoint shuffle_loop {T} (exch : nat → nat → T → T) (i : nat)
    (st : Rng.state) (s : T) : T * Rng.state :=
  match i with
  | O => (s, st)
  | S i' =>
      if decide (1 < i) then
        let '(j, st') := pick i st in
        shuffle_loop exch i' st' (exch i' j s)
      else (s, st)
  end.

(** The two shuffling loops of [do_permute]. *)
Definition shuffle (nc : nat) (preserve_OO : Z) (r : rels) (st : Rng.state)
    : rels * Rng.state :=
  let p := normalize_flag preserve_OO in
  let '(r1, st1) := shuffle_loop (exch_open p) (nc - 1 - p) st r in
  shuffle_loop exch_intrabar (nc - 1 - p) st1 r1.

(** Body of the rebuilding loop of [do_permute], [n] iterations left. *)
Fixpoint rebuild_loop (n icase : nat) (r : rels) (b : bars) : bars :=
  match n with
  | O => b
  | S n' =>
      let open' := <[icase := add (rd (close b) (icase - 1)) (rd (rel_open r) (icase - 1))]> (open b) in
      rebuild_loop n' (S icase) r
        {| open := open';
           high := <[icase := add (rd open' icase) (rd (rel_high r) (icase - 1))]> (high b);
           low := <[icase := add (rd open' icase) (rd (rel_low r) (icase - 1))]> (low b);
           close := <[icase := add (rd open' icase) (rd (rel_close r) (icase - 1))]> (close b) |}
  end.

Definition rebuild (nc : nat) (r : rels) (b : bars) : bars :=
  rebuild_loop (nc - 1) 1 r b.

Definition do_permute (nc : nat) (preserve_OO : Z) (b : bars) (r : rels)
    (st : Rng.state) : bars * rels * Rng.state :=
  let '(r', st') := shuffle nc preserve_OO r st in
  (rebuild nc r' b, r', st').

(** *** The optimiser *)

(** The literals [0.005], [.0005] and [-1.e60]. *)
Definition rise_step : Qc := literal 5 1000.
Definition drop_step : Qc := literal 5 10000.
Definition minus_1e60 : Qc := fl (- Qc_of_Z (10 ^ 60)).

(** [rise >= rise_thresh  &&  drop >= drop_thresh] at case [i]. *)
Definition signal (lookback : nat) (close : list Qc)
    (rise_thresh drop_thresh : Qc) (i : nat) : bool :=
  let rise := sub (rd close i) (rd close (i - lookback)) in
  let drop := sub (rd close (i - 1)) (rd close i) in
  bool_decide (rise_thresh ≤ rise)%Qc && bool_decide (drop_thresh ≤ drop)%Qc.

(** [for (i=lookback ; i<ncases-2 ; i++)], [n] iterations left. *)
Fixpoint perf_loop (n i : nat) (lookback : nat) (open close : list Qc)
    (rise_thresh drop_thresh : Qc) (total_return : Qc) (nl : nat) : Qc * nat :=
  match n with
  | O => (total_return, nl)
  | S n' =>
      if signal lookback close rise_thresh drop_thresh i then
        let ret := sub (rd open (i + 2)) (rd open (i + 1)) in
        perf_loop n' (S i) lookback open close rise_thresh drop_thresh
          (add total_return ret) (S nl)
      else
        let ret := 0%Qc in
        perf_loop n' (S i) lookback open close rise_thresh drop_thresh
          (add total_return ret) nl
  end.

(** One trial pair: [rise_thresh = irise * 0.005 ;]
    [drop_thresh = idrop * .0005 ;], the performance loop, then
    [if (total_return > best_perf) { ... }]. *)
Definition trial (ncases lookback : nat) (open close : list Qc)
    (irise idrop : nat) (acc : opt_out) : opt_out :=
  let rise_thresh := mul (of_int (Z.of_nat irise)) rise_step in
  let drop_thresh := mul (of_int (Z.of_nat idrop)) drop_step in
  let '(total_return, nl) :=
    perf_loop (ncases - 2 - lookback) lookback lookback open close
      rise_thresh drop_thresh 0%Qc 0 in
  if bool_decide (best_perf acc < total_return)%Qc then
    {| best_perf := total_return;
       opt_rise := rise_thresh;
       opt_drop := drop_thresh;
       nlong := nl |}
  else acc.

Fixpoint idrop_loop (n idrop : nat) (ncases lookback : nat)
    (open close : list Qc) (irise : nat) (acc : opt_out) : opt_out :=
  match n with
  | O => acc
  | S n' =>
      idrop_loop n' (S idrop) ncases lookback open close irise
        (trial ncases lookback open close irise idrop acc)
  end.

Fixpoint irise_loop (n irise : nat) (ncases lookback : nat)
    (open close : list Qc) (acc : opt_out) : opt_out :=
  match n with
  | O => acc
  | S n' =>
      irise_loop n' (S irise) ncases lookback open close
        (idrop_loop 50 1 ncases lookback open close irise acc)
  end.

Definition opt_params (ncases lookback : nat) (open close : list Qc)
    (prev_rise prev_drop : Qc) (prev_nlong : nat) : opt_out :=
  irise_loop 50 1 ncases lookback open close
    {| best_perf := minus_1e60;
       opt_rise := prev_rise;
       opt_drop := prev_drop;
       nlong := prev_nlong |}.

End B64.

(** ** Vocabulary of the statements *)

(** *** Arrays *)

(** The work arrays hold at least [n] entries each. *)
Definition rels_hold (n : nat) (r : rels) : Prop :=
  n ≤ length (rel_open r) ∧ n ≤ length (rel_high r)
  ∧ n ≤ length (rel_low r) ∧ n ≤ length (rel_close r).

(** The price arrays hold at least [n] entries each. *)
Definition bars_hold (n : nat) (b : bars) : Prop :=
  n ≤ length (open b) ∧ n ≤ length (high b)
  ∧ n ≤ length (low b) ∧ n ≤ length (close b).

(** The index met at [k] after entries [i] and [j] were exchanged. *)
Definition transp (i j k : nat) : nat :=
  if decide (k = j) then i else if decide (k = i) then j else k.

(** [l'] and [l] agree outside the indices [a .. b-1]. *)
Definition same_outside {A} (a b : nat) (l' l : list A) : Prop :=
  ∀ k, k < a ∨ b ≤ k → l' !! k = l !! k.

(** [l'] is [l] with the entries at indices [a .. b-1] rearranged: the same
    multiset, and nothing moved outside the range. *)
Definition shuffled_within {A} (a b : nat) (l' l : list A) : Prop :=
  l' ≡ₚ l ∧ same_outside a b l' l.

(** The sum of an array. *)
Definition sumQc (l : list Qc) : Qc := foldr Qcplus 0%Qc l.

(** A loop that stores [f icase] at index [icase - 1] for [n] successive
    values of [icase]: the shape of each of the four assignments of
    [prepare_permute]. *)
Fixpoint fill_from (f : nat → Qc) (n icase : nat) (a : list Qc) : list Qc :=
  match n with
  | O => a
  | S n' => fill_from f n' (S icase) (<[icase - 1 := f icase]> a)
  end.

(** *** Permutation *)

(** The intrabar moves of each bar, as one list of
    (rel_high, (rel_low, rel_close)) tuples. *)
Definition triples (r : rels) : list (Qc * (Qc * Qc)) :=
  zip (rel_high r) (zip (rel_low r) (rel_close r)).

(** What the first shuffling loop keeps, over indices [a .. b-1] of
    [rel_open], and what the second keeps, over indices [0 .. n-1] of the
    three intrabar arrays; [r] is the state before the loop. *)
Definition open_loop_inv (a b : nat) (r r' : rels) : Prop :=
  shuffled_within a b (rel_open r') (rel_open r)
  ∧ rel_high r' = rel_high r ∧ rel_low r' = rel_low r
  ∧ rel_close r' = rel_close r.

Definition intrabar_loop_inv (n : nat) (r r' : rels) : Prop :=
  rel_open r' = rel_open r
  ∧ shuffled_within 0 n (rel_high r') (rel_high r)
  ∧ shuffled_within 0 n (rel_low r') (rel_low r)
  ∧ shuffled_within 0 n (rel_close r') (rel_close r)
  ∧ shuffled_within 0 n (triples r') (triples r).

(** [n] successive calls of [do_permute] on the same arrays, as the
    replications of [main] make them. *)
Fixpoint permute_cycles (n : nat) (nc : nat) (preserve_OO : Z) (b : bars)
    (r : rels) (st : Rng.state) : bars * rels * Rng.state :=
  match n with
  | O => (b, r, st)
  | S n' =>
      let '(b', r', st') := do_permute nc preserve_OO b r st in
      permute_cycles n' nc preserve_OO b' r' st'
  end.

(** Bars [1 .. nc-1] of [b] are what the rebuilding loop makes of the moves
    [r]: each open is the close before it plus [rel_open], and high, low and
    close are that open plus the intrabar moves. *)
Definition consistent (nc : nat) (b : bars) (r : rels) : Prop :=
  ∀ k, 1 ≤ k < nc →
    rd (open b) k = (rd (close b) (k - 1) + rd (rel_open r) (k - 1))%Qc
    ∧ rd (high b) k = (rd (open b) k + rd (rel_high r) (k - 1))%Qc
    ∧ rd (low b) k = (rd (open b) k + rd (rel_low r) (k - 1))%Qc
    ∧ rd (close b) k = (rd (open b) k + rd (rel_close r) (k - 1))%Qc.

(** What every call of [do_permute] keeps, relative to the window [b0] and
    the moves [r0] that [prepare_permute] derived from it. *)
Definition cycle_inv (nc : nat) (b0 : bars) (r0 : rels) (b : bars) (r : rels)
    : Prop :=
  bars_hold nc b ∧ rels_hold (nc - 1) r
  ∧ take (nc - 1) (rel_open r) ≡ₚ take (nc - 1) (rel_open r0)
  ∧ take (nc - 1) (rel_close r) ≡ₚ take (nc - 1) (rel_close r0)
  ∧ take (nc - 1) (triples r) ≡ₚ take (nc - 1) (triples r0)
  ∧ (open b !! 0 = open b0 !! 0 ∧ high b !! 0 = high b0 !! 0
     ∧ low b !! 0 = low b0 !! 0 ∧ close b !! 0 = close b0 !! 0)
  ∧ consistent nc b r.

(** The consistency the loader enforces on bar [k]: it rejects a line with
    [low > open || low > close || high < open || high < close]. *)
Definition valid_bar (b : bars) (k : nat) : Prop :=
  (rd (low b) k ≤ rd (open b) k)%Qc ∧ (rd (low b) k ≤ rd (close b) k)%Qc
  ∧ (rd (open b) k ≤ rd (high b) k)%Qc ∧ (rd (close b) k ≤ rd (high b) k)%Qc.

(** The same consistency on the intrabar moves of one bar. *)
Definition valid_triple (t : Qc * (Qc * Qc)) : Prop :=
  let '(rh, (rl, rc)) := t in
  (rl ≤ 0)%Qc ∧ (rl ≤ rc)%Qc ∧ (0 ≤ rh)%Qc ∧ (rc ≤ rh)%Qc.

(** *** The optimiser, in the words of the specification

    These definitions follow the specification, not the code: they are what
    [opt_params] is compared with. *)

(** The grid values [k * 0.005] and [k * 0.0005]. *)
Definition spec_rise_threshold (k : nat) : Qc := (Qc_of_Z (Z.of_nat k) * rise_step)%Qc.
Definition spec_drop_threshold (k : nat) : Qc := (Qc_of_Z (Z.of_nat k) * drop_step)%Qc.

(** The evaluation indices [lookback .. N-3]. *)
Definition spec_eval_range (ncases lookback : nat) : list nat :=
  seq lookback (ncases - 2 - lookback).

(** The return realized at index [i]: [open[i+2] - open[i+1]] when
    [close[i] - close[i-lookback] >= riseThreshold] and
    [close[i-1] - close[i] >= dropThreshold], else zero. *)
Definition spec_realized (lookback : nat) (open close : list Qc)
    (riseThreshold dropThreshold : Qc) (i : nat) : Qc :=
  if bool_decide ((riseThreshold ≤ rd close i - rd close (i - lookback))%Qc
                  ∧ (dropThreshold ≤ rd close (i - 1) - rd close i)%Qc)
  then (rd open (i + 2) - rd open (i + 1))%Qc else 0%Qc.

(** The cumulative return of a threshold pair. *)
Definition spec_cum_return (ncases lookback : nat) (open close : list Qc)
    (riseThreshold dropThreshold : Qc) : Qc :=
  sumQc (spec_realized lookback open close riseThreshold dropThreshold
           <$> spec_eval_range ncases lookback).

(** The number of indices of the range where both conditions hold. *)
Definition spec_long_count (ncases lookback : nat) (close : list Qc)
    (riseThreshold dropThreshold : Qc) : nat :=
  length (filter (λ i, (riseThreshold ≤ rd close i - rd close (i - lookback))%Qc
                       ∧ (dropThreshold ≤ rd close (i - 1) - rd close i)%Qc)
            (spec_eval_range ncases lookback)).

(** The 2500 pairs of grid indices, rise outermost, both ascending. *)
Definition spec_grid : list (nat * nat) :=
  flat_map (λ irise, (λ idrop, (irise, idrop)) <$> seq 1 50) (seq 1 50).

(** What a record-breaking trial of the pair [p] stores. *)
Definition spec_record (ncases lookback : nat) (open close : list Qc)
    (p : nat * nat) : opt_out :=
  {| best_perf := spec_cum_return ncases lookback open close
                    (spec_rise_threshold p.1) (spec_drop_threshold p.2);
     opt_rise := spec_rise_threshold p.1;
     opt_drop := spec_drop_threshold p.2;
     nlong := spec_long_count ncases lookback close
                (spec_rise_threshold p.1) (spec_drop_threshold p.2) |}.

(** Iteration order of the grid: [p] is tried before [q]. *)
Definition tried_before (p q : nat * nat) : Prop :=
  p.1 < q.1 ∨ (p.1 = q.1 ∧ p.2 < q.2).

#[global] Instance tried_before_dec p q : Decision (tried_before p q) :=
  or_dec _ _.

(** One trial as a step of a left fold over grid pairs. *)
Definition trial_step (ncases lookback : nat) (open close : list Qc)
    (acc : opt_out) (p : nat * nat) : opt_out :=
  trial ncases lookback open close p.1 p.2 acc.

(** The input is a series of log prices: every entry is the logarithm of a
    positive [double], hence between [log 4.9e-324 > -745] and
    [log 1.8e308 < 710].  With [ncases] an [int], this keeps every cumulative
    return far above the initial record [-1.e60] of [opt_params]. *)
Definition log_prices (a : list Qc) : Prop :=
  Forall (λ x, (Qc_of_Z (-745) ≤ x)%Qc ∧ (x ≤ Qc_of_Z 710)%Qc) a.

(** *** The report *)

(** The number of printed trials whose return is at least [original]. *)
Definition at_least_as_good (original : Qc) (trials : list rep_line) : nat :=
  length (filter (λ l, (original ≤ line_ret l)%Qc) trials).

(** *** Inputs used to instantiate the statements *)

(** A window of four valid bars and a work area for its moves. *)
Definition window_example : bars :=
  {| open := Qc_of_Z <$> [10; 12; 11; 15]%Z;
     high := Qc_of_Z <$> [13; 14; 16; 17]%Z;
     low := Qc_of_Z <$> [9; 10; 10; 12]%Z;
     close := Qc_of_Z <$> [11; 13; 14; 13]%Z |}.

Definition work_example : rels :=
  {| rel_open := replicate 3 0%Qc;
     rel_high := replicate 3 0%Qc;
     rel_low := replicate 3 0%Qc;
     rel_close := replicate 3 0%Qc |}.

(** Three bars' worth of relative moves (a window of four bars), all
    entries distinct. *)
Definition moves_example : rels :=
  {| rel_open := Qc_of_Z <$> [1; 2; 3]%Z;
     rel_high := Qc_of_Z <$> [10; 20; 30]%Z;
     rel_low := Qc_of_Z <$> [-10; -20; -30]%Z;
     rel_close := Qc_of_Z <$> [4; 5; 6]%Z |}.

(** Twelve log prices (in thousandths) with two dips. *)
Definition close_example : list Qc :=
  (λ z, Q2Qc (z # 1000)) <$> [0; 10; 20; 30; 29; 40; 50; 49; 60; 70; 80; 90]%Z.
Definition open_example : list Qc :=
  (λ z, Q2Qc (z # 1000)) <$> [0; 9; 19; 29; 30; 39; 49; 50; 59; 69; 79; 89]%Z.

(** A series of twelve valid bars around [open_example] and
    [close_example]. *)
Definition series_example : bars :=
  {| open := open_example;
     high := (λ x, x + 1)%Qc <$> close_example;
     low := (λ x, x - 1)%Qc <$> open_example;
     close := close_example |}.

(** ** Vocabulary of the further properties *)

(** *** The generator *)

(** The states the generator can be in: 256 table words and a carry that
    fit their C types, the carry below the multiplier, the index an
    [unsigned char]. *)
Definition rng_wf (st : Rng.state) : Prop :=
  length (Rng.Qtab st) = 256
  ∧ Forall (λ q, (0 ≤ q < 2 ^ 32)%Z) (Rng.Qtab st)
  ∧ (0 ≤ Rng.carry st < 809430660)%Z
  ∧ (0 ≤ Rng.RAND32M_i st < 256)%Z.

(** One step of the congruential generator that fills the table:
    [j = 69069 * j + 12345] on [unsigned int]. *)
Definition lcg (j : Z) : Z := ((69069 * j + 12345) mod 2 ^ 32)%Z.

(** A state with the table of a stream that has been in use, at the carry
    and the index of the initial state. *)
Definition used_state : Rng.state :=
  {| Rng.Qtab := Rng.Qtab (snd (Rng.draws 3 Rng.initial));
     Rng.carry := 362436;
     Rng.MWC256_initialized := true;
     Rng.MWC256_seed := 123456789;
     Rng.RAND32M_i := 255 |}.

(** *** The optimiser *)

(** [open_example] and [close_example] changed where [opt_params] with
    [lookback = 2] does not look. *)
Definition open_example_alt : list Qc := <[0 := Qc_of_Z 5]> open_example.
Definition close_example_alt : list Qc := <[11 := Qc_of_Z 5]> close_example.

(** *** The report *)

(** The sum of the training biases printed for the trials. *)
Definition printed_bias (trials : list rep_line) : Qc :=
  sumQc (line_TrnBias <$> trials).

(** The work area [main] allocates for [nprices] prices. *)
Definition main_work (nprices : nat) : rels :=
  {| rel_open := replicate nprices 0%Qc;
     rel_high := replicate nprices 0%Qc;
     rel_low := replicate nprices 0%Qc;
     rel_close := replicate nprices 0%Qc |}.

(** The open-to-open change of the evaluation period, as [main] takes it
    from the arrays for [trend_per_return] and for the report. *)
Definition open_trend (lookback nprices : nat) (b : bars) : Qc :=
  (rd (open b) (nprices - 1) - rd (open b) (lookback + 1))%Qc.

(** What the line printed for replication [k] shows, given the trend per
    bar held long. *)
Definition line_shape (trend_per_return : Qc) (k : nat) (l : rep_line) : Prop :=
  line_irep l = k
  ∧ line_TrndComp l = (Qc_of_Z (Z.of_nat (line_NL l)) * trend_per_return)%Qc
  ∧ line_TrnBias l = (line_ret l - line_TrndComp l)%Qc.

(** The variables of [main] when its loop starts. *)
Definition loop_start (lookback nprices : nat) (b : bars) (st : Rng.state)
    : loop_state :=
  {| prices := b;
     moves := prepare_permute (nprices - lookback) (window lookback b)
                (main_work nprices);
     rng := st;
     cur_rise := 0%Qc; cur_drop := 0%Qc; cur_nlong := 0;
     original := 0%Qc; original_trend_component := 0%Qc;
     original_nlong := 0; count := 0; mean_training_bias := 0%Qc;
     printed := [] |}.

(** *** The reading loop *)

(** Each of the four arrays has [cap] records. *)
Definition capacity (cap : nat) (b : bars) : Prop :=
  length (open b) = cap ∧ length (high b) = cap
  ∧ length (low b) = cap ∧ length (close b) = cap.

(** What the reading loop keeps: [bufcnt] free records behind the
    [nprices] read so far, in arrays that grow by [MKTBUF] records at a
    time, and every bar read so far consistent. *)
Definition read_inv (nprices bufcnt : nat) (b : bars) : Prop :=
  capacity (nprices + bufcnt) b
  ∧ bufcnt ≤ MKTBUF
  ∧ (MKTBUF | nprices + bufcnt)
  ∧ ∀ k, k < nprices → valid_bar b k.

(** Bar [k] of the arrays. *)
Definition bar_at (b : bars) (k : nat) : Qc * Qc * Qc * Qc :=
  (rd (open b) k, rd (high b) k, rd (low b) k, rd (close b) k).

(** A stream of whole lines: empty, or ending in a newline. *)
Definition whole_lines (f : list ascii) : Prop :=
  f = [] ∨ last f = Some newline.

(** The line buffer as the loop needs it: 256 characters, with a
    terminator somewhere from column 9 on. *)
Definition line_ok (line : list ascii) : Prop :=
  length line = 256 ∧ NUL ∈ drop 9 line.

(** *** Library functions used to instantiate the statements *)

(** A stand-in for [atof] on unsigned whole numbers: the value of the
    leading digits. *)
Fixpoint digits_value (acc : Z) (s : list ascii) : Z :=
  match s with
  | [] => acc
  | c :: s' =>
      if is_digit c
      then digits_value (10 * acc + (Z.of_nat (nat_of_ascii c) - 48))%Z s'
      else acc
  end.

Definition atof_example (s : list ascii) : Qc := Qc_of_Z (digits_value 0 s).

(** A stand-in for [log]. *)
Definition log_example (x : Qc) : Qc := (x - 1)%Qc.

(** *** Files used to instantiate the statements *)

(** Two lines of a price file, and a line that is a date only. *)
Definition first_line_example : list ascii :=
  String.list_ascii_of_string "20200102 3 5 2 4" ++ [newline].

Definition second_line_example : list ascii :=
  String.list_ascii_of_string "20200103,4,,6 3, 5" ++ [newline].

Definition two_bars_example : list ascii :=
  first_line_example ++ second_line_example.

Definition date_only_example : list ascii :=
  String.list_ascii_of_string "20200107".

(** A file of two bars, an empty line and a third bar; a zeroed buffer. *)
Definition file_example : list ascii :=
  two_bars_example ++ [newline]
  ++ String.list_ascii_of_string "20200106 5 7 4 6" ++ [newline].

Definition line_example : list ascii := replicate 256 NUL.

(** The arrays read from [first_line_example] and from
    [two_bars_example]. *)
Definition loaded_first_example : bars :=
  match read_prices atof_example log_example first_line_example line_example with
  | Some (Prices _ b) => b
  | _ => {| open := []; high := []; low := []; close := [] |}
  end.

Definition loaded_example : bars :=
  match read_prices atof_example log_example two_bars_example line_example with
  | Some (Prices _ b) => b
  | _ => {| open := []; high := []; low := []; close := [] |}
  end.

(** A file of twelve bars, and the arrays read from it. *)
Definition twelve_bars_example : list ascii :=
  concat (replicate 6 two_bars_example).

Definition loaded_twelve_example : bars :=
  match read_prices atof_example log_example twelve_bars_example line_example with
  | Some (Prices _ b) => b
  | _ => {| open := []; high := []; low := []; close := [] |}
  end.

(** ** Vocabulary of the binary64 statements *)

(** *** The optimiser, in the words of the specification

    As [spec_rise_threshold] .. [spec_record] above, with the arithmetic of
    the program: the products [k * 0.005] and [k * 0.0005], the differences
    of prices and the sum are binary64 operations, and the sum is taken in
    the order of the indices, from [0.0]. *)

Definition b64_rise_threshold (k : nat) : Qc :=
  B64.mul (B64.of_int (Z.of_nat k)) B64.rise_step.
Definition b64_drop_threshold (k : nat) : Qc :=
  B64.mul (B64.of_int (Z.of_nat k)) B64.drop_step.

(** Both conditions hold at index [i]:
    [close[i] - close[i-lookback] >= riseThreshold] and
    [close[i-1] - close[i] >= dropThreshold]. *)
Definition b64_long (lookback : nat) (close : list Qc)
    (riseThreshold dropThreshold : Qc) (i : nat) : Prop :=
  (riseThreshold ≤ B64.sub (rd close i) (rd close (i - lookback)))%Qc
  ∧ (dropThreshold ≤ B64.sub (rd close (i - 1)) (rd close i))%Qc.

#[global] Instance b64_long_dec lookback close rt dt i :
  Decision (b64_long lookback close rt dt i) := and_dec _ _.

(** The return realized at index [i]: [open[i+2] - open[i+1]] when both
    conditions hold, else zero. *)
Definition b64_realized (lookback : nat) (open close : list Qc)
    (riseThreshold dropThreshold : Qc) (i : nat) : Qc :=
  if bool_decide (b64_long lookback close riseThreshold dropThreshold i)
  then B64.sub (rd open (i + 2)) (rd open (i + 1)) else 0%Qc.

(** The binary64 sum of a list, in the order of the list. *)
Definition b64_sum (l : list Qc) : Qc := fold_left B64.add l 0%Qc.

(** The cumulative return of a threshold pair. *)
Definition b64_cum_return (ncases lookback : nat) (open close : list Qc)
    (riseThreshold dropThreshold : Qc) : Qc :=
  b64_sum (b64_realized lookback open close riseThreshold dropThreshold
             <$> spec_eval_range ncases lookback).

(** The number of indices of the range where both conditions hold. *)
Definition b64_long_count (ncases lookback : nat) (close : list Qc)
    (riseThreshold dropThreshold : Qc) : nat :=
  length (filter (b64_long lookback close riseThreshold dropThreshold)
            (spec_eval_range ncases lookback)).

(** What a record-breaking trial of the pair [p] stores. *)
Definition b64_record (ncases lookback : nat) (open close : list Qc)
    (p : nat * nat) : opt_out :=
  {| best_perf := b64_cum_return ncases lookback open close
                    (b64_rise_threshold p.1) (b64_drop_threshold p.2);
     opt_rise := b64_rise_threshold p.1;
     opt_drop := b64_drop_threshold p.2;
     nlong := b64_long_count ncases lookback close
                (b64_rise_threshold p.1) (b64_drop_threshold p.2) |}.

(** The fields of a result, the rationals as fractions in lowest terms. *)
Definition opt_out_fields (o : opt_out) : Q * Q * Q * nat :=
  (this (best_perf o), this (opt_rise o), this (opt_drop o), nlong o).

(** One trial as a step of a left fold over grid pairs. *)
Definition b64_trial_step (ncases lookback : nat) (open close : list Qc)
    (acc : opt_out) (p : nat * nat) : opt_out :=
  B64.trial ncases lookback open close p.1 p.2 acc.

(** *** Successive permutations *)

(** [n] calls of [do_permute] on the same arrays. *)
Fixpoint b64_permute_cycles (n : nat) (nc : nat) (preserve_OO : Z) (b : bars)
    (r : rels) (st : Rng.state) : bars * rels * Rng.state :=
  match n with
  | O => (b, r, st)
  | S n' =>
      let '(b', r', st') := B64.do_permute nc preserve_OO b r st in
      b64_permute_cycles n' nc preserve_OO b' r' st'
  end.

(** *** Inputs used to instantiate the binary64 statements *)

(** Three valid bars at the [double]s nearest to 0.4 and 0.1, and a work
    area for their moves. *)
Definition window_b64 : bars :=
  {| open := [B64.literal 4 10; B64.literal 4 10; B64.literal 4 10];
     high := [B64.literal 4 10; B64.literal 4 10; B64.literal 4 10];
     low := [B64.literal 4 10; B64.literal 4 10; B64.literal 1 10];
     close := [B64.literal 4 10; B64.literal 4 10; B64.literal 1 10] |}.

Definition work_b64 : rels :=
  {| rel_open := replicate 2 0%Qc;
     rel_high := replicate 2 0%Qc;
     rel_low := replicate 2 0%Qc;
     rel_close := replicate 2 0%Qc |}.

(** Twelve valid bars at the [double]s nearest to multiples of 0.001, and a
    work area for their moves. *)
Definition series_b64 : bars :=
  {| open := (λ z, B64.literal z 1000)
       <$> [0; 9; 19; 29; 30; 39; 49; 50; 59; 69; 79; 89]%Z;
     high := (λ z, B64.literal z 1000)
       <$> [1; 11; 21; 31; 31; 41; 51; 51; 61; 71; 81; 91]%Z;
     low := (λ z, B64.literal z 1000)
       <$> [0; 8; 18; 28; 28; 38; 48; 48; 58; 68; 78; 88]%Z;
     close := (λ z, B64.literal z 1000)
       <$> [0; 10; 20; 30; 29; 40; 50; 49; 60; 70; 80; 90]%Z |}.

Definition series_work_b64 : rels :=
  {| rel_open := replicate 11 0%Qc;
     rel_high := replicate 11 0%Qc;
     rel_low := replicate 11 0%Qc;
     rel_close := replicate 11 0%Qc |}.

(** Eight log prices with a rise that lies between the [double]
    [3 * 0.005] and the rational 3/200: [close[2]] is the [double] nearest
    to 0.015. *)
Definition open_threshold : list Qc :=
  [0; 0; 0; 0; B64.literal 1 2; 0; B64.literal 1 2; B64.literal 1 4]%Qc.
Definition close_threshold : list Qc :=
  [0; B64.literal 1 16; B64.literal 15 1000; 0; B64.literal 1 16;
   B64.literal 13 1024; 0; 0]%Qc.

(** Five log prices whose rise at index 2 is 0.005 after rounding and less
    before. *)
Definition open_rounded_rise : list Qc := [0; 0; 0; 0; B64.literal 1 4]%Qc.
Definition close_rounded_rise : list Qc :=
  [B64.literal 4 1000000; B64.literal 1 10; B64.literal 5004 1000000; 0; 0]%Qc.

(** Five prices on which every threshold pair trades once, at a return of
    [-1e61]: raw values, not logarithms of prices. *)
Definition open_crash_b64 : list Qc :=
  [0; 0; 0; B64.literal (10 ^ 61) 1; 0]%Qc.
Definition close_crash_b64 : list Qc := B64.of_int <$> [0; 2; 1; 1; 1]%Z.

(** Eleven raw values, each a [double], on which every pair takes the
    positions at indices 2, 4, 6 and 8, at returns of [-1e60 + 2^146 + 2^100],
    [-(2^146 - 2^100)], [-0.4 * 2^147] and 0. *)
Definition open_absorbed : list Qc :=
  [0; 0; 0; - Qc_of_Z (2 ^ 146 + 2 ^ 100); B64.minus_1e60; 0;
   - Qc_of_Z (2 ^ 146 - 2 ^ 100); 0; - (B64.literal 4 10 * Qc_of_Z (2 ^ 147));
   0; 0]%Qc.
Definition close_absorbed : list Qc :=
  Qc_of_Z <$> [0; 10; 1; 20; 2; 30; 3; 40; 4; 50; 5]%Z.

(** Twelve log prices that never drop: no pair ever trades. *)
Definition close_uptrend_b64 : list Qc :=
  (λ z, B64.literal z 1000)
    <$> [0; 10; 20; 30; 40; 50; 60; 70; 80; 90; 100; 110]%Z.
Definition open_uptrend_b64 : list Qc :=
  (λ z, B64.literal z 1000)
    <$> [-1; 9; 19; 29; 39; 49; 59; 69; 79; 89; 99; 109]%Z.

(** [window_b64] as a permutation leaves it: the last bar's low and close
    are one unit in the last place lower. *)
Definition window_rebuilt_b64 : bars :=
  {| open := [B64.literal 4 10; B64.literal 4 10; B64.literal 4 10];
     high := [B64.literal 4 10; B64.literal 4 10; B64.literal 4 10];
     low := [B64.literal 4 10; B64.literal 4 10;
             Q2Qc (900719925474099 # 9007199254740992)];
     close := [B64.literal 4 10; B64.literal 4 10;
               Q2Qc (900719925474099 # 9007199254740992)] |}.

(** The four arrays of a series, the rationals as fractions in lowest
    terms. *)
Definition bars_fields (b : bars) : list Q * list Q * list Q * list Q :=
  (this <$> open b, this <$> high b, this <$> low b, this <$> close b).

(** * Properties *)

(** ** The generator *)

Section generator.
Import Rng.

Lemma RAND32M_range st : (0 ≤ fst (RAND32M st) ≤ 4294967295)%Z.
Proof.
  unfold RAND32M; cbn [fst].
  change 4294967295%Z with (Z.ones 32).
  rewrite Z.land_ones by lia.
  match goal with |- (_ ≤ ?t mod _ ≤ _)%Z =>
    pose proof (Z.mod_pos_bound t (2 ^ 32) ltac:(lia)) end.
  change (Z.ones 32) with (2 ^ 32 - 1)%Z. lia.
Qed.

Lemma unifrand_RAND32M st :
  unifrand st =
  ((1 / Qc_of_Z 4294967295 * Qc_of_Z (fst (RAND32M st)))%Qc, snd (RAND32M st)).
Proof. unfold unifrand. by destruct (RAND32M st). Qed.

Lemma Qc_of_Z_max_pos : (0 < Qc_of_Z 4294967295)%Qc.
Proof. rewrite <-Z2Qc_inj_0. by apply Z2Qc_inj_lt. Qed.

Lemma unifrand_quotient st :
  fst (unifrand st) = (Qc_of_Z (fst (RAND32M st)) / Qc_of_Z 4294967295)%Qc.
Proof.
  rewrite unifrand_RAND32M; cbn [fst].
  pose proof Qc_of_Z_max_pos as Hpos. apply Qclt_not_eq in Hpos.
  field. congruence.
Qed.

Lemma unifrand_times_max st :
  (fst (unifrand st) * Qc_of_Z 4294967295)%Qc = Qc_of_Z (fst (RAND32M st)).
Proof.
  rewrite unifrand_quotient.
  pose proof Qc_of_Z_max_pos as Hpos. apply Qclt_not_eq in Hpos.
  field. congruence.
Qed.

Lemma unifrand_nonneg st : (0 ≤ fst (unifrand st))%Qc.
Proof.
  apply (Qcmult_le_mono_pos_r _ _ _ Qc_of_Z_max_pos).
  rewrite unifrand_times_max, Qcmult_0_l, <-Z2Qc_inj_0.
  apply (proj1 (Z2Qc_inj_le _ _)), (RAND32M_range st).
Qed.

Lemma unifrand_le_1 st : (fst (unifrand st) ≤ 1)%Qc.
Proof.
  apply (Qcmult_le_mono_pos_r _ _ _ Qc_of_Z_max_pos).
  rewrite unifrand_times_max, Qcmult_1_l.
  apply (proj1 (Z2Qc_inj_le _ _)), (RAND32M_range st).
Qed.

(** C6, as the code has it: [unifrand] returns [RAND32M() / (2^32 - 1)], a
    value of the closed interval [0, 1]; it is 1 exactly when [RAND32M]
    returns [2^32 - 1]. *)
Theorem unifrand_closed_unit_interval st :
  fst (unifrand st) = (Qc_of_Z (fst (RAND32M st)) / Qc_of_Z 4294967295)%Qc
  ∧ (0 ≤ fst (unifrand st))%Qc
  ∧ (fst (unifrand st) ≤ 1)%Qc
  ∧ (fst (unifrand st) = 1%Qc ↔ fst (RAND32M st) = 4294967295%Z).
Proof.
  split; [apply unifrand_quotient|].
  split; [apply unifrand_nonneg|].
  split; [apply unifrand_le_1|].
  split.
  - intros H1. apply Z2Qc_inj. rewrite <-unifrand_times_max, H1.
    apply Qcmult_1_l.
  - intros Hr.
    pose proof (unifrand_times_max st) as Ht. rewrite Hr in Ht.
    rewrite <-(Qcmult_1_l (Qc_of_Z 4294967295)) in Ht at 2.
    pose proof Qc_of_Z_max_pos as Hpos.
    apply (anti_symm Qcle).
    + apply unifrand_le_1.
    + apply (Qcmult_le_mono_pos_r _ _ _ Hpos). by rewrite Ht.
Qed.

(** C6, counterexample: seeded with 30688223, the second call of [RAND32M]
    returns [2^32 - 1], and [unifrand] at that call is not below 1. *)
Lemma unifrand_returns_one :
  let st := snd (RAND32M (RAND32M_seed 30688223 initial)) in
  fst (RAND32M st) = 4294967295%Z ∧ ¬ (fst (unifrand st) < 1)%Qc.
Proof.
  cbv zeta.
  assert (fst (RAND32M (snd (RAND32M (RAND32M_seed 30688223 initial))))
          = 4294967295%Z) as Hr by (vm_compute; reflexivity).
  split; [exact Hr|].
  apply Qcle_not_lt.
  apply (Qcmult_le_mono_pos_r _ _ _ Qc_of_Z_max_pos).
  rewrite unifrand_times_max, Hr, Qcmult_1_l. reflexivity.
Qed.

(** Seeding makes the old contents of the table irrelevant: the first call
    after [RAND32M_seed] overwrites all 256 words. *)
Lemma fill_table_overwrites n : ∀ k j (q1 q2 : list Z),
  length q1 = length q2 →
  (∀ i, i < k ∨ k + n ≤ i → q1 !! i = q2 !! i) →
  fill_table n k j q1 = fill_table n k j q2.
Proof.
  induction n as [|n IH]; intros k j q1 q2 Hlen Hout; cbn [fill_table].
  - apply list_eq; intros i. apply Hout. lia.
  - apply IH.
    + by rewrite !length_insert.
    + intros i Hi. destruct (decide (i = k)) as [->|Hne].
      * destruct (decide (k < length q1)) as [Hk|Hk].
        -- rewrite !list_lookup_insert_eq; [done | lia | lia].
        -- rewrite !list_insert_ge by lia. rewrite !lookup_ge_None_2; [done | lia | lia].
      * rewrite !list_lookup_insert_ne by done. apply Hout. lia.
Qed.

Lemma ensure_initialized_seed s st1 st2 :
  length (Qtab st1) = 256 → length (Qtab st2) = 256 →
  carry st1 = carry st2 → RAND32M_i st1 = RAND32M_i st2 →
  ensure_initialized (RAND32M_seed s st1) = ensure_initialized (RAND32M_seed s st2).
Proof.
  intros H1 H2 Hc Hi. unfold ensure_initialized, RAND32M_seed.
  cbn [MWC256_initialized Qtab carry MWC256_seed RAND32M_i].
  rewrite Hc, Hi. f_equal.
  apply fill_table_overwrites; [lia|].
  intros i [Hlt|Hge]; [lia|].
  rewrite !lookup_ge_None_2; [done | lia | lia].
Qed.

(** What does hold of seeding: two streams seeded alike at the same carry
    and index (as two fresh streams are) give the same outputs. *)
Lemma draws_seed_same_carry_index n s st1 st2 :
  length (Qtab st1) = 256 → length (Qtab st2) = 256 →
  carry st1 = carry st2 → RAND32M_i st1 = RAND32M_i st2 →
  fst (draws n (RAND32M_seed s st1)) = fst (draws n (RAND32M_seed s st2)).
Proof.
  intros H1 H2 Hc Hi. destruct n as [|n]; [done|].
  cbn [draws]. unfold RAND32M.
  by rewrite (ensure_initialized_seed s st1 st2).
Qed.

(** C5, at the failing input: one call of [RAND32M], then
    [RAND32M_seed (123456789)].  A fresh stream with that seed starts
    3894166764, 1524314850, ...; the reseeded one starts 1524314850,
    749932902, ...: [RAND32M_seed] refills the table on the next call but
    leaves [carry] and the index [i] where the earlier call left them, so the
    stream goes on from its second output. *)
Theorem RAND32M_seed_after_draw_differs :
  let fresh := RAND32M_seed 123456789 initial in
  let reseeded := RAND32M_seed 123456789 (snd (RAND32M fresh)) in
  fst (draws 2 fresh) = [3894166764; 1524314850]%Z
  ∧ fst (draws 2 reseeded) = [1524314850; 749932902]%Z
  ∧ carry fresh = 362436%Z ∧ RAND32M_i fresh = 255%Z
  ∧ carry reseeded = carry (snd (RAND32M fresh)) ∧ RAND32M_i reseeded = 0%Z.
Proof. vm_compute. repeat split; reflexivity. Qed.

End generator.

(** ** Arrays *)

Section arrays.
Context {A : Type} `{!Inhabited A}.
Implicit Types l : list A.

Lemma swap_length i j (a : list A) : length (swap i j a) = length a.
Proof. unfold swap. by rewrite !length_insert. Qed.

Lemma swap_lookup i j k (a : list A) :
  i < length a → j < length a → swap i j a !! k = a !! transp i j k.
Proof.
  intros Hi Hj. unfold swap, transp.
  destruct (decide (k = j)) as [->|Hkj].
  - rewrite list_lookup_insert_eq by (by rewrite length_insert).
    by rewrite list_lookup_lookup_total_lt.
  - rewrite list_lookup_insert_ne by done.
    destruct (decide (k = i)) as [->|Hki].
    + rewrite list_lookup_insert_eq by done.
      by rewrite list_lookup_lookup_total_lt.
    + by rewrite list_lookup_insert_ne.
Qed.

Lemma swap_lookup_other i j k (a : list A) :
  k ≠ i → k ≠ j → swap i j a !! k = a !! k.
Proof. intros. unfold swap. by rewrite !list_lookup_insert_ne. Qed.

#[local] Instance transp_inj i j : Inj (=) (=) (transp i j).
Proof. intros x y. unfold transp. repeat case_decide; congruence. Qed.

Lemma swap_Permutation i j (a : list A) :
  i < length a → j < length a → swap i j a ≡ₚ a.
Proof.
  intros Hi Hj. apply Permutation_inj. split; [apply swap_length|].
  exists (transp i j). split; [apply _|].
  intros k. by apply swap_lookup.
Qed.

Lemma same_outside_refl a b l : same_outside a b l l.
Proof. by intros k _. Qed.

Lemma same_outside_trans a b l1 l2 l3 :
  same_outside a b l1 l2 → same_outside a b l2 l3 → same_outside a b l1 l3.
Proof. intros H12 H23 k Hk. by rewrite H12, H23. Qed.

Lemma same_outside_mono a b a' b' l' l :
  a' ≤ a → b ≤ b' → same_outside a b l' l → same_outside a' b' l' l.
Proof. intros Ha Hb Hs k Hk. apply Hs. lia. Qed.

Lemma shuffled_within_refl a b l : shuffled_within a b l l.
Proof. split; [done | apply same_outside_refl]. Qed.

Lemma shuffled_within_trans a b l1 l2 l3 :
  shuffled_within a b l1 l2 → shuffled_within a b l2 l3 →
  shuffled_within a b l1 l3.
Proof.
  intros [P12 S12] [P23 S23]. split; [by rewrite P12|].
  by apply same_outside_trans with l2.
Qed.

Lemma shuffled_within_mono a b a' b' l' l :
  a' ≤ a → b ≤ b' → shuffled_within a b l' l → shuffled_within a' b' l' l.
Proof. intros Ha Hb [HP HS]. split; [done|]. by apply same_outside_mono with a b. Qed.

Lemma shuffled_within_length a b l' l :
  shuffled_within a b l' l → length l' = length l.
Proof. intros [HP _]. by apply Permutation_length. Qed.

Lemma swap_shuffled_within a b i j l :
  a ≤ i < b → a ≤ j < b → b ≤ length l →
  shuffled_within a b (swap i j l) l.
Proof.
  intros Hi Hj Hb. split.
  - apply swap_Permutation; lia.
  - intros k Hk. apply swap_lookup_other; lia.
Qed.

(** Rearranging within a range rearranges the slice of that range. *)
Lemma shuffled_within_slice a b l' l :
  a ≤ b → shuffled_within a b l' l →
  take (b - a) (drop a l') ≡ₚ take (b - a) (drop a l).
Proof.
  intros Hab [HP HS].
  assert (∀ m : list A, m = take a m ++ take (b - a) (drop a m) ++ drop b m) as Hsplit.
  { intros m. rewrite <-(take_drop a m) at 1. f_equal.
    rewrite <-(take_drop (b - a) (drop a m)) at 1. f_equal.
    rewrite drop_drop. f_equal. lia. }
  assert (take a l' = take a l) as Ht.
  { apply list_eq; intros k. destruct (decide (k < a)).
    - rewrite !lookup_take_lt by done. apply HS. lia.
    - by rewrite !lookup_take_ge by lia. }
  assert (drop b l' = drop b l) as Hd.
  { apply list_eq; intros k. rewrite !lookup_drop. apply HS. lia. }
  rewrite (Hsplit l'), (Hsplit l), Ht, Hd in HP.
  apply (inj (take a l ++.)) in HP.
  by apply (inj (.++ drop b l)) in HP.
Qed.

End arrays.

(** ** The shuffling loops of [do_permute] *)

Lemma pick_lt i st : 0 < i → fst (pick i st) < i.
Proof.
  intros Hi. unfold pick. destruct (Rng.unifrand st) as [u st'].
  cbn [fst]. case_decide; lia.
Qed.

(** A property kept by every exchange the loop can make is kept by the
    loop: the exchange is called with [1 ≤ i < n] and [j ≤ i]. *)
Lemma shuffle_loop_invariant {T} (I : T → Prop) (exch : nat → nat → T → T) n :
  (∀ i j s, 1 ≤ i < n → j ≤ i → I s → I (exch i j s)) →
  ∀ m st s, m ≤ n → I s → I (fst (shuffle_loop exch m st s)).
Proof.
  intros Hstep m. induction m as [|m IH]; intros st s Hm HI;
    cbn [shuffle_loop]; [done|].
  case_decide as H1; [|done].
  pose proof (pick_lt (S m) st ltac:(lia)) as Hj.
  destruct (pick (S m) st) as [j st']. cbn [fst] in Hj.
  apply IH; [lia|]. apply Hstep; [lia | lia | done].
Qed.

Lemma triples_lookup r k :
  triples r !! k =
  (x ← rel_high r !! k; y ← rel_low r !! k; z ← rel_close r !! k; Some (x, (y, z))).
Proof.
  unfold triples. rewrite lookup_zip_with, lookup_zip_with.
  destruct (rel_high r !! k); [|done]. cbn.
  destruct (rel_low r !! k); [|done]. cbn.
  by destruct (rel_close r !! k).
Qed.

Lemma triples_length_ge n r :
  n ≤ length (rel_high r) → n ≤ length (rel_low r) → n ≤ length (rel_close r) →
  n ≤ length (triples r).
Proof.
  intros Hh Hl Hc. destruct n as [|n]; [lia|].
  apply lookup_lt_is_Some. rewrite triples_lookup.
  destruct (lookup_lt_is_Some_2 (rel_high r) n ltac:(lia)) as [x ->].
  destruct (lookup_lt_is_Some_2 (rel_low r) n ltac:(lia)) as [y ->].
  destruct (lookup_lt_is_Some_2 (rel_close r) n ltac:(lia)) as [z ->].
  by eexists.
Qed.

(** The three exchanges of the second loop are one exchange of tuples. *)
Lemma triples_exch_intrabar i j r :
  i < length (rel_high r) → i < length (rel_low r) → i < length (rel_close r) →
  j < length (rel_high r) → j < length (rel_low r) → j < length (rel_close r) →
  triples (exch_intrabar i j r) = swap i j (triples r).
Proof.
  intros. apply list_eq; intros k.
  rewrite swap_lookup by (apply (triples_length_ge (S _)); lia).
  rewrite !triples_lookup. cbn [exch_intrabar rel_high rel_low rel_close].
  by rewrite !swap_lookup.
Qed.

Lemma shuffle_open_loop p n r st :
  (1 < n → p + n ≤ length (rel_open r)) →
  open_loop_inv p (p + n) r (fst (shuffle_loop (exch_open p) n st r)).
Proof.
  intros Hlen.
  apply (shuffle_loop_invariant (open_loop_inv p (p + n) r) (exch_open p) n);
    [|done|].
  - intros i j s Hi Hj (Ho & Hh & Hl & Hc).
    split; [|done]. cbn [exch_open rel_open].
    eapply shuffled_within_trans; [|exact Ho].
    apply swap_shuffled_within; [lia | lia |].
    rewrite (shuffled_within_length _ _ _ _ Ho). apply Hlen. lia.
  - split; [apply shuffled_within_refl | done].
Qed.

Lemma shuffle_intrabar_loop n r st :
  (1 < n → n ≤ length (rel_high r) ∧ n ≤ length (rel_low r)
           ∧ n ≤ length (rel_close r)) →
  intrabar_loop_inv n r (fst (shuffle_loop exch_intrabar n st r)).
Proof.
  intros Hlen.
  apply (shuffle_loop_invariant (intrabar_loop_inv n r) exch_intrabar n);
    [|done|].
  - intros i j s Hi Hj (Ho & Sh & Sl & Sc & St).
    destruct Hlen as (Hh & Hl & Hc); [lia|].
    pose proof (shuffled_within_length _ _ _ _ Sh) as Lh.
    pose proof (shuffled_within_length _ _ _ _ Sl) as Ll.
    pose proof (shuffled_within_length _ _ _ _ Sc) as Lc.
    split; [done|].
    repeat split.
    1,3,5: (etrans; [|by apply Sh || by apply Sl || by apply Sc]).
    all: cbn [exch_intrabar rel_high rel_low rel_close].
    1-3: apply swap_Permutation; lia.
    1-3: (eapply same_outside_trans;
          [|by apply Sh || by apply Sl || by apply Sc]);
         intros k Hk; apply swap_lookup_other; lia.
    + rewrite triples_exch_intrabar by lia.
      etrans; [|apply St]. apply swap_Permutation.
      all: rewrite (shuffled_within_length _ _ _ _ St);
           apply (triples_length_ge (S _)); lia.
    + rewrite triples_exch_intrabar by lia.
      eapply same_outside_trans; [|apply St].
      intros k Hk; apply swap_lookup_other; lia.
  - split; [done|]. repeat split; (done || apply same_outside_refl).
Qed.

(** What the two loops do together; [p] is the normalised flag. *)
Lemma shuffle_spec nc flag r st :
  rels_hold (nc - 1) r →
  let p := normalize_flag flag in
  let n := nc - 1 - p in
  let r' := fst (shuffle nc flag r st) in
  shuffled_within p (p + n) (rel_open r') (rel_open r)
  ∧ shuffled_within 0 n (rel_high r') (rel_high r)
  ∧ shuffled_within 0 n (rel_low r') (rel_low r)
  ∧ shuffled_within 0 n (rel_close r') (rel_close r)
  ∧ shuffled_within 0 n (triples r') (triples r).
Proof.
  intros (Ho & Hh & Hl & Hc) p n. unfold shuffle. fold p. fold n.
  pose proof (shuffle_open_loop p n r st ltac:(lia)) as (So & Eh & El & Ec).
  destruct (shuffle_loop (exch_open p) n st r) as [r1 st1].
  cbn [fst] in So, Eh, El, Ec.
  pose proof (shuffle_intrabar_loop n r1 st1) as (Eo & Sh & Sl & Sc & St).
  { rewrite Eh, El, Ec. lia. }
  assert (triples r1 = triples r) as Et by (unfold triples; congruence).
  rewrite Eh in Sh. rewrite El in Sl. rewrite Ec in Sc. rewrite Et in St.
  cbv zeta. by rewrite Eo.
Qed.

(** C3: the shuffle step of [do_permute] only reorders each of the four
    arrays of relative moves: [rel_open] after the shuffle is a permutation
    of [rel_open] before it, and so are [rel_high], [rel_low] and
    [rel_close], whatever the flag and the state of the generator. *)
Theorem shuffle_preserves_multisets nc flag r st :
  rels_hold (nc - 1) r →
  rel_open (fst (shuffle nc flag r st)) ≡ₚ rel_open r
  ∧ rel_high (fst (shuffle nc flag r st)) ≡ₚ rel_high r
  ∧ rel_low (fst (shuffle nc flag r st)) ≡ₚ rel_low r
  ∧ rel_close (fst (shuffle nc flag r st)) ≡ₚ rel_close r.
Proof.
  intros Hr.
  destruct (shuffle_spec nc flag r st Hr) as ([? _] & [? _] & [? _] & [? _] & _).
  done.
Qed.

Lemma shuffle_preserves_multisets_witness :
  rels_hold (4 - 1) moves_example
  ∧ rel_open (fst (shuffle 4 1 moves_example Rng.initial)) ≡ₚ rel_open moves_example.
Proof.
  assert (rels_hold (4 - 1) moves_example) as H
    by (unfold rels_hold; cbn; lia).
  split; [exact H|].
  exact (proj1 (shuffle_preserves_multisets 4 1 moves_example Rng.initial H)).
Defined.

(** C8, as the code has it: with [preserve_OO] set, [rel_open\[0\]] stays in
    place and [rel_open] is rearranged over indices 1 .. nc-2 only; the
    intrabar moves are rearranged as whole (rel_high, rel_low, rel_close)
    tuples over indices 0 .. nc-3 only, and the tuple at index nc-2 (the
    last bar's) stays in place. *)
Theorem shuffle_preserve_OO_ranges nc flag r st :
  flag ≠ 0%Z → rels_hold (nc - 1) r →
  let r' := fst (shuffle nc flag r st) in
  rel_open r' !! 0 = rel_open r !! 0
  ∧ take (nc - 2) (drop 1 (rel_open r')) ≡ₚ take (nc - 2) (drop 1 (rel_open r))
  ∧ (∀ k, nc - 1 ≤ k → rel_open r' !! k = rel_open r !! k)
  ∧ take (nc - 2) (triples r') ≡ₚ take (nc - 2) (triples r)
  ∧ (∀ k, nc - 2 ≤ k →
       rel_high r' !! k = rel_high r !! k
       ∧ rel_low r' !! k = rel_low r !! k
       ∧ rel_close r' !! k = rel_close r !! k).
Proof.
  intros Hflag Hr r'.
  pose proof (shuffle_spec nc flag r st Hr) as (So & Sh & Sl & Sc & St).
  unfold normalize_flag in *. rewrite decide_False in * by done.
  fold r' in So, Sh, Sl, Sc, St.
  replace (nc - 1 - 1) with (nc - 2) in * by lia.
  split; [apply So; lia|].
  split.
  { pose proof (shuffled_within_slice 1 (1 + (nc - 2)) _ _ ltac:(lia) So) as HP.
    by replace (1 + (nc - 2) - 1) with (nc - 2) in HP by lia. }
  split; [intros k Hk; apply So; lia|].
  split.
  { pose proof (shuffled_within_slice 0 (nc - 2) _ _ ltac:(lia) St) as HP.
    by rewrite Nat.sub_0_r in HP. }
  intros k Hk. repeat split; [apply Sh | apply Sl | apply Sc]; lia.
Qed.

Lemma shuffle_preserve_OO_ranges_witness :
  (1 ≠ 0)%Z ∧ rels_hold (4 - 1) moves_example
  ∧ rel_open (fst (shuffle 4 1 moves_example Rng.initial)) !! 0
    = rel_open moves_example !! 0.
Proof.
  assert (rels_hold (4 - 1) moves_example) as H
    by (unfold rels_hold; cbn; lia).
  split; [lia|]. split; [exact H|].
  exact (proj1 (shuffle_preserve_OO_ranges 4 1 moves_example Rng.initial
                  ltac:(lia) H)).
Defined.

(** C8, counterexample: in a window of four bars the shuffle does move
    intrabar tuples (from the initial generator state the tuple of index 1
    comes to index 0), but the tuple at index nc-2 = 2 is the same after the
    shuffle as before it for every state of the generator: an index of the
    range 0 .. nc-2 is held fixed. *)
Lemma shuffle_last_tuple_fixed :
  triples (fst (shuffle 4 1 moves_example Rng.initial)) !! 0
  = triples moves_example !! 1
  ∧ triples moves_example !! 1 ≠ triples moves_example !! 0
  ∧ ∃ k, k ≤ 4 - 2
      ∧ triples moves_example !! k
        = Some (Qc_of_Z 30, (Qc_of_Z (-30), Qc_of_Z 6))
      ∧ ∀ st, triples (fst (shuffle 4 1 moves_example st)) !! k
              = triples moves_example !! k.
Proof.
  split; [vm_compute; reflexivity|].
  split; [vm_compute; intros [= H]|].
  exists 2. split; [lia|]. split; [reflexivity|].
  intros st.
  assert (rels_hold (4 - 1) moves_example) as H
    by (unfold rels_hold; cbn; lia).
  pose proof (shuffle_spec 4 1 moves_example st H) as (_ & _ & _ & _ & [_ St]).
  apply St. right. unfold normalize_flag. rewrite decide_False by done.
  cbn. lia.
Qed.

(** ** [prepare_permute] *)

Lemma fill_from_lookup f n : ∀ icase a k,
  1 ≤ icase → icase - 1 + n ≤ length a →
  fill_from f n icase a !! k =
  if decide (icase - 1 ≤ k < icase - 1 + n) then Some (f (S k)) else a !! k.
Proof.
  induction n as [|n IH]; intros icase a k Hi Hlen; cbn [fill_from].
  - rewrite decide_False by lia. done.
  - rewrite IH by (rewrite ?length_insert; lia).
    destruct (decide (k = icase - 1)) as [->|Hne].
    + rewrite decide_False by lia. rewrite decide_True by lia.
      rewrite list_lookup_insert_eq by lia. do 2 f_equal. lia.
    + rewrite list_lookup_insert_ne by done.
      destruct (decide (icase - 1 ≤ k < icase - 1 + S n)).
      * rewrite decide_True by lia. done.
      * rewrite decide_False by lia. done.
Qed.

Lemma fill_from_length f n : ∀ icase a, length (fill_from f n icase a) = length a.
Proof.
  induction n as [|n IH]; intros icase a; cbn [fill_from]; [done|].
  by rewrite IH, length_insert.
Qed.

Lemma prepare_loop_fields n : ∀ icase b r,
  prepare_loop n icase b r =
  {| rel_open := fill_from (λ i, rd (open b) i - rd (close b) (i - 1))%Qc n icase (rel_open r);
     rel_high := fill_from (λ i, rd (high b) i - rd (open b) i)%Qc n icase (rel_high r);
     rel_low := fill_from (λ i, rd (low b) i - rd (open b) i)%Qc n icase (rel_low r);
     rel_close := fill_from (λ i, rd (close b) i - rd (open b) i)%Qc n icase (rel_close r) |}.
Proof.
  induction n as [|n IH]; intros icase b r; cbn [prepare_loop fill_from].
  - by destruct r.
  - by rewrite IH.
Qed.

(** What [prepare_permute] leaves in the work arrays. *)
Lemma prepare_permute_spec nc b r k :
  rels_hold (nc - 1) r → k < nc - 1 →
  let r' := prepare_permute nc b r in
  rel_open r' !! k = Some (rd (open b) (S k) - rd (close b) k)%Qc
  ∧ rel_high r' !! k = Some (rd (high b) (S k) - rd (open b) (S k))%Qc
  ∧ rel_low r' !! k = Some (rd (low b) (S k) - rd (open b) (S k))%Qc
  ∧ rel_close r' !! k = Some (rd (close b) (S k) - rd (open b) (S k))%Qc.
Proof.
  intros (Ho & Hh & Hl & Hc) Hk. unfold prepare_permute.
  rewrite prepare_loop_fields. cbn [rel_open rel_high rel_low rel_close].
  rewrite !fill_from_lookup by (cbn; lia).
  rewrite !decide_True by (cbn; lia).
  cbn. by rewrite Nat.sub_0_r.
Qed.

Lemma prepare_permute_hold nc b r n :
  rels_hold n r → rels_hold n (prepare_permute nc b r).
Proof.
  unfold rels_hold, prepare_permute. rewrite prepare_loop_fields.
  cbn [rel_open rel_high rel_low rel_close]. by rewrite !fill_from_length.
Qed.

(** ** The rebuilding loop of [do_permute] *)

Lemma rd_lookup (a : list Qc) k x : a !! k = Some x → rd a k = x.
Proof. apply list_lookup_total_correct. Qed.

Lemma rd_same (a a' : list Qc) k : a' !! k = a !! k → rd a' k = rd a k.
Proof. unfold rd. rewrite !list_lookup_total_alt. by intros ->. Qed.

Lemma rd_insert_eq (a : list Qc) k x : k < length a → rd (<[k := x]> a) k = x.
Proof. apply list_lookup_total_insert_eq. Qed.

Lemma rd_insert_ne (a : list Qc) i k x : i ≠ k → rd (<[i := x]> a) k = rd a k.
Proof. apply list_lookup_total_insert_ne. Qed.

(** The loop writes bars [icase .. icase+n-1] and nothing else; each bar it
    writes is the close before it plus the moves stored one index lower. *)
Lemma rebuild_loop_spec r n : ∀ icase b,
  1 ≤ icase → bars_hold (icase + n) b →
  let b' := rebuild_loop n icase r b in
  (length (open b') = length (open b) ∧ length (high b') = length (high b)
   ∧ length (low b') = length (low b) ∧ length (close b') = length (close b))
  ∧ (same_outside icase (icase + n) (open b') (open b)
     ∧ same_outside icase (icase + n) (high b') (high b)
     ∧ same_outside icase (icase + n) (low b') (low b)
     ∧ same_outside icase (icase + n) (close b') (close b))
  ∧ ∀ k, icase ≤ k < icase + n →
      rd (open b') k = (rd (close b') (k - 1) + rd (rel_open r) (k - 1))%Qc
      ∧ rd (high b') k = (rd (open b') k + rd (rel_high r) (k - 1))%Qc
      ∧ rd (low b') k = (rd (open b') k + rd (rel_low r) (k - 1))%Qc
      ∧ rd (close b') k = (rd (open b') k + rd (rel_close r) (k - 1))%Qc.
Proof.
  induction n as [|n IH]; intros icase b Hi (Ho & Hh & Hl & Hc);
    cbn [rebuild_loop].
  - cbv zeta. split; [done|]. split; [|intros k Hk; lia].
    repeat split; apply same_outside_refl.
  - set (o := (rd (close b) (icase - 1) + rd (rel_open r) (icase - 1))%Qc).
    rewrite !rd_insert_eq by lia.
    set (b1 := {| open := <[icase:=o]> (open b);
                  high := <[icase:=(o + rd (rel_high r) (icase - 1))%Qc]> (high b);
                  low := <[icase:=(o + rd (rel_low r) (icase - 1))%Qc]> (low b);
                  close := <[icase:=(o + rd (rel_close r) (icase - 1))%Qc]> (close b) |}).
    destruct (IH (S icase) b1) as ((Lo & Lh & Ll & Lc) & (So & Sh & Sl & Sc) & Hrel).
    { lia. }
    { unfold bars_hold, b1; cbn [open high low close].
      rewrite !length_insert. lia. }
    cbv zeta in *.
    set (b' := rebuild_loop n (S icase) r b1) in *.
    unfold b1 in Lo, Lh, Ll, Lc; cbn [open high low close] in Lo, Lh, Ll, Lc.
    rewrite length_insert in Lo, Lh, Ll, Lc.
    split; [done|].
    assert (∀ (a a1 a' : list Qc) x, a1 = <[icase := x]> a →
              same_outside (S icase) (S icase + n) a' a1 →
              same_outside icase (icase + S n) a' a) as Hout.
    { intros a a1 a' x -> Hs k Hk. rewrite Hs by lia.
      apply list_lookup_insert_ne. lia. }
    split.
    { repeat split.
      - exact (Hout (open b) (open b1) _ _ eq_refl So).
      - exact (Hout (high b) (high b1) _ _ eq_refl Sh).
      - exact (Hout (low b) (low b1) _ _ eq_refl Sl).
      - exact (Hout (close b) (close b1) _ _ eq_refl Sc). }
    intros k Hk. destruct (decide (k = icase)) as [->|Hne].
    + rewrite (rd_same _ _ _ (So icase ltac:(lia))).
      rewrite (rd_same _ _ _ (Sh icase ltac:(lia))).
      rewrite (rd_same _ _ _ (Sl icase ltac:(lia))).
      rewrite (rd_same _ _ _ (Sc icase ltac:(lia))).
      rewrite (rd_same _ _ _ (Sc (icase - 1) ltac:(lia))).
      unfold b1; cbn [open high low close].
      rewrite !rd_insert_eq by lia.
      rewrite rd_insert_ne by lia. done.
    + apply Hrel. lia.
Qed.

Lemma rebuild_spec nc r b :
  1 ≤ nc → bars_hold nc b →
  let b' := rebuild nc r b in
  bars_hold nc b'
  ∧ (open b' !! 0 = open b !! 0 ∧ high b' !! 0 = high b !! 0
     ∧ low b' !! 0 = low b !! 0 ∧ close b' !! 0 = close b !! 0)
  ∧ ∀ k, 1 ≤ k < nc →
      rd (open b') k = (rd (close b') (k - 1) + rd (rel_open r) (k - 1))%Qc
      ∧ rd (high b') k = (rd (open b') k + rd (rel_high r) (k - 1))%Qc
      ∧ rd (low b') k = (rd (open b') k + rd (rel_low r) (k - 1))%Qc
      ∧ rd (close b') k = (rd (open b') k + rd (rel_close r) (k - 1))%Qc.
Proof.
  intros Hnc Hb. unfold rebuild.
  destruct (rebuild_loop_spec r (nc - 1) 1 b) as ((Lo & Lh & Ll & Lc) & (So & Sh & Sl & Sc) & Hrel).
  { lia. }
  { destruct Hb as (? & ? & ? & ?). unfold bars_hold. lia. }
  cbv zeta in *.
  split.
  { destruct Hb as (? & ? & ? & ?). unfold bars_hold. lia. }
  split.
  { repeat split; [apply So | apply Sh | apply Sl | apply Sc]; lia. }
  intros k Hk. apply Hrel. lia.
Qed.

(** ** Repeated permutation *)

Lemma Qc_sub_nonpos (x y : Qc) : (x ≤ y → x - y ≤ 0)%Qc.
Proof.
  intros Hxy. replace 0%Qc with (y - y)%Qc by ring.
  unfold Qcminus. by apply Qcplus_le_mono_r.
Qed.

Lemma Qc_sub_nonneg (x y : Qc) : (y ≤ x → 0 ≤ x - y)%Qc.
Proof.
  intros Hxy. replace 0%Qc with (y - y)%Qc by ring.
  unfold Qcminus. by apply Qcplus_le_mono_r.
Qed.

Lemma Qc_sub_le_sub (x y z : Qc) : (x ≤ y → x - z ≤ y - z)%Qc.
Proof. intros Hxy. unfold Qcminus. by apply Qcplus_le_mono_r. Qed.

Lemma Qc_add_nonpos (x d : Qc) : (d ≤ 0 → x + d ≤ x)%Qc.
Proof.
  intros Hd. rewrite <-(Qcplus_0_r x) at 2. by apply Qcplus_le_mono_l.
Qed.

Lemma Qc_add_nonneg (x d : Qc) : (0 ≤ d → x ≤ x + d)%Qc.
Proof.
  intros Hd. rewrite <-(Qcplus_0_r x) at 1. by apply Qcplus_le_mono_l.
Qed.

Lemma prepare_permute_consistent nc b work :
  rels_hold (nc - 1) work → consistent nc b (prepare_permute nc b work).
Proof.
  intros Hw k Hk.
  destruct (prepare_permute_spec nc b work (k - 1) Hw ltac:(lia))
    as (Eo & Eh & El & Ec).
  replace (S (k - 1)) with k in * by lia.
  rewrite (rd_lookup _ _ _ Eo), (rd_lookup _ _ _ Eh),
    (rd_lookup _ _ _ El), (rd_lookup _ _ _ Ec).
  repeat split; ring.
Qed.

Lemma do_permute_unfold nc flag b r st :
  do_permute nc flag b r st =
  (rebuild nc (fst (shuffle nc flag r st)) b, fst (shuffle nc flag r st),
   snd (shuffle nc flag r st)).
Proof. unfold do_permute. by destruct (shuffle nc flag r st). Qed.

Lemma normalize_flag_le_1 flag : normalize_flag flag ≤ 1.
Proof. unfold normalize_flag. case_decide; lia. Qed.

(** One call of [do_permute] keeps [cycle_inv]. *)
Lemma do_permute_cycle_inv nc flag b0 r0 b r st :
  2 ≤ nc → cycle_inv nc b0 r0 b r →
  cycle_inv nc b0 r0 (do_permute nc flag b r st).1.1 (do_permute nc flag b r st).1.2.
Proof.
  intros Hnc (Hb & Hr & Po & Pc & Pt & (Bo & Bh & Bl & Bc) & _).
  rewrite do_permute_unfold. cbn [fst snd].
  pose proof (normalize_flag_le_1 flag) as Hp.
  pose proof (shuffle_spec nc flag r st Hr) as (So & Sh & Sl & Sc & St).
  cbv zeta in So, Sh, Sl, Sc, St.
  set (r' := (shuffle nc flag r st).1) in *.
  set (p := normalize_flag flag) in *.
  destruct (rebuild_spec nc r' b ltac:(lia) Hb) as (Hb' & (Ro & Rh & Rl & Rc) & Hcons).
  cbv zeta in Hb', Ro, Rh, Rl, Rc, Hcons.
  assert (∀ (A : Type) a n (l' l : list A), a + n ≤ nc - 1 →
            shuffled_within a (a + n) l' l → take (nc - 1) l' ≡ₚ take (nc - 1) l)
    as Hslice.
  { intros A a n l' l Hn Hs.
    apply (shuffled_within_mono _ _ 0 (nc - 1)) in Hs; [|lia..].
    apply shuffled_within_slice in Hs; [|lia].
    by rewrite Nat.sub_0_r in Hs. }
  split; [done|].
  split.
  { destruct Hr as (? & ? & ? & ?). unfold rels_hold.
    rewrite (shuffled_within_length _ _ _ _ So), (shuffled_within_length _ _ _ _ Sh),
      (shuffled_within_length _ _ _ _ Sl), (shuffled_within_length _ _ _ _ Sc).
    done. }
  split; [rewrite <-Po; apply (Hslice _ p (nc - 1 - p)); [lia | done]|].
  split; [rewrite <-Pc; apply (Hslice _ 0 (nc - 1 - p)); [lia | done]|].
  split; [rewrite <-Pt; apply (Hslice _ 0 (nc - 1 - p)); [lia | done]|].
  split; [by rewrite Ro, Rh, Rl, Rc|].
  exact Hcons.
Qed.

Lemma permute_cycles_cycle_inv n : ∀ nc flag b0 r0 b r st,
  2 ≤ nc → cycle_inv nc b0 r0 b r →
  cycle_inv nc b0 r0 (permute_cycles n nc flag b r st).1.1
    (permute_cycles n nc flag b r st).1.2.
Proof.
  induction n as [|n IH]; intros nc flag b0 r0 b r st Hnc Hinv;
    cbn [permute_cycles]; [done|].
  pose proof (do_permute_cycle_inv nc flag b0 r0 b r st Hnc Hinv) as Hstep.
  destruct (do_permute nc flag b r st) as [[b' r'] st']. cbn [fst snd] in Hstep.
  by apply IH.
Qed.

Lemma cycle_inv_start nc b work :
  bars_hold nc b → rels_hold (nc - 1) work →
  cycle_inv nc b (prepare_permute nc b work) b (prepare_permute nc b work).
Proof.
  intros Hb Hw. split; [done|].
  split; [by apply prepare_permute_hold|].
  do 3 (split; [done|]). split; [done|].
  by apply prepare_permute_consistent.
Qed.

(** With at most one bar there is nothing to rebuild. *)
Lemma permute_cycles_short n : ∀ nc flag b r st,
  nc ≤ 1 → (permute_cycles n nc flag b r st).1.1 = b.
Proof.
  induction n as [|n IH]; intros nc flag b r st Hnc; cbn [permute_cycles];
    [done|].
  rewrite do_permute_unfold. rewrite IH by done.
  unfold rebuild. by replace (nc - 1) with 0 by lia.
Qed.

Lemma triples_lookup_rd r k :
  k < length (rel_high r) → k < length (rel_low r) → k < length (rel_close r) →
  triples r !! k
  = Some (rd (rel_high r) k, (rd (rel_low r) k, rd (rel_close r) k)).
Proof.
  intros Hh Hl Hc. rewrite triples_lookup. unfold rd.
  by rewrite !list_lookup_lookup_total_lt.
Qed.

Lemma prepare_permute_valid_triples nc b work :
  rels_hold (nc - 1) work → (∀ k, k < nc → valid_bar b k) →
  Forall valid_triple (take (nc - 1) (triples (prepare_permute nc b work))).
Proof.
  intros Hw Hvalid. apply Forall_lookup; intros i t Hi.
  apply lookup_take_Some in Hi as [Hi Hlt].
  destruct (prepare_permute_spec nc b work i Hw Hlt) as (_ & Eh & El & Ec).
  rewrite triples_lookup, Eh, El, Ec in Hi. cbn in Hi.
  injection Hi as <-.
  destruct (Hvalid (S i) ltac:(lia)) as (Hlo & Hlc & Hoh & Hch).
  cbn. repeat split.
  - by apply Qc_sub_nonpos.
  - by apply Qc_sub_le_sub.
  - by apply Qc_sub_nonneg.
  - by apply Qc_sub_le_sub.
Qed.

(** A consistent window whose intrabar tuples are valid has valid bars. *)
Lemma consistent_valid nc b r k :
  consistent nc b r → rels_hold (nc - 1) r →
  Forall valid_triple (take (nc - 1) (triples r)) →
  1 ≤ k < nc → valid_bar b k.
Proof.
  intros Hcons (_ & Lh & Ll & Lc) Hall Hk.
  assert (valid_triple (rd (rel_high r) (k - 1),
                        (rd (rel_low r) (k - 1), rd (rel_close r) (k - 1))))
    as (Hl0 & Hlc & Hh0 & Hch).
  { apply (Forall_lookup_1 _ _ (k - 1) _ Hall).
    rewrite lookup_take_lt by lia. apply triples_lookup_rd; lia. }
  destruct (Hcons k Hk) as (_ & Eh & El & Ec).
  unfold valid_bar. rewrite Eh, El, Ec. repeat split.
  - by apply Qc_add_nonpos.
  - by apply Qcplus_le_mono_l.
  - by apply Qc_add_nonneg.
  - by apply Qcplus_le_mono_l.
Qed.

(** C10: if every bar of the window satisfies low <= open, low <= close,
    open <= high and close <= high, so does every bar after
    [prepare_permute] and any number of [do_permute] calls. *)
Theorem permutation_keeps_bars_valid n nc flag b work st :
  bars_hold nc b → rels_hold (nc - 1) work →
  (∀ k, k < nc → valid_bar b k) →
  ∀ k, k < nc →
    valid_bar (permute_cycles n nc flag b (prepare_permute nc b work) st).1.1 k.
Proof.
  intros Hb Hw Hvalid k Hk.
  destruct (decide (nc ≤ 1)) as [Hshort|Hnc].
  { rewrite permute_cycles_short by done. by apply Hvalid. }
  set (r0 := prepare_permute nc b work).
  pose proof (permute_cycles_cycle_inv n nc flag b r0 b r0 st ltac:(lia)
                (cycle_inv_start nc b work Hb Hw)) as Hinv.
  set (b' := (permute_cycles n nc flag b r0 st).1.1) in *.
  set (r' := (permute_cycles n nc flag b r0 st).1.2) in *.
  destruct Hinv as (Hb' & Hr' & _ & _ & Pt & (Bo & Bh & Bl & Bc) & Hcons).
  destruct (decide (k = 0)) as [->|Hk0].
  - unfold valid_bar.
    rewrite (rd_same _ _ _ Bo), (rd_same _ _ _ Bh), (rd_same _ _ _ Bl),
      (rd_same _ _ _ Bc).
    by apply Hvalid.
  - apply (consistent_valid nc b' r'); [done | done | | lia].
    rewrite Pt. by apply prepare_permute_valid_triples.
Qed.

Lemma window_example_valid k : k < 4 → valid_bar window_example k.
Proof.
  intros Hk.
  destruct k as [|[|[|[|k]]]]; [| | | |lia];
    vm_compute; repeat split; discriminate.
Qed.

Lemma permutation_keeps_bars_valid_witness :
  bars_hold 4 window_example ∧ rels_hold (4 - 1) work_example
  ∧ (∀ k, k < 4 → valid_bar window_example k)
  ∧ valid_bar (permute_cycles 3 4 1 window_example
                 (prepare_permute 4 window_example work_example) Rng.initial).1.1 2.
Proof.
  assert (bars_hold 4 window_example) as Hb by (unfold bars_hold; cbn; lia).
  assert (rels_hold (4 - 1) work_example) as Hw by (unfold rels_hold; cbn; lia).
  split; [exact Hb|]. split; [exact Hw|].
  split; [exact window_example_valid|].
  exact (permutation_keeps_bars_valid 3 4 1 window_example work_example
           Rng.initial Hb Hw window_example_valid 2 ltac:(lia)).
Defined.

(** ** The optimiser *)

Section optimiser.
Context (ncases lookback : nat) (open close : list Qc).

Lemma signal_spec rt dt i :
  signal lookback close rt dt i =
  bool_decide ((rt ≤ rd close i - rd close (i - lookback))%Qc
               ∧ (dt ≤ rd close (i - 1) - rd close i)%Qc).
Proof.
  unfold signal. apply eq_true_iff_eq.
  rewrite andb_true_iff, !bool_decide_eq_true. done.
Qed.

(** The performance loop adds the realized returns of its indices to
    [total_return] and their number of signals to [nl]. *)
Lemma perf_loop_spec rt dt n : ∀ i total nl,
  perf_loop n i lookback open close rt dt total nl =
  ((total + sumQc (spec_realized lookback open close rt dt <$> seq i n))%Qc,
   nl + length (filter (λ i, (rt ≤ rd close i - rd close (i - lookback))%Qc
                             ∧ (dt ≤ rd close (i - 1) - rd close i)%Qc)
                  (seq i n))).
Proof.
  induction n as [|n IH]; intros i total nl; cbn [perf_loop seq].
  - rewrite fmap_nil, filter_nil. unfold sumQc; cbn [foldr length].
    f_equal; [ring | lia].
  - rewrite signal_spec, fmap_cons, filter_cons.
    change (sumQc (?x :: ?l)) with (x + sumQc l)%Qc.
    unfold spec_realized at 1.
    destruct (decide _) as [Hs|Hs].
    + rewrite bool_decide_eq_true_2 by done. rewrite IH.
      f_equal; [ring | cbn [length]; lia].
    + rewrite bool_decide_eq_false_2 by done. rewrite IH.
      f_equal; ring.
Qed.

Lemma trial_step_spec acc p :
  trial_step ncases lookback open close acc p =
  if bool_decide (best_perf acc < best_perf (spec_record ncases lookback open close p))%Qc
  then spec_record ncases lookback open close p else acc.
Proof.
  unfold trial_step, trial. rewrite perf_loop_spec.
  unfold spec_record, spec_cum_return, spec_long_count, spec_eval_range,
    spec_rise_threshold, spec_drop_threshold; cbn [best_perf].
  rewrite Qcplus_0_l, Nat.add_0_l. done.
Qed.

Lemma idrop_loop_fold irise n : ∀ idrop acc,
  idrop_loop n idrop ncases lookback open close irise acc =
  fold_left (trial_step ncases lookback open close)
    ((λ idrop, (irise, idrop)) <$> seq idrop n) acc.
Proof.
  induction n as [|n IH]; intros idrop acc; cbn [idrop_loop seq]; [done|].
  rewrite fmap_cons. cbn [fold_left]. by rewrite IH.
Qed.

Lemma irise_loop_fold n : ∀ irise acc,
  irise_loop n irise ncases lookback open close acc =
  fold_left (trial_step ncases lookback open close)
    (flat_map (λ irise, (λ idrop, (irise, idrop)) <$> seq 1 50) (seq irise n))
    acc.
Proof.
  induction n as [|n IH]; intros irise acc; cbn [irise_loop seq flat_map];
    [done|].
  by rewrite fold_left_app, IH, idrop_loop_fold.
Qed.

Lemma opt_params_fold prev_rise prev_drop prev_nlong :
  opt_params ncases lookback open close prev_rise prev_drop prev_nlong =
  fold_left (trial_step ncases lookback open close) spec_grid
    {| best_perf := minus_1e60; opt_rise := prev_rise; opt_drop := prev_drop;
       nlong := prev_nlong |}.
Proof. unfold opt_params, spec_grid. apply irise_loop_fold. Qed.

(** A left fold of trials either never breaks the record it started from,
    or ends on the first pair of the list whose return is the largest. *)
Lemma fold_trials_first_max (L : list (nat * nat)) : ∀ acc,
  let v p := best_perf (spec_record ncases lookback open close p) in
  let res := fold_left (trial_step ncases lookback open close) L acc in
  (res = acc ∧ ∀ q, q ∈ L → (v q ≤ best_perf acc)%Qc)
  ∨ (∃ L1 p L2, L = L1 ++ p :: L2
       ∧ res = spec_record ncases lookback open close p
       ∧ (best_perf acc < v p)%Qc
       ∧ (∀ q, q ∈ L1 → (v q < v p)%Qc)
       ∧ (∀ q, q ∈ L2 → (v q ≤ v p)%Qc)).
Proof.
  induction L as [|p L IH]; intros acc v; cbn [fold_left].
  - left. split; [done|]. intros q Hq. by apply elem_of_nil in Hq.
  - rewrite trial_step_spec. fold (v p).
    destruct (decide (best_perf acc < v p)%Qc) as [Hlt|Hge].
    + rewrite bool_decide_eq_true_2 by done.
      destruct (IH (spec_record ncases lookback open close p))
        as [[Hres Hall]|(L1 & p' & L2 & -> & Hres & Hlt' & H1 & H2)].
      * right. exists [], p, L. repeat split; [done | done | | done].
        intros q Hq. by apply elem_of_nil in Hq.
      * right. exists (p :: L1), p', L2.
        split; [done|]. split; [done|].
        split; [by apply Qclt_trans with (v p)|].
        split; [|done].
        intros q [->|Hq]%elem_of_cons; [done | by apply H1].
    + rewrite bool_decide_eq_false_2 by done.
      apply Qcnot_lt_le in Hge.
      destruct (IH acc)
        as [[Hres Hall]|(L1 & p' & L2 & -> & Hres & Hlt' & H1 & H2)].
      * left. split; [done|].
        intros q [->|Hq]%elem_of_cons; [done | by apply Hall].
      * right. exists (p :: L1), p', L2.
        split; [done|]. split; [done|]. split; [done|]. split; [|done].
        intros q [->|Hq]%elem_of_cons; [|by apply H1].
        by apply Qcle_lt_trans with (best_perf acc).
Qed.

End optimiser.

(** *** The grid *)

#[local] Instance tried_before_trans : Transitive tried_before.
Proof. intros p q r. unfold tried_before. lia. Qed.

Lemma spec_grid_elem ir id :
  (ir, id) ∈ spec_grid ↔ (1 ≤ ir ≤ 50 ∧ 1 ≤ id ≤ 50).
Proof.
  unfold spec_grid. rewrite list_elem_of_In, in_flat_map. split.
  - intros (x & Hx%list_elem_of_In%elem_of_seq
              & (y & [= -> ->] & Hy%elem_of_seq)%list_elem_of_In%list_elem_of_fmap).
    lia.
  - intros [Hir Hid]. exists ir. split.
    + apply list_elem_of_In, elem_of_seq. lia.
    + apply list_elem_of_In, list_elem_of_fmap. exists id.
      split; [done|]. apply elem_of_seq. lia.
Qed.

Lemma spec_grid_sorted : StronglySorted tried_before spec_grid.
Proof.
  apply Sorted_StronglySorted; [apply _|].
  apply (bool_decide_unpack _). vm_compute. exact I.
Qed.

(** The pairs after [p] in the grid are tried after [p]. *)
Lemma spec_grid_after L1 p L2 q :
  spec_grid = L1 ++ p :: L2 → q ∈ L2 → tried_before p q.
Proof.
  intros Hsplit Hq. pose proof spec_grid_sorted as Hs. rewrite Hsplit in Hs.
  apply StronglySorted_app_1_r, StronglySorted_inv in Hs as [_ Hall].
  rewrite Forall_forall in Hall. by apply Hall.
Qed.

(** *** The initial record [-1.e60] is below every return *)

Lemma rd_log_price a i :
  log_prices a → (Qc_of_Z (-745) ≤ rd a i)%Qc ∧ (rd a i ≤ Qc_of_Z 710)%Qc.
Proof.
  intros Ha. unfold rd. rewrite list_lookup_total_alt.
  destruct (a !! i) as [x|] eqn:Hx; cbn.
  - by apply (Forall_lookup_1 _ _ _ _ Ha Hx).
  - split; discriminate.
Qed.

Lemma spec_realized_lower lookback open close rt dt i :
  log_prices open →
  (Qc_of_Z (-1455) ≤ spec_realized lookback open close rt dt i)%Qc.
Proof.
  intros Ho. unfold spec_realized. case_bool_decide; [|discriminate].
  destruct (rd_log_price open (i + 2) Ho) as [Hlo _].
  destruct (rd_log_price open (i + 1) Ho) as [_ Hhi].
  replace (Qc_of_Z (-1455)) with (Qc_of_Z (-745) + - Qc_of_Z 710)%Qc
    by (apply Qc_is_canon; reflexivity).
  unfold Qcminus. apply Qcplus_le_compat; [done|].
  by apply Qcopp_le_compat.
Qed.

Lemma sumQc_lower (m : Qc) (l : list Qc) :
  Forall (λ x, (m ≤ x)%Qc) l → (Qc_of_Z (Z.of_nat (length l)) * m ≤ sumQc l)%Qc.
Proof.
  unfold sumQc. induction 1 as [|x l Hx _ IH]; cbn [length foldr].
  - change (Z.of_nat 0) with 0%Z.
    rewrite Z2Qc_inj_0, Qcmult_0_l. reflexivity.
  - rewrite Nat2Z.inj_succ, <-Z.add_1_l, Z2Qc_inj_add, Z2Qc_inj_1.
    replace ((1 + Qc_of_Z (Z.of_nat (length l))) * m)%Qc
      with (m + Qc_of_Z (Z.of_nat (length l)) * m)%Qc by ring.
    by apply Qcplus_le_compat.
Qed.

Lemma spec_cum_return_above_sentinel ncases lookback open close rt dt :
  log_prices open → (Z.of_nat ncases ≤ 2147483647)%Z →
  (minus_1e60 < spec_cum_return ncases lookback open close rt dt)%Qc.
Proof.
  intros Ho Hn. unfold spec_cum_return.
  eapply Qclt_le_trans; [|apply sumQc_lower with (m := Qc_of_Z (-1455))].
  - rewrite length_fmap. unfold spec_eval_range. rewrite length_seq.
    unfold minus_1e60. rewrite <-Z2Qc_inj_opp, <-Z2Qc_inj_mul.
    apply (proj1 (Z2Qc_inj_lt _ _)).
    assert (10000000000000 < 10 ^ 60)%Z by (vm_compute; reflexivity).
    lia.
  - apply Forall_fmap, Forall_forall. intros i _.
    by apply spec_realized_lower.
Qed.

(** *** What [opt_params] returns *)

(** On log prices some trial breaks the initial record, so [opt_params]
    ends on the first pair of the grid whose return is the largest. *)
Lemma opt_params_first_max ncases lookback open close pr pd pn :
  log_prices open → (Z.of_nat ncases ≤ 2147483647)%Z →
  let v p := best_perf (spec_record ncases lookback open close p) in
  ∃ L1 p L2, spec_grid = L1 ++ p :: L2
    ∧ opt_params ncases lookback open close pr pd pn
      = spec_record ncases lookback open close p
    ∧ (∀ q, q ∈ L1 → (v q < v p)%Qc)
    ∧ (∀ q, q ∈ L2 → (v q ≤ v p)%Qc).
Proof.
  intros Ho Hn v. rewrite opt_params_fold.
  destruct (fold_trials_first_max ncases lookback open close spec_grid
              {| best_perf := minus_1e60; opt_rise := pr; opt_drop := pd;
                 nlong := pn |})
    as [[_ Hall]|(L1 & p & L2 & Hsplit & Hres & _ & H1 & H2)].
  - exfalso. specialize (Hall (1, 1)). cbn [best_perf] in Hall.
    eapply Qcle_not_lt; [apply Hall; apply spec_grid_elem; lia|].
    by apply spec_cum_return_above_sentinel.
  - exists L1, p, L2. exact (conj Hsplit (conj Hres (conj H1 H2))).
Qed.

Lemma open_example_log_prices : log_prices open_example.
Proof. unfold log_prices, open_example. repeat constructor; discriminate. Qed.

(** ** The replication loop *)

Lemma replication_baseline nprices lookback tpr s :
  ∃ line,
    let s' := replication nprices lookback tpr 0 s in
    printed s' = printed s ++ [line]
    ∧ original s' = line_ret line
    ∧ count s' = 1%Z
    ∧ mean_training_bias s' = 0%Qc
    ∧ rng s' = rng s ∧ moves s' = moves s ∧ prices s' = prices s.
Proof.
  unfold replication. destruct (decide (0 = 0)) as [_|?]; [|done].
  eexists. cbv zeta.
  cbn [printed original count mean_training_bias rng moves prices line_ret].
  repeat split; reflexivity.
Qed.

Lemma replication_trial nprices lookback tpr irep s :
  irep ≠ 0 →
  ∃ line,
    let s' := replication nprices lookback tpr irep s in
    printed s' = printed s ++ [line]
    ∧ original s' = original s
    ∧ count s' = (count s + if bool_decide (original s ≤ line_ret line)%Qc
                            then 1 else 0)%Z.
Proof.
  intros Hirep. unfold replication.
  destruct (decide (irep = 0)) as [?|_]; [done|].
  destruct (do_permute _ _ _ _ _) as [[w r] st].
  eexists. cbv zeta. cbn [printed original count].
  split; [reflexivity|]. split; [reflexivity|].
  cbn [line_ret]. case_bool_decide; [reflexivity | lia].
Qed.

(** The replications after the baseline append one line each and count
    those whose return is at least the baseline's. *)
Lemma rep_loop_trials nprices lookback tpr n : ∀ irep s,
  irep ≠ 0 →
  ∃ trials,
    let s' := rep_loop n irep nprices lookback tpr s in
    printed s' = printed s ++ trials
    ∧ length trials = n
    ∧ original s' = original s
    ∧ count s' = (count s + Z.of_nat (at_least_as_good (original s) trials))%Z.
Proof.
  induction n as [|n IH]; intros irep s Hirep; cbn [rep_loop].
  - exists []. cbv zeta. rewrite app_nil_r.
    unfold at_least_as_good. rewrite filter_nil. cbn [length].
    repeat split; (done || lia).
  - destruct (replication_trial nprices lookback tpr irep s Hirep)
      as (line & Hp & Ho & Hc).
    destruct (IH (S irep) (replication nprices lookback tpr irep s) ltac:(lia))
      as (trials & Hp' & Hl' & Ho' & Hc').
    cbv zeta in *.
    exists (line :: trials).
    rewrite Hp', Hp, Ho', Hc', Hc, !Ho, <-app_assoc.
    split; [done|]. split; [cbn; lia|]. split; [done|].
    unfold at_least_as_good. rewrite filter_cons.
    destruct (decide _) as [Hge|Hlt].
    + rewrite bool_decide_eq_true_2 by done. cbn [length]. lia.
    + rewrite bool_decide_eq_false_2 by done. lia.
Qed.

Lemma at_least_as_good_le original trials :
  at_least_as_good original trials ≤ length trials.
Proof. apply length_filter. Qed.

Lemma ddiv_Some x y : y ≠ 0%Qc → ddiv x y = Some (x / y)%Qc.
Proof. intros Hy. unfold ddiv. by rewrite decide_False. Qed.

Lemma Qc_ratio_bounds (c n : Z) :
  (1 ≤ c ≤ n)%Z → (0 < Qc_of_Z c / Qc_of_Z n)%Qc ∧ (Qc_of_Z c / Qc_of_Z n ≤ 1)%Qc.
Proof.
  intros Hcn.
  assert (0 < Qc_of_Z n)%Qc as Hn
    by (rewrite <-Z2Qc_inj_0; apply (proj1 (Z2Qc_inj_lt _ _)); lia).
  assert (Qc_of_Z c / Qc_of_Z n * Qc_of_Z n = Qc_of_Z c)%Qc as Hmul.
  { field. by apply not_symmetry, Qclt_not_eq. }
  split.
  - apply (Qcmult_lt_mono_pos_r _ _ _ Hn).
    rewrite Hmul, Qcmult_0_l, <-Z2Qc_inj_0.
    apply (proj1 (Z2Qc_inj_lt _ _)). lia.
  - apply (Qcmult_le_mono_pos_r _ _ _ Hn).
    rewrite Hmul, Qcmult_1_l. apply (proj1 (Z2Qc_inj_le _ _)). lia.
Qed.

(** The state of [main] after its loop, for [nreps >= 1]. *)
Lemma rep_loop_from_baseline nprices lookback tpr nreps s0 :
  (1 ≤ nreps)%Z → printed s0 = [] →
  ∃ line0 trials,
    let s := rep_loop (Z.to_nat nreps) 0 nprices lookback tpr s0 in
    printed s = line0 :: trials
    ∧ Z.of_nat (length trials) = (nreps - 1)%Z
    ∧ original s = line_ret line0
    ∧ count s = (1 + Z.of_nat (at_least_as_good (line_ret line0) trials))%Z.
Proof.
  intros Hn Hp0.
  destruct (Z.to_nat nreps) as [|m] eqn:Hm; [lia|]. cbn [rep_loop].
  destruct (replication_baseline nprices lookback tpr s0)
    as (line0 & Hp & Ho & Hc & _).
  destruct (rep_loop_trials nprices lookback tpr m 1
              (replication nprices lookback tpr 0 s0) ltac:(lia))
    as (trials & Hp' & Hl' & Ho' & Hc').
  cbv zeta in *. exists line0, trials.
  rewrite Hp', Hp, Hp0, Ho', Hc', Hc, Ho.
  split; [done|]. split; [lia|]. done.
Qed.

(** C1: a run with [nreps >= 1] replications that reaches the report prints
    one line per replication; [count] is 1 for the baseline plus one for
    each later replication whose return is at least the baseline's; the
    p-value printed is [count / nreps]; [1 <= count <= nreps] and the
    p-value lies in (0, 1]. *)
Theorem p_value_is_count_over_nreps lookback nreps nprices b st :
  (1 ≤ nreps)%Z → 10 ≤ nprices - lookback →
  ∃ r line0 trials p,
    main lookback nreps nprices b st = Report r
    ∧ rep_lines r = line0 :: trials
    ∧ Z.of_nat (length trials) = (nreps - 1)%Z
    ∧ sum_original r = line_ret line0
    ∧ final_count r = (1 + Z.of_nat (at_least_as_good (sum_original r) trials))%Z
    ∧ (1 ≤ final_count r ≤ nreps)%Z
    ∧ p_value r = Some p
    ∧ p = (Qc_of_Z (final_count r) / Qc_of_Z nreps)%Qc
    ∧ (0 < p)%Qc ∧ (p ≤ 1)%Qc.
Proof.
  intros Hn Hdata. unfold main. rewrite decide_False by lia. cbv zeta.
  match goal with |- context [rep_loop _ 0 _ _ ?tpr ?s0] =>
    destruct (rep_loop_from_baseline nprices lookback tpr nreps s0 Hn eq_refl)
      as (line0 & trials & Hp & Hl & Ho & Hc);
    cbv zeta in Hp, Hl, Ho, Hc;
    set (s := rep_loop (Z.to_nat nreps) 0 nprices lookback tpr s0) in *
  end.
  pose proof (at_least_as_good_le (line_ret line0) trials) as Hle.
  assert (1 ≤ count s ≤ nreps)%Z as Hcount by lia.
  eexists. exists line0, trials, (Qc_of_Z (count s) / Qc_of_Z nreps)%Qc.
  split; [reflexivity|].
  cbn [rep_lines sum_original final_count p_value].
  split; [done|]. split; [done|]. split; [done|].
  split; [by rewrite Ho|]. split; [done|].
  split.
  { apply ddiv_Some. rewrite <-Z2Qc_inj_0. intros H0%Z2Qc_inj. lia. }
  split; [done|]. by apply Qc_ratio_bounds.
Qed.

Lemma p_value_is_count_over_nreps_witness :
  (1 ≤ 3)%Z ∧ 10 ≤ 12 - 2
  ∧ ∃ r line0 trials p,
      main 2 3 12 series_example Rng.initial = Report r
      ∧ rep_lines r = line0 :: trials
      ∧ Z.of_nat (length trials) = (3 - 1)%Z
      ∧ sum_original r = line_ret line0
      ∧ final_count r = (1 + Z.of_nat (at_least_as_good (sum_original r) trials))%Z
      ∧ (1 ≤ final_count r ≤ 3)%Z
      ∧ p_value r = Some p
      ∧ p = (Qc_of_Z (final_count r) / Qc_of_Z 3)%Qc
      ∧ (0 < p)%Qc ∧ (p ≤ 1)%Qc.
Proof.
  split; [lia|]. split; [cbn; lia|].
  exact (p_value_is_count_over_nreps 2 3 12 series_example Rng.initial
           ltac:(lia) ltac:(cbn; lia)).
Defined.

(** C9, at the failing input [nreps = 1]: the run makes the baseline
    replication only (one line printed, the generator not used), and then
    evaluates [mean_training_bias /= (nreps - 1)] with a zero divisor: the
    training bias, the unbiased return and the skill it reports are not
    numbers. *)
Theorem single_replication_divides_by_zero lookback nprices b st :
  10 ≤ nprices - lookback →
  ∃ r line0,
    main lookback 1 nprices b st = Report r
    ∧ rep_lines r = [line0]
    ∧ final_rng r = st
    ∧ ddiv 0%Qc (Qc_of_Z (1 - 1)) = None
    ∧ training_bias r = None
    ∧ unbiased_return r = None
    ∧ skill r = None.
Proof.
  intros Hdata. unfold main. rewrite decide_False by lia. cbv zeta.
  change (Z.to_nat 1) with 1. cbn [rep_loop].
  match goal with |- context [replication _ _ ?tpr 0 ?s0] =>
    destruct (replication_baseline nprices lookback tpr s0)
      as (line0 & Hp & Ho & Hc & Hm & Hr & _);
    cbv zeta in Hp, Ho, Hc, Hm, Hr;
    set (s := replication nprices lookback tpr 0 s0) in *
  end.
  assert (ddiv 0%Qc (Qc_of_Z (1 - 1)) = None) as Hdiv.
  { unfold ddiv. by rewrite decide_True by apply Z2Qc_inj_0. }
  eexists. exists line0. split; [reflexivity|].
  cbn [rep_lines final_rng training_bias unbiased_return skill].
  rewrite Hm, Hdiv. cbn [fmap option_fmap option_map].
  repeat split; done.
Qed.

Lemma single_replication_divides_by_zero_witness :
  10 ≤ 12 - 2
  ∧ ∃ r line0,
      main 2 1 12 series_example Rng.initial = Report r
      ∧ rep_lines r = [line0]
      ∧ final_rng r = Rng.initial
      ∧ ddiv 0%Qc (Qc_of_Z (1 - 1)) = None
      ∧ training_bias r = None
      ∧ unbiased_return r = None
      ∧ skill r = None.
Proof.
  split; [cbn; lia|].
  exact (single_replication_divides_by_zero 2 12 series_example Rng.initial
           ltac:(cbn; lia)).
Defined.

(** * Binary64 properties *)

(** ** Rounding *)

Section rounding.
Local Open Scope Z_scope.
Import B64.

Lemma Qc_of_Z_pos n : 0 < n → (0 < Qc_of_Z n)%Qc.
Proof. intros Hn. rewrite <-Z2Qc_inj_0. by apply (proj1 (Z2Qc_inj_lt _ _)). Qed.

Lemma Qc_of_Z_ne_0 n : n ≠ 0 → Qc_of_Z n ≠ 0%Qc.
Proof. intros Hn. rewrite <-Z2Qc_inj_0. by intros ?%Z2Qc_inj. Qed.

Lemma pow2_Z n m :
  0 ≤ n → 0 ≤ m → pow2 (n - m) = (Qc_of_Z (2 ^ n) / Qc_of_Z (2 ^ m))%Qc.
Proof.
  intros Hn Hm.
  assert (Qc_of_Z (2 ^ m) ≠ 0%Qc) as Hm0
    by (apply Qc_of_Z_ne_0; apply Z.pow_nonzero; lia).
  unfold pow2. destruct (decide (0 ≤ n - m)) as [Hge|Hlt].
  - replace n with ((n - m) + m) at 2 by lia.
    rewrite Z.pow_add_r, Z2Qc_inj_mul by lia. by field.
  - assert (Qc_of_Z (2 ^ n) ≠ 0%Qc) as Hn0
      by (apply Qc_of_Z_ne_0; apply Z.pow_nonzero; lia).
    replace m with (- (n - m) + n) at 2 by lia.
    rewrite Z.pow_add_r, Z2Qc_inj_mul by lia.
    assert (Qc_of_Z (2 ^ (- (n - m))) ≠ 0%Qc) as Hd0
      by (apply Qc_of_Z_ne_0; apply Z.pow_nonzero; lia).
    by field.
Qed.

Lemma pow2_pos k : (0 < pow2 k)%Qc.
Proof.
  unfold pow2. destruct (decide (0 ≤ k)).
  - apply Qc_of_Z_pos. by apply Z.pow_pos_nonneg.
  - apply Qcinv_pos, Qc_of_Z_pos. apply Z.pow_pos_nonneg; lia.
Qed.

Lemma pow2_ne_0 k : pow2 k ≠ 0%Qc.
Proof. apply not_symmetry, Qclt_not_eq, pow2_pos. Qed.

Lemma pow2_nonneg k : 0 ≤ k → pow2 k = Qc_of_Z (2 ^ k).
Proof. intros Hk. unfold pow2. by rewrite decide_True. Qed.

Lemma pow2_0 : pow2 0 = 1%Qc.
Proof. by apply Qc_is_canon. Qed.

Lemma pow2_add a b : pow2 (a + b) = (pow2 a * pow2 b)%Qc.
Proof.
  replace a with (Z.max a 0 - Z.max (- a) 0) at 2 by lia.
  replace b with (Z.max b 0 - Z.max (- b) 0) at 2 by lia.
  replace (a + b)
    with ((Z.max a 0 + Z.max b 0) - (Z.max (- a) 0 + Z.max (- b) 0)) by lia.
  rewrite !pow2_Z by lia. rewrite !Z.pow_add_r, !Z2Qc_inj_mul by lia.
  assert (∀ k, 0 ≤ k → Qc_of_Z (2 ^ k) ≠ 0%Qc) as Hnz
    by (intros k Hk; apply Qc_of_Z_ne_0, Z.pow_nonzero; lia).
  field. split; apply Hnz; lia.
Qed.

Lemma pow2_le a b : a ≤ b → (pow2 a ≤ pow2 b)%Qc.
Proof.
  intros Hab. replace b with (a + (b - a)) by lia. rewrite pow2_add.
  rewrite <-(Qcmult_1_r (pow2 a)) at 1.
  apply Qcmult_le_mono_nonneg_l; [apply Qclt_le_weak, pow2_pos|].
  rewrite pow2_nonneg by lia. rewrite <-Z2Qc_inj_1.
  apply (proj1 (Z2Qc_inj_le _ _)).
  assert (0 < 2 ^ (b - a)) by (apply Z.pow_pos_nonneg; lia). lia.
Qed.

Lemma pow2_lt_inv a b : (pow2 a < pow2 b)%Qc → a < b.
Proof.
  intros Hlt. destruct (decide (a < b)) as [|Hge]; [done|].
  exfalso. eapply Qclt_not_le; [exact Hlt|]. apply pow2_le. lia.
Qed.

(** A rational is its numerator over its denominator. *)
Lemma Qc_num_den (x : Qc) :
  x = (Qc_of_Z (Qnum x) / Qc_of_Z (Zpos (Qden x)))%Qc.
Proof.
  apply Qc_is_canon.
  unfold Qcdiv, Qcmult, Qcinv, Qc_of_Z, Q2Qc; cbn [this].
  rewrite !Qred_correct. destruct x as [[n d] Hc]. cbn [this Qnum Qden].
  unfold Qeq, Qmult, Qinv, inject_Z; cbn. lia.
Qed.

Lemma Qc_frac_le a b c d :
  0 < b → 0 < d →
  (Qc_of_Z a / Qc_of_Z b ≤ Qc_of_Z c / Qc_of_Z d)%Qc ↔ a * d ≤ c * b.
Proof.
  intros Hb Hd.
  pose proof (Qc_of_Z_pos b Hb) as Hb'. pose proof (Qc_of_Z_pos d Hd) as Hd'.
  assert (Qc_of_Z b ≠ 0%Qc) as Hb0 by (apply Qc_of_Z_ne_0; lia).
  assert (Qc_of_Z d ≠ 0%Qc) as Hd0 by (apply Qc_of_Z_ne_0; lia).
  rewrite (Qcmult_le_mono_pos_r _ _ (Qc_of_Z b * Qc_of_Z d)%Qc)
    by (by apply Qcmult_pos_pos).
  replace (Qc_of_Z a / Qc_of_Z b * (Qc_of_Z b * Qc_of_Z d))%Qc
    with (Qc_of_Z (a * d)) by (rewrite Z2Qc_inj_mul; by field).
  replace (Qc_of_Z c / Qc_of_Z d * (Qc_of_Z b * Qc_of_Z d))%Qc
    with (Qc_of_Z (c * b)) by (rewrite Z2Qc_inj_mul; by field).
  symmetry. apply Z2Qc_inj_le.
Qed.

Lemma Qc_frac_lt a b c d :
  0 < b → 0 < d →
  (Qc_of_Z a / Qc_of_Z b < Qc_of_Z c / Qc_of_Z d)%Qc ↔ a * d < c * b.
Proof.
  intros Hb Hd. rewrite Qclt_nge, Qc_frac_le by done. lia.
Qed.

Lemma Qnum_pos (x : Qc) : (0 < x)%Qc → 0 < Qnum x.
Proof.
  destruct x as [[n d] Hc]. unfold Qclt, Qlt. cbn.
  change (Qred 0) with 0%Q. cbn. lia.
Qed.

(** [ilog2 x] is the integer part of the binary logarithm. *)
Lemma ilog2_spec x :
  (0 < x)%Qc → (pow2 (ilog2 x) ≤ x)%Qc ∧ (x < pow2 (ilog2 x + 1))%Qc.
Proof.
  intros Hx. pose proof (Qnum_pos x Hx) as Hn.
  set (n := Qnum x) in *. set (d := Zpos (Qden x)).
  assert (0 < d) as Hd by done.
  pose proof (Z.log2_spec n Hn) as [Hn1 Hn2].
  pose proof (Z.log2_spec d Hd) as [Hd1 Hd2].
  pose proof (Z.log2_nonneg n) as Hln. pose proof (Z.log2_nonneg d) as Hld.
  assert (0 < 2 ^ Z.log2 n) as Pn by (by apply Z.pow_pos_nonneg).
  assert (0 < 2 ^ Z.log2 d) as Pd by (by apply Z.pow_pos_nonneg).
  rewrite Z.pow_succ_r in Hn2, Hd2 by done.
  assert (x < pow2 (Z.log2 n - Z.log2 d + 1))%Qc as Hup.
  { replace (Z.log2 n - Z.log2 d + 1) with ((Z.log2 n + 1) - Z.log2 d) by lia.
    rewrite pow2_Z by lia. rewrite (Qc_num_den x) at 1. fold n d.
    apply Qc_frac_lt; [done | done |].
    rewrite Z.pow_add_r by lia. change (2 ^ 1) with 2.
    apply Z.lt_le_trans with (2 ^ Z.log2 n * 2 * 2 ^ Z.log2 d).
    - apply Z.mul_lt_mono_pos_r; lia.
    - apply Z.mul_le_mono_nonneg_l; lia. }
  assert (pow2 (Z.log2 n - Z.log2 d - 1) ≤ x)%Qc as Hlo.
  { replace (Z.log2 n - Z.log2 d - 1) with (Z.log2 n - (Z.log2 d + 1)) by lia.
    rewrite pow2_Z by lia. rewrite (Qc_num_den x) at 1. fold n d.
    apply Qc_frac_le; [apply Z.pow_pos_nonneg; lia | done |].
    rewrite Z.pow_add_r by lia. change (2 ^ 1) with 2.
    apply Z.le_trans with (n * d).
    - apply Z.mul_le_mono_nonneg_r; lia.
    - apply Z.mul_le_mono_nonneg_l; lia. }
  unfold ilog2. fold n d.
  destruct (decide (pow2 (Z.log2 n - Z.log2 d) ≤ x)%Qc) as [Hle|Hgt].
  - done.
  - split; [done|]. apply Qcnot_le_lt in Hgt.
    by replace (Z.log2 n - Z.log2 d - 1 + 1) with (Z.log2 n - Z.log2 d) by lia.
Qed.

Lemma ilog2_mono x y : (0 < x)%Qc → (x ≤ y)%Qc → ilog2 x ≤ ilog2 y.
Proof.
  intros Hx Hxy.
  destruct (ilog2_spec x Hx) as [Hx1 _].
  destruct (ilog2_spec y) as [_ Hy2]; [by eapply Qclt_le_trans|].
  assert (pow2 (ilog2 x) < pow2 (ilog2 y + 1))%Qc as Hlt.
  { eapply Qcle_lt_trans; [exact Hx1|]. by eapply Qcle_lt_trans. }
  apply pow2_lt_inv in Hlt. lia.
Qed.

(** *** Rounding to the nearest integer *)

Lemma Qc_floor_le (a : Qc) : (Qc_of_Z (Qfloor a) ≤ a)%Qc.
Proof.
  unfold Qcle, Qc_of_Z; cbn [this]. apply Qfloor_le.
Qed.

Lemma Qc_lt_floor (a : Qc) : (a < Qc_of_Z (Qfloor a + 1))%Qc.
Proof.
  unfold Qclt, Qc_of_Z; cbn [this]. apply Qlt_floor.
Qed.

Lemma Qc_floor_mono (a b : Qc) : (a ≤ b)%Qc → Qfloor a ≤ Qfloor b.
Proof. intros Hab. by apply Qfloor_resp_le. Qed.

Lemma Qc_floor_Z n : Qfloor (Qc_of_Z n) = n.
Proof.
  unfold Qc_of_Z; cbn [this]. apply Qfloor_Z.
Qed.

Lemma rne_bounds (a : Qc) : Qfloor a ≤ rne a ≤ Qfloor a + 1.
Proof.
  unfold rne. destruct (_ ?= _)%Qc; [destruct (Z.even _)| |]; lia.
Qed.

Lemma rne_Z n : rne (Qc_of_Z n) = n.
Proof.
  unfold rne. rewrite Qc_floor_Z.
  replace (Qc_of_Z n - Qc_of_Z n)%Qc with 0%Qc by ring. done.
Qed.

Lemma rne_mono (a b : Qc) : (a ≤ b)%Qc → rne a ≤ rne b.
Proof.
  intros Hab.
  pose proof (Qc_floor_mono a b Hab) as Hf.
  pose proof (rne_bounds a) as Ha. pose proof (rne_bounds b) as Hb.
  destruct (decide (Qfloor a = Qfloor b)) as [Heq|Hne]; [|lia].
  assert (a - Qc_of_Z (Qfloor a) ≤ b - Qc_of_Z (Qfloor b))%Qc as Hfrac.
  { rewrite Heq. unfold Qcminus. by apply Qcplus_le_mono_r. }
  unfold rne in *. rewrite <-Heq in *.
  set (fa := (a - Qc_of_Z (Qfloor a))%Qc) in *.
  set (fb := (b - Qc_of_Z (Qfloor a))%Qc) in *.
  destruct (fa ?= Q2Qc (1 # 2))%Qc eqn:Ca.
  - apply Qceq_alt in Ca.
    destruct (fb ?= Q2Qc (1 # 2))%Qc eqn:Cb.
    + lia.
    + apply Qclt_alt in Cb. exfalso. rewrite Ca in Hfrac.
      by eapply Qclt_not_le.
    + destruct (Z.even _); lia.
  - destruct (fb ?= Q2Qc (1 # 2))%Qc; [destruct (Z.even _)| |]; lia.
  - apply Qcgt_alt in Ca.
    destruct (fb ?= Q2Qc (1 # 2))%Qc eqn:Cb.
    + apply Qceq_alt in Cb. exfalso. rewrite Cb in Hfrac.
      by eapply Qclt_not_le.
    + apply Qclt_alt in Cb. exfalso.
      eapply Qclt_not_le; [exact Ca|].
      eapply Qcle_trans; [exact Hfrac|]. by apply Qclt_le_weak.
    + lia.
Qed.

Lemma rne_le_Z (a : Qc) n : (a ≤ Qc_of_Z n)%Qc → rne a ≤ n.
Proof. intros Ha. rewrite <-(rne_Z n). by apply rne_mono. Qed.

Lemma rne_ge_Z (a : Qc) n : (Qc_of_Z n ≤ a)%Qc → n ≤ rne a.
Proof. intros Ha. rewrite <-(rne_Z n). by apply rne_mono. Qed.

(** *** Rounding to binary64 *)

Lemma ulp_exp_mono x y : (0 < x)%Qc → (x ≤ y)%Qc → ulp_exp x ≤ ulp_exp y.
Proof.
  intros Hx Hxy. unfold ulp_exp.
  pose proof (ilog2_mono x y Hx Hxy). lia.
Qed.

(** Division by a power of two, as multiplication. *)
Lemma Qc_div_pow2 x k : (x / pow2 k)%Qc = (x * pow2 (- k))%Qc.
Proof.
  assert (pow2 k * pow2 (- k) = 1)%Qc as H.
  { rewrite <-pow2_add. rewrite Z.add_opp_diag_r. apply pow2_0. }
  pose proof (pow2_ne_0 k).
  unfold Qcdiv. f_equal.
  rewrite <-(Qcmult_1_r (/ pow2 k)), <-H. by field.
Qed.

Lemma fl_pos_le_pow2 x k :
  (x ≤ pow2 k)%Qc → ulp_exp x ≤ k → (fl_pos x ≤ pow2 k)%Qc.
Proof.
  intros Hx Hk. unfold fl_pos. set (e := ulp_exp x) in *.
  replace (pow2 k) with (Qc_of_Z (2 ^ (k - e)) * pow2 e)%Qc.
  2:{ rewrite <-pow2_nonneg by lia. rewrite <-pow2_add. f_equal. lia. }
  apply Qcmult_le_mono_nonneg_r; [apply Qclt_le_weak, pow2_pos|].
  apply (proj1 (Z2Qc_inj_le _ _)). apply rne_le_Z.
  rewrite <-pow2_nonneg by lia. rewrite Qc_div_pow2.
  replace (k - e) with (k + - e) by lia. rewrite pow2_add.
  apply Qcmult_le_mono_nonneg_r; [apply Qclt_le_weak, pow2_pos | done].
Qed.

Lemma fl_pos_ge_pow2 x k :
  (pow2 k ≤ x)%Qc → ulp_exp x ≤ k → (pow2 k ≤ fl_pos x)%Qc.
Proof.
  intros Hx Hk. unfold fl_pos. set (e := ulp_exp x) in *.
  replace (pow2 k) with (Qc_of_Z (2 ^ (k - e)) * pow2 e)%Qc.
  2:{ rewrite <-pow2_nonneg by lia. rewrite <-pow2_add. f_equal. lia. }
  apply Qcmult_le_mono_nonneg_r; [apply Qclt_le_weak, pow2_pos|].
  apply (proj1 (Z2Qc_inj_le _ _)). apply rne_ge_Z.
  rewrite <-pow2_nonneg by lia. rewrite Qc_div_pow2.
  replace (k - e) with (k + - e) by lia. rewrite pow2_add.
  apply Qcmult_le_mono_nonneg_r; [apply Qclt_le_weak, pow2_pos | done].
Qed.

Lemma fl_pos_mono x y : (0 < x)%Qc → (x ≤ y)%Qc → (fl_pos x ≤ fl_pos y)%Qc.
Proof.
  intros Hx Hxy.
  assert (0 < y)%Qc as Hy by (by eapply Qclt_le_trans).
  pose proof (ulp_exp_mono x y Hx Hxy) as He.
  destruct (decide (ulp_exp x = ulp_exp y)) as [Heq|Hne].
  - unfold fl_pos. rewrite Heq.
    apply Qcmult_le_mono_nonneg_r; [apply Qclt_le_weak, pow2_pos|].
    apply (proj1 (Z2Qc_inj_le _ _)), rne_mono.
    rewrite !Qc_div_pow2.
    apply Qcmult_le_mono_nonneg_r; [apply Qclt_le_weak, pow2_pos | done].
  - destruct (ilog2_spec x Hx) as [_ Hx2].
    destruct (ilog2_spec y Hy) as [Hy1 _].
    assert (ulp_exp y = ilog2 y - 52 ∧ ilog2 x < ilog2 y) as [Ey Hlog]
      by (unfold ulp_exp in *; lia).
    apply Qcle_trans with (pow2 (ilog2 y)).
    + apply fl_pos_le_pow2; [|lia].
      apply Qclt_le_weak. eapply Qclt_le_trans; [exact Hx2|].
      apply pow2_le. lia.
    + apply fl_pos_ge_pow2; [done | lia].
Qed.

Lemma fl_pos_0 : fl_pos 0 = 0%Qc.
Proof. apply Qc_is_canon. vm_compute. reflexivity. Qed.

Lemma fl_pos_nonneg x : (0 ≤ x)%Qc → (0 ≤ fl_pos x)%Qc.
Proof.
  intros Hx. unfold fl_pos.
  apply Qcmult_nonneg_nonneg; [|apply Qclt_le_weak, pow2_pos].
  rewrite <-Z2Qc_inj_0. apply (proj1 (Z2Qc_inj_le _ _)), rne_ge_Z.
  rewrite Z2Qc_inj_0, Qc_div_pow2.
  apply Qcmult_nonneg_nonneg; [done | apply Qclt_le_weak, pow2_pos].
Qed.

Lemma fl_pos_mono' x y : (0 ≤ x)%Qc → (x ≤ y)%Qc → (fl_pos x ≤ fl_pos y)%Qc.
Proof.
  intros Hx Hxy. apply Qcle_lt_or_eq in Hx as [Hx|<-].
  - by apply fl_pos_mono.
  - rewrite fl_pos_0. by apply fl_pos_nonneg.
Qed.

Lemma Qcopp_0 : (- 0)%Qc = 0%Qc.
Proof. by apply Qc_is_canon. Qed.

Lemma Qcopp_nonneg x : (x ≤ 0)%Qc → (0 ≤ - x)%Qc.
Proof. intros Hx. apply Qcopp_le_compat in Hx. by rewrite Qcopp_0 in Hx. Qed.

Lemma Qcopp_nonpos x : (0 ≤ x)%Qc → (- x ≤ 0)%Qc.
Proof. intros Hx. apply Qcopp_le_compat in Hx. by rewrite Qcopp_0 in Hx. Qed.

(** Rounding is monotone. *)
Lemma fl_mono x y : (x ≤ y)%Qc → (fl x ≤ fl y)%Qc.
Proof.
  intros Hxy. unfold fl.
  destruct (decide (0 ≤ x)%Qc) as [Hx|Hx];
    destruct (decide (0 ≤ y)%Qc) as [Hy|Hy].
  - by apply fl_pos_mono'.
  - exfalso. apply Hy. by eapply Qcle_trans.
  - apply Qcnot_le_lt, Qclt_le_weak in Hx.
    apply Qcle_trans with 0%Qc; [|by apply fl_pos_nonneg].
    by apply Qcopp_nonpos, fl_pos_nonneg, Qcopp_nonneg.
  - apply Qcnot_le_lt, Qclt_le_weak in Hy.
    apply Qcopp_le_compat, fl_pos_mono'.
    + by apply Qcopp_nonneg.
    + by apply Qcopp_le_compat.
Qed.

(** Integers below [2^53] are binary64 numbers. *)
Lemma fl_pos_Z n : 0 ≤ n < 2 ^ 53 → fl_pos (Qc_of_Z n) = Qc_of_Z n.
Proof.
  intros [Hn0 Hn]. destruct (decide (n = 0)) as [->|Hne];
    [rewrite Z2Qc_inj_0; exact fl_pos_0|].
  assert (0 < Qc_of_Z n)%Qc as Hpos by (apply Qc_of_Z_pos; lia).
  destruct (ilog2_spec _ Hpos) as [Hlo _].
  assert (ilog2 (Qc_of_Z n) < 53) as Hk.
  { apply pow2_lt_inv. eapply Qcle_lt_trans; [exact Hlo|].
    rewrite pow2_nonneg by lia. apply (proj1 (Z2Qc_inj_lt _ _)). lia. }
  unfold fl_pos. set (e := ulp_exp (Qc_of_Z n)).
  assert (e ≤ 0) as He by (unfold e, ulp_exp; lia).
  rewrite Qc_div_pow2, pow2_nonneg by lia.
  rewrite <-Z2Qc_inj_mul, rne_Z, Z2Qc_inj_mul, <-pow2_nonneg by lia.
  rewrite <-Qcmult_assoc, <-pow2_add.
  replace (- e + e) with 0 by lia. rewrite pow2_0. ring.
Qed.

Lemma fl_Z n : - 2 ^ 53 < n < 2 ^ 53 → fl (Qc_of_Z n) = Qc_of_Z n.
Proof.
  intros Hn. unfold fl.
  destruct (decide (0 ≤ Qc_of_Z n)%Qc) as [Hge|Hlt].
  - apply fl_pos_Z. rewrite <-Z2Qc_inj_0 in Hge.
    apply Z2Qc_inj_le in Hge. lia.
  - apply Qcnot_le_lt in Hlt. rewrite <-Z2Qc_inj_0 in Hlt.
    apply Z2Qc_inj_lt in Hlt.
    rewrite <-Z2Qc_inj_opp, fl_pos_Z by lia.
    rewrite Z2Qc_inj_opp. ring.
Qed.

Lemma fl_le_Z x n : - 2 ^ 53 < n < 2 ^ 53 → (x ≤ Qc_of_Z n)%Qc → (fl x ≤ Qc_of_Z n)%Qc.
Proof. intros Hn Hx. rewrite <-(fl_Z n Hn). by apply fl_mono. Qed.

Lemma fl_ge_Z x n : - 2 ^ 53 < n < 2 ^ 53 → (Qc_of_Z n ≤ x)%Qc → (Qc_of_Z n ≤ fl x)%Qc.
Proof. intros Hn Hx. rewrite <-(fl_Z n Hn). by apply fl_mono. Qed.

End rounding.

(** *** Values of the rounding

    One tenth and the constants of the program; a tie that goes to the even
    significand in each direction; the smallest subnormal number and the
    tie below it. *)

Lemma b64_value (x : Qc) (q : Q) : this x = q → x = Q2Qc q.
Proof. intros <-. symmetry. apply Qc_is_canon. apply Qred_correct. Qed.

Example b64_one_tenth :
  B64.literal 1 10 = Q2Qc (3602879701896397 # 36028797018963968).
Proof. apply b64_value. vm_compute. reflexivity. Qed.

Example b64_ties_to_even :
  B64.of_int (2 ^ 53 + 1) = Qc_of_Z (2 ^ 53)
  ∧ B64.of_int (2 ^ 53 + 3) = Qc_of_Z (2 ^ 53 + 4).
Proof. split; apply Qc_is_canon; vm_compute; reflexivity. Qed.

Example b64_subnormal :
  B64.fl (B64.pow2 (-1074)) = B64.pow2 (-1074)
  ∧ B64.fl (B64.pow2 (-1075)) = 0%Qc
  ∧ B64.fl (Qc_of_Z 3 * B64.pow2 (-1075)) = B64.pow2 (-1073).
Proof. split; [|split]; apply Qc_is_canon; vm_compute; reflexivity. Qed.

Example b64_rise_step_value :
  B64.rise_step = Q2Qc (5764607523034235 # 1152921504606846976)
  ∧ B64.mul (B64.of_int 3) B64.rise_step
    = Q2Qc (1080863910568919 # 72057594037927936).
Proof. split; apply b64_value; vm_compute; reflexivity. Qed.

Example b64_drop_step_value :
  B64.drop_step = Q2Qc (1152921504606847 # 2305843009213693952).
Proof. apply b64_value. vm_compute. reflexivity. Qed.

Lemma b64_minus_1e60_value :
  B64.minus_1e60
  = Qc_of_Z (-999999999999999949387135297074018866963645011013410073083904).
Proof. apply Qc_is_canon. vm_compute. reflexivity. Qed.

Example b64_unifrand_mult :
  B64.div (B64.of_int 1) (B64.of_int 4294967295)
  = Q2Qc (4294967297 # 18446744073709551616).
Proof. apply b64_value. vm_compute. reflexivity. Qed.

Lemma b64_add_0_0 : B64.add 0 0 = 0%Qc.
Proof. apply Qc_is_canon. vm_compute. reflexivity. Qed.

Lemma fl_ge_int x n :
  (- 9007199254740992 < n < 9007199254740992)%Z →
  (Qc_of_Z n ≤ x)%Qc → (Qc_of_Z n ≤ B64.fl x)%Qc.
Proof.
  intros Hn. apply fl_ge_Z.
  assert (2 ^ 53 = 9007199254740992)%Z as -> by (vm_compute; reflexivity).
  exact Hn.
Qed.

Lemma Qc_list_this (l l' : list Qc) : this <$> l = this <$> l' → l = l'.
Proof.
  revert l'. induction l as [|x l IH]; intros [|y l']; cbn; try done.
  intros [= Hx Hl]. f_equal; [by apply Qc_decomp | by apply IH].
Qed.

(** ** The optimiser in binary64 *)

(** A fold of steps that replace the record by a strictly better one either
    never breaks the record it started from, or ends on the first entry of
    the list whose value is the largest. *)
Lemma fold_records_first_max {A} (record : A → opt_out)
    (step : opt_out → A → opt_out) :
  (∀ acc p, step acc p
            = if bool_decide (best_perf acc < best_perf (record p))%Qc
              then record p else acc) →
  ∀ (L : list A) acc,
    let v p := best_perf (record p) in
    let res := fold_left step L acc in
    (res = acc ∧ ∀ q, q ∈ L → (v q ≤ best_perf acc)%Qc)
    ∨ (∃ L1 p L2, L = L1 ++ p :: L2
         ∧ res = record p
         ∧ (best_perf acc < v p)%Qc
         ∧ (∀ q, q ∈ L1 → (v q < v p)%Qc)
         ∧ (∀ q, q ∈ L2 → (v q ≤ v p)%Qc)).
Proof.
  intros Hstep L. induction L as [|p L IH]; intros acc v; cbn [fold_left].
  - left. split; [done|]. intros q Hq. by apply elem_of_nil in Hq.
  - rewrite Hstep. fold (v p).
    destruct (decide (best_perf acc < v p)%Qc) as [Hlt|Hge].
    + rewrite bool_decide_eq_true_2 by done.
      destruct (IH (record p))
        as [[Hres Hall]|(L1 & p' & L2 & -> & Hres & Hlt' & H1 & H2)].
      * right. exists [], p, L. repeat split; [done | done | | done].
        intros q Hq. by apply elem_of_nil in Hq.
      * right. exists (p :: L1), p', L2.
        split; [done|]. split; [done|].
        split; [by apply Qclt_trans with (v p)|].
        split; [|done].
        intros q [->|Hq]%elem_of_cons; [done | by apply H1].
    + rewrite bool_decide_eq_false_2 by done.
      apply Qcnot_lt_le in Hge.
      destruct (IH acc)
        as [[Hres Hall]|(L1 & p' & L2 & -> & Hres & Hlt' & H1 & H2)].
      * left. split; [done|].
        intros q [->|Hq]%elem_of_cons; [done | by apply Hall].
      * right. exists (p :: L1), p', L2.
        split; [done|]. split; [done|]. split; [done|]. split; [|done].
        intros q [->|Hq]%elem_of_cons; [|by apply H1].
        by apply Qcle_lt_trans with (best_perf acc).
Qed.

Section b64_optimiser.
Context (ncases lookback : nat) (open close : list Qc).

Lemma b64_signal_spec rt dt i :
  B64.signal lookback close rt dt i
  = bool_decide (b64_long lookback close rt dt i).
Proof.
  unfold B64.signal, b64_long. apply eq_true_iff_eq.
  rewrite andb_true_iff, !bool_decide_eq_true. done.
Qed.

(** The performance loop adds, in binary64 and in the order of the indices,
    the realized returns to [total_return], and the number of signals to
    [nl]. *)
Lemma b64_perf_loop_spec rt dt n : ∀ i total nl,
  B64.perf_loop n i lookback open close rt dt total nl =
  (fold_left B64.add (b64_realized lookback open close rt dt <$> seq i n) total,
   nl + length (filter (b64_long lookback close rt dt) (seq i n))).
Proof.
  induction n as [|n IH]; intros i total nl; cbn [B64.perf_loop seq].
  - rewrite fmap_nil, filter_nil. cbn [fold_left length]. f_equal. lia.
  - rewrite b64_signal_spec, fmap_cons, filter_cons. cbn [fold_left].
    destruct (decide _) as [Hs|Hs].
    + rewrite bool_decide_eq_true_2 by done. rewrite IH.
      assert (b64_realized lookback open close rt dt i
              = B64.sub (rd open (i + 2)) (rd open (i + 1))) as ->
        by (unfold b64_realized; by rewrite bool_decide_eq_true_2).
      f_equal. cbn [length]. lia.
    + rewrite bool_decide_eq_false_2 by done. rewrite IH.
      assert (b64_realized lookback open close rt dt i = 0%Qc) as ->
        by (unfold b64_realized; by rewrite bool_decide_eq_false_2).
      done.
Qed.

Lemma b64_trial_step_spec acc p :
  b64_trial_step ncases lookback open close acc p =
  if bool_decide
       (best_perf acc < best_perf (b64_record ncases lookback open close p))%Qc
  then b64_record ncases lookback open close p else acc.
Proof.
  unfold b64_trial_step, B64.trial. rewrite b64_perf_loop_spec.
  unfold b64_record, b64_cum_return, b64_sum, b64_long_count, spec_eval_range;
    cbn [best_perf].
  rewrite Nat.add_0_l. done.
Qed.

Lemma b64_idrop_loop_fold irise n : ∀ idrop acc,
  B64.idrop_loop n idrop ncases lookback open close irise acc =
  fold_left (b64_trial_step ncases lookback open close)
    ((λ idrop, (irise, idrop)) <$> seq idrop n) acc.
Proof.
  induction n as [|n IH]; intros idrop acc; cbn [B64.idrop_loop seq]; [done|].
  rewrite fmap_cons. cbn [fold_left]. by rewrite IH.
Qed.

Lemma b64_irise_loop_fold n : ∀ irise acc,
  B64.irise_loop n irise ncases lookback open close acc =
  fold_left (b64_trial_step ncases lookback open close)
    (flat_map (λ irise, (λ idrop, (irise, idrop)) <$> seq 1 50) (seq irise n))
    acc.
Proof.
  induction n as [|n IH]; intros irise acc;
    cbn [B64.irise_loop seq flat_map]; [done|].
  by rewrite fold_left_app, IH, b64_idrop_loop_fold.
Qed.

Lemma b64_opt_params_fold prev_rise prev_drop prev_nlong :
  B64.opt_params ncases lookback open close prev_rise prev_drop prev_nlong =
  fold_left (b64_trial_step ncases lookback open close) spec_grid
    {| best_perf := B64.minus_1e60; opt_rise := prev_rise;
       opt_drop := prev_drop; nlong := prev_nlong |}.
Proof. unfold B64.opt_params, spec_grid. apply b64_irise_loop_fold. Qed.

(** The search either leaves the initial record, or ends on the first pair
    of the grid whose return is the largest. *)
Lemma b64_opt_params_cases pr pd pn :
  let v p := best_perf (b64_record ncases lookback open close p) in
  let start := {| best_perf := B64.minus_1e60; opt_rise := pr; opt_drop := pd;
                  nlong := pn |} in
  let res := B64.opt_params ncases lookback open close pr pd pn in
  (res = start ∧ ∀ q, q ∈ spec_grid → (v q ≤ B64.minus_1e60)%Qc)
  ∨ (∃ L1 p L2, spec_grid = L1 ++ p :: L2
       ∧ res = b64_record ncases lookback open close p
       ∧ (B64.minus_1e60 < v p)%Qc
       ∧ (∀ q, q ∈ L1 → (v q < v p)%Qc)
       ∧ (∀ q, q ∈ L2 → (v q ≤ v p)%Qc)).
Proof.
  cbv zeta. rewrite b64_opt_params_fold.
  exact (fold_records_first_max (b64_record ncases lookback open close)
           (b64_trial_step ncases lookback open close) b64_trial_step_spec
           spec_grid
           {| best_perf := B64.minus_1e60; opt_rise := pr; opt_drop := pd;
              nlong := pn |}).
Qed.

End b64_optimiser.

(** *** The grid of binary64 thresholds *)

Lemma b64_rise_threshold_succ :
  Forall (λ k, (b64_rise_threshold k < b64_rise_threshold (S k))%Qc) (seq 1 49).
Proof. apply (bool_decide_unpack _). vm_compute. exact I. Qed.

Lemma b64_drop_threshold_succ :
  Forall (λ k, (b64_drop_threshold k < b64_drop_threshold (S k))%Qc) (seq 1 49).
Proof. apply (bool_decide_unpack _). vm_compute. exact I. Qed.

(** Rounded as they are, the fifty thresholds of each kind are strictly
    increasing. *)
Lemma b64_rise_threshold_lt a b :
  1 ≤ a → a < b → b ≤ 50 → (b64_rise_threshold a < b64_rise_threshold b)%Qc.
Proof.
  intros Ha Hab Hb. induction b as [|b IH]; [lia|].
  assert (b64_rise_threshold b < b64_rise_threshold (S b))%Qc as Hstep.
  { pose proof b64_rise_threshold_succ as H. rewrite Forall_forall in H.
    apply H, elem_of_seq. lia. }
  destruct (decide (a = b)) as [->|Hne]; [done|].
  apply Qclt_trans with (b64_rise_threshold b); [apply IH; lia | done].
Qed.

Lemma b64_drop_threshold_lt a b :
  1 ≤ a → a < b → b ≤ 50 → (b64_drop_threshold a < b64_drop_threshold b)%Qc.
Proof.
  intros Ha Hab Hb. induction b as [|b IH]; [lia|].
  assert (b64_drop_threshold b < b64_drop_threshold (S b))%Qc as Hstep.
  { pose proof b64_drop_threshold_succ as H. rewrite Forall_forall in H.
    apply H, elem_of_seq. lia. }
  destruct (decide (a = b)) as [->|Hne]; [done|].
  apply Qclt_trans with (b64_drop_threshold b); [apply IH; lia | done].
Qed.

(** *** The initial record [-1.e60] is below every return *)

Lemma b64_realized_lower lookback open close rt dt i :
  log_prices open →
  (Qc_of_Z (-1455) ≤ b64_realized lookback open close rt dt i)%Qc.
Proof.
  intros Ho. unfold b64_realized. case_bool_decide; [|discriminate].
  destruct (rd_log_price open (i + 2) Ho) as [Hlo _].
  destruct (rd_log_price open (i + 1) Ho) as [_ Hhi].
  unfold B64.sub. apply fl_ge_int; [lia|].
  replace (Qc_of_Z (-1455)) with (Qc_of_Z (-745) + - Qc_of_Z 710)%Qc
    by (apply Qc_is_canon; reflexivity).
  unfold Qcminus. apply Qcplus_le_compat; [done|].
  by apply Qcopp_le_compat.
Qed.

Lemma b64_fold_add_lower (l : list Qc) : ∀ (total : Qc) (k : Z),
  Forall (λ x, (Qc_of_Z (-1455) ≤ x)%Qc) l →
  (0 ≤ k)%Z → (k + Z.of_nat (length l) ≤ 2147483647)%Z →
  (Qc_of_Z (-1455 * k) ≤ total)%Qc →
  (Qc_of_Z (-1455 * (k + Z.of_nat (length l))) ≤ fold_left B64.add l total)%Qc.
Proof.
  induction l as [|x l IH]; intros total k Hall Hk Hlen Htot;
    cbn [fold_left length] in *.
  - by rewrite Z.add_0_r.
  - apply Forall_cons in Hall as [Hx Hall].
    replace (k + Z.of_nat (S (length l)))%Z
      with ((k + 1) + Z.of_nat (length l))%Z by lia.
    apply IH; [done | lia | lia |].
    unfold B64.add. apply fl_ge_int; [lia|].
    replace (-1455 * (k + 1))%Z with (-1455 * k + -1455)%Z by lia.
    rewrite Z2Qc_inj_add. by apply Qcplus_le_compat.
Qed.

Lemma b64_cum_return_above_sentinel ncases lookback open close rt dt :
  log_prices open → (Z.of_nat ncases ≤ 2147483647)%Z →
  (B64.minus_1e60 < b64_cum_return ncases lookback open close rt dt)%Qc.
Proof.
  intros Ho Hn. unfold b64_cum_return, b64_sum.
  set (l := b64_realized lookback open close rt dt
              <$> spec_eval_range ncases lookback).
  assert (Z.of_nat (length l) ≤ 2147483647)%Z as Hlen.
  { unfold l, spec_eval_range. rewrite length_fmap, length_seq. lia. }
  eapply Qclt_le_trans;
    [|apply (b64_fold_add_lower l 0%Qc 0%Z); [| lia | lia | discriminate]].
  - rewrite b64_minus_1e60_value. apply (proj1 (Z2Qc_inj_lt _ _)). lia.
  - apply Forall_fmap, Forall_forall. intros i _.
    by apply b64_realized_lower.
Qed.

(** *** What the binary64 [opt_params] returns *)

(** On log prices some trial breaks the initial record, so [opt_params]
    ends on the first pair of the grid whose return is the largest. *)
Lemma b64_opt_params_first_max ncases lookback open close pr pd pn :
  log_prices open → (Z.of_nat ncases ≤ 2147483647)%Z →
  let v p := best_perf (b64_record ncases lookback open close p) in
  ∃ L1 p L2, spec_grid = L1 ++ p :: L2
    ∧ B64.opt_params ncases lookback open close pr pd pn
      = b64_record ncases lookback open close p
    ∧ (∀ q, q ∈ L1 → (v q < v p)%Qc)
    ∧ (∀ q, q ∈ L2 → (v q ≤ v p)%Qc).
Proof.
  intros Ho Hn v.
  destruct (b64_opt_params_cases ncases lookback open close pr pd pn)
    as [[_ Hall]|(L1 & p & L2 & Hsplit & Hres & _ & H1 & H2)].
  - exfalso. specialize (Hall (1, 1)). cbn [b64_record best_perf] in Hall.
    eapply Qcle_not_lt; [apply Hall; apply spec_grid_elem; lia|].
    by apply b64_cum_return_above_sentinel.
  - exists L1, p, L2. exact (conj Hsplit (conj Hres (conj H1 H2))).
Qed.

Lemma opt_out_this (o o' : opt_out) : opt_out_fields o = opt_out_fields o' → o = o'.
Proof.
  destruct o, o'. unfold opt_out_fields. cbn. intros [= Hp Hr Hd ->].
  apply Qc_decomp in Hp, Hr, Hd. by subst.
Qed.

(** At [open_threshold], [close_threshold] the rise at index 2 is the
    [double] nearest to 0.015.  It reaches the threshold [3 * 0.005] of the
    program, which is a [double] below 3/200, and the program returns the
    pair (3, 1) with a return of 0.5 from one position. *)
Example b64_opt_params_at_threshold :
  B64.opt_params 8 2 open_threshold close_threshold 0%Qc 0%Qc 0
  = {| best_perf := Q2Qc (1 # 2);
       opt_rise := Q2Qc (1080863910568919 # 72057594037927936);
       opt_drop := Q2Qc (1152921504606847 # 2305843009213693952);
       nlong := 1 |}.
Proof. apply opt_out_this. vm_compute. reflexivity. Qed.

(** The same search in exact arithmetic ends elsewhere: the rise is below
    3/200, and the best pair is (1, 1) with 0.25 from two positions.  This
    is why the statements on what [opt_params] returns are about [B64]. *)
Remark exact_opt_params_at_threshold :
  opt_params 8 2 open_threshold close_threshold 0%Qc 0%Qc 0
  = {| best_perf := Q2Qc (1 # 4);
       opt_rise := Q2Qc (1 # 200);
       opt_drop := Q2Qc (1 # 2000);
       nlong := 2 |}.
Proof. apply opt_out_this. vm_compute. reflexivity. Qed.

(** At [close_rounded_rise] the rise at index 2, [0.005004 - 4e-06], is
    0.005 after rounding: the program takes the position. *)
Example b64_opt_params_rounded_rise :
  B64.opt_params 5 2 open_rounded_rise close_rounded_rise 0%Qc 0%Qc 0
  = {| best_perf := Q2Qc (1 # 4);
       opt_rise := B64.rise_step;
       opt_drop := B64.drop_step;
       nlong := 1 |}.
Proof. apply opt_out_this. vm_compute. reflexivity. Qed.

Lemma open_threshold_log_prices : log_prices open_threshold.
Proof. apply (bool_decide_unpack _). vm_compute. exact I. Qed.

(** C7: on a series of [ncases] log prices, [opt_params] returns the
    largest, over the 2500 threshold pairs [(k * 0.005, k' * 0.0005)],
    [1 <= k, k' <= 50], of the cumulative return of the pair (the sum over
    [i] in [lookback .. ncases-3] of [open[i+2] - open[i+1]] where both
    conditions hold and 0 elsewhere); the thresholds it returns are a pair
    that achieves it, and the count it returns is the number of indices of
    the range where both conditions hold for that pair.  Products,
    differences and the sum are those of the program, in binary64, the sum
    in the order of the indices. *)
Theorem b64_opt_params_maximum ncases lookback open close pr pd pn :
  log_prices open → (Z.of_nat ncases ≤ 2147483647)%Z →
  let o := B64.opt_params ncases lookback open close pr pd pn in
  (∃ ir id, (1 ≤ ir ≤ 50 ∧ 1 ≤ id ≤ 50)
     ∧ opt_rise o = b64_rise_threshold ir
     ∧ opt_drop o = b64_drop_threshold id)
  ∧ best_perf o
    = b64_cum_return ncases lookback open close (opt_rise o) (opt_drop o)
  ∧ (∀ ir id, 1 ≤ ir ≤ 50 → 1 ≤ id ≤ 50 →
       (b64_cum_return ncases lookback open close
          (b64_rise_threshold ir) (b64_drop_threshold id) ≤ best_perf o)%Qc)
  ∧ nlong o = b64_long_count ncases lookback close (opt_rise o) (opt_drop o).
Proof.
  intros Ho Hn. cbv zeta.
  destruct (b64_opt_params_first_max ncases lookback open close pr pd pn Ho Hn)
    as (L1 & [ir0 id0] & L2 & Hsplit & Hres & H1 & H2).
  rewrite Hres. clear Hres.
  cbn [b64_record best_perf opt_rise opt_drop nlong fst snd] in H1, H2 |- *.
  assert ((ir0, id0) ∈ spec_grid) as Hin.
  { rewrite Hsplit. apply elem_of_app. right. apply elem_of_cons. by left. }
  split; [exists ir0, id0; split; [by apply spec_grid_elem in Hin | done]|].
  split; [done|]. split; [|done].
  intros ir id Hir Hid.
  assert ((ir, id) ∈ spec_grid) as Hq by (apply spec_grid_elem; lia).
  rewrite Hsplit in Hq.
  apply elem_of_app in Hq as [Hq|[Hq|Hq]%elem_of_cons].
  - apply Qclt_le_weak. exact (H1 _ Hq).
  - injection Hq as -> ->. apply Qcle_refl.
  - exact (H2 _ Hq).
Qed.

Lemma b64_opt_params_maximum_witness :
  log_prices open_threshold ∧ (Z.of_nat 8 ≤ 2147483647)%Z
  ∧ nlong (B64.opt_params 8 2 open_threshold close_threshold 0%Qc 0%Qc 0)
    = b64_long_count 8 2 close_threshold
        (opt_rise (B64.opt_params 8 2 open_threshold close_threshold 0%Qc 0%Qc 0))
        (opt_drop (B64.opt_params 8 2 open_threshold close_threshold 0%Qc 0%Qc 0)).
Proof.
  split; [exact open_threshold_log_prices|]. split; [lia|].
  exact (proj2 (proj2 (proj2
    (b64_opt_params_maximum 8 2 open_threshold close_threshold 0%Qc 0%Qc 0
       open_threshold_log_prices ltac:(lia))))).
Defined.

(** C4, counterexample: at [open_crash_b64], [close_crash_b64] each of the
    2500 pairs takes the one position of the range, at a return of [-1e61],
    which is not above the initial record [-1.e60].  All pairs achieve the
    same, hence the largest, return, the first of them is (1, 1), and
    [opt_params] returns the [opt_rise] and [opt_drop] it was called with,
    not the thresholds of that pair. *)
Lemma b64_opt_params_tie_unreturned :
  let o := B64.opt_params 5 2 open_crash_b64 close_crash_b64
             (Qc_of_Z 7) (Qc_of_Z 8) 9 in
  Forall (λ p, best_perf (b64_record 5 2 open_crash_b64 close_crash_b64 p)
               = best_perf (b64_record 5 2 open_crash_b64 close_crash_b64 (1, 1)))
    spec_grid
  ∧ opt_rise o = Qc_of_Z 7 ∧ opt_drop o = Qc_of_Z 8
  ∧ opt_rise o ≠ b64_rise_threshold 1
  ∧ opt_drop o ≠ b64_drop_threshold 1.
Proof.
  cbv zeta.
  assert (B64.opt_params 5 2 open_crash_b64 close_crash_b64
            (Qc_of_Z 7) (Qc_of_Z 8) 9
          = {| best_perf := B64.minus_1e60; opt_rise := Qc_of_Z 7;
               opt_drop := Qc_of_Z 8; nlong := 9 |}) as ->
    by (apply opt_out_this; vm_compute; reflexivity).
  cbn [opt_rise opt_drop].
  split; [apply (bool_decide_unpack _); vm_compute; exact I|].
  split; [done|]. split; [done|].
  split; intros H; apply (f_equal this) in H; vm_compute in H; discriminate H.
Qed.

(** C4, as the code has it: on a series of log prices the pair
    [opt_params] returns is the first pair, in the order rise ascending then drop ascending, that
    achieves the largest cumulative return: any other pair of the grid with
    that return has a larger rise threshold, or the same rise threshold and
    a larger drop threshold.  Returns and thresholds are those of the
    program, in binary64. *)
Theorem b64_opt_params_tie_break ncases lookback open close pr pd pn :
  log_prices open → (Z.of_nat ncases ≤ 2147483647)%Z →
  let o := B64.opt_params ncases lookback open close pr pd pn in
  let ret ir id := b64_cum_return ncases lookback open close
                     (b64_rise_threshold ir) (b64_drop_threshold id) in
  ∃ ir0 id0, (1 ≤ ir0 ≤ 50 ∧ 1 ≤ id0 ≤ 50)
    ∧ opt_rise o = b64_rise_threshold ir0
    ∧ opt_drop o = b64_drop_threshold id0
    ∧ best_perf o = ret ir0 id0
    ∧ (∀ ir id, 1 ≤ ir ≤ 50 → 1 ≤ id ≤ 50 → (ret ir id ≤ ret ir0 id0)%Qc)
    ∧ ∀ ir id, 1 ≤ ir ≤ 50 → 1 ≤ id ≤ 50 → ret ir id = ret ir0 id0 →
        (ir0 < ir ∨ (ir0 = ir ∧ id0 ≤ id))
        ∧ (opt_rise o ≤ b64_rise_threshold ir)%Qc
        ∧ (b64_rise_threshold ir = opt_rise o →
           (opt_drop o ≤ b64_drop_threshold id)%Qc).
Proof.
  intros Ho Hn. cbv zeta.
  destruct (b64_opt_params_first_max ncases lookback open close pr pd pn Ho Hn)
    as (L1 & [ir0 id0] & L2 & Hsplit & Hres & H1 & H2).
  rewrite Hres. clear Hres.
  cbn [b64_record best_perf opt_rise opt_drop nlong fst snd] in H1, H2 |- *.
  assert ((ir0, id0) ∈ spec_grid) as Hin.
  { rewrite Hsplit. apply elem_of_app. right. apply elem_of_cons. by left. }
  apply spec_grid_elem in Hin as Hin0.
  exists ir0, id0. split; [done|].
  do 3 (split; [done|]).
  assert (∀ ir id, 1 ≤ ir ≤ 50 → 1 ≤ id ≤ 50 →
            (ir, id) ∈ L1 ∨ (ir, id) = (ir0, id0) ∨ (ir, id) ∈ L2) as Hcases.
  { intros ir id Hir Hid.
    assert ((ir, id) ∈ spec_grid) as Hq by (apply spec_grid_elem; lia).
    rewrite Hsplit in Hq.
    apply elem_of_app in Hq as [Hq|[Hq|Hq]%elem_of_cons]; auto. }
  split.
  - intros ir id Hir Hid.
    destruct (Hcases ir id Hir Hid) as [Hq|[Hq|Hq]].
    + apply Qclt_le_weak. exact (H1 _ Hq).
    + injection Hq as -> ->. apply Qcle_refl.
    + exact (H2 _ Hq).
  - intros ir id Hir Hid Heq.
    assert (ir0 < ir ∨ (ir0 = ir ∧ id0 ≤ id)) as Hord.
    { destruct (Hcases ir id Hir Hid) as [Hq|[Hq|Hq]].
      - exfalso. apply (Qclt_not_eq _ _ (H1 _ Hq)). exact Heq.
      - injection Hq as -> ->. right. split; [done | lia].
      - pose proof (spec_grid_after _ _ _ _ Hsplit Hq) as Hb.
        unfold tried_before in Hb; cbn [fst snd] in Hb. lia. }
    split; [done|]. split.
    + destruct Hord as [Hlt|[-> _]]; [|apply Qcle_refl].
      apply Qclt_le_weak, b64_rise_threshold_lt; lia.
    + intros Hrise. destruct Hord as [Hlt|[_ Hle]].
      * exfalso. apply b64_rise_threshold_lt in Hlt; [|lia..].
        rewrite Hrise in Hlt. by apply Qclt_not_eq in Hlt.
      * destruct (decide (id0 = id)) as [->|Hne]; [apply Qcle_refl|].
        apply Qclt_le_weak, b64_drop_threshold_lt; lia.
Qed.

Lemma b64_opt_params_tie_break_witness :
  log_prices open_threshold ∧ (Z.of_nat 8 ≤ 2147483647)%Z
  ∧ ∃ ir0 id0, (1 ≤ ir0 ≤ 50 ∧ 1 ≤ id0 ≤ 50)
      ∧ opt_rise (B64.opt_params 8 2 open_threshold close_threshold 0%Qc 0%Qc 0)
        = b64_rise_threshold ir0
      ∧ opt_drop (B64.opt_params 8 2 open_threshold close_threshold 0%Qc 0%Qc 0)
        = b64_drop_threshold id0.
Proof.
  split; [exact open_threshold_log_prices|]. split; [lia|].
  destruct (b64_opt_params_tie_break 8 2 open_threshold close_threshold
              0%Qc 0%Qc 0 open_threshold_log_prices ltac:(lia))
    as (ir0 & id0 & Hin & Hr & Hd & _).
  exists ir0, id0. exact (conj Hin (conj Hr Hd)).
Defined.

(** At [open_absorbed], [close_absorbed] four positions are taken.  The
    exact sum of their returns is below [-1e60]; the sum of the program,
    rounded at each addition, is above the [double] [-1.e60] and breaks the
    initial record. *)
Example b64_opt_params_absorbed :
  B64.opt_params 11 2 open_absorbed close_absorbed 0%Qc 0%Qc 0
  = {| best_perf :=
         Qc_of_Z (-999999999999999770981173708829033734677898829826518025240576);
       opt_rise := B64.rise_step;
       opt_drop := B64.drop_step;
       nlong := 4 |}.
Proof. apply opt_out_this. vm_compute. reflexivity. Qed.

(** ** The permutation routines in binary64 *)

Lemma bars_this (b b' : bars) : bars_fields b = bars_fields b' → b = b'.
Proof.
  destruct b, b'. unfold bars_fields. cbn. intros [= Ho Hh Hl Hc].
  apply Qc_list_this in Ho, Hh, Hl, Hc. by subst.
Qed.

Lemma b64_permute_cycles_S n nc flag b r st :
  b64_permute_cycles (S n) nc flag b r st
  = let '(b', r', st') := B64.do_permute nc flag b r st in
    b64_permute_cycles n nc flag b' r' st'.
Proof. reflexivity. Qed.

(** With three bars and the flag set neither loop of [do_permute] runs: no
    word is drawn, no move exchanged, and the prices are rebuilt from the
    moves as they are. *)
Lemma b64_do_permute_three b r st :
  B64.do_permute 3 1 b r st = (B64.rebuild 3 r b, r, st).
Proof. reflexivity. Qed.

Lemma b64_window_rebuilt :
  B64.rebuild 3 (B64.prepare_permute 3 window_b64 work_b64) window_b64
  = window_rebuilt_b64
  ∧ B64.rebuild 3 (B64.prepare_permute 3 window_b64 work_b64)
      window_rebuilt_b64
    = window_rebuilt_b64.
Proof. split; apply bars_this; vm_compute; reflexivity. Qed.

Lemma b64_window_cycles n : ∀ b st,
  b = window_b64 ∨ b = window_rebuilt_b64 →
  b64_permute_cycles (S n) 3 1 b
    (B64.prepare_permute 3 window_b64 work_b64) st
  = (window_rebuilt_b64, B64.prepare_permute 3 window_b64 work_b64, st).
Proof.
  destruct b64_window_rebuilt as [H1 H2].
  induction n as [|n IH]; intros b st Hb;
    rewrite b64_permute_cycles_S, b64_do_permute_three.
  - cbn [b64_permute_cycles]. by destruct Hb as [->| ->]; rewrite ?H1, ?H2.
  - rewrite IH; [done|]. right. by destruct Hb as [->| ->]; rewrite ?H1, ?H2.
Qed.

(** C2, at the failing input: three bars at 0.4, the last one closing at
    0.1, the moves [prepare_permute] stores for them, and any generator
    state.  After any number [S n] of calls of [do_permute] with
    [preserve_OO = 1] the first bar's open and close are those of the input,
    and the last bar's close is not: [0.1 - 0.4] is stored rounded, and
    [0.4 + (0.1 - 0.4)] is 0.09999999999999998, one unit in the last place
    below the input's 0.1. *)
Theorem b64_last_close_changes (n : nat) (st : Rng.state) :
  let r := B64.prepare_permute 3 window_b64 work_b64 in
  let b' := (b64_permute_cycles (S n) 3 1 window_b64 r st).1.1 in
  rd (open b') 0 = rd (open window_b64) 0
  ∧ rd (close b') 0 = rd (close window_b64) 0
  ∧ rd (close window_b64) 2 = Q2Qc (3602879701896397 # 36028797018963968)
  ∧ rd (close b') 2 = Q2Qc (900719925474099 # 9007199254740992)
  ∧ rd (close b') 2 ≠ rd (close window_b64) 2.
Proof.
  cbv zeta. rewrite b64_window_cycles by (by left). cbn [fst].
  split; [done|]. split; [done|].
  split; [apply b64_value; vm_compute; reflexivity|].
  split; [done|].
  intros H. apply (f_equal this) in H. vm_compute in H. discriminate H.
Qed.

(** The same on a window as [main] passes it, twelve bars at multiples of
    0.001 and the generator as the program starts it: after the second
    permutation the last close, 0.09 in the input, is one unit in the last
    place higher. *)
Lemma b64_series_last_close_changes :
  let r := B64.prepare_permute 12 series_b64 series_work_b64 in
  let b' := (b64_permute_cycles 2 12 1 series_b64 r Rng.initial).1.1 in
  rd (close series_b64) 11 = Q2Qc (3242591731706757 # 36028797018963968)
  ∧ rd (close b') 11 = Q2Qc (6485183463413515 # 72057594037927936).
Proof. split; apply b64_value; vm_compute; reflexivity. Qed.

(** * Further properties *)

(** ** The generator *)

Section generator_more.
Import Rng.

Lemma fill_table_length n : ∀ k j q, length (fill_table n k j q) = length q.
Proof.
  induction n as [|n IH]; intros k j q; cbn [fill_table]; [done|].
  by rewrite IH, length_insert.
Qed.

Lemma Forall_insert_word (q : list Z) k x :
  Forall (λ q, (0 ≤ q < 2 ^ 32)%Z) q → (0 ≤ x < 2 ^ 32)%Z →
  Forall (λ q, (0 ≤ q < 2 ^ 32)%Z) (<[k := x]> q).
Proof.
  intros Hq Hx. apply Forall_lookup. intros i y Hi.
  rewrite list_lookup_insert in Hi. case_decide.
  - by injection Hi as <-.
  - by apply (Forall_lookup_1 _ _ _ _ Hq Hi).
Qed.

Lemma fill_table_words n : ∀ k j q,
  Forall (λ q, (0 ≤ q < 2 ^ 32)%Z) q →
  Forall (λ q, (0 ≤ q < 2 ^ 32)%Z) (fill_table n k j q).
Proof.
  induction n as [|n IH]; intros k j q Hq; cbn [fill_table]; [done|].
  apply IH, Forall_insert_word; [done|].
  apply Z.mod_pos_bound. lia.
Qed.

(** The table after the seeding loop: word [k] is the seed stepped [k+1]
    times through the congruential generator. *)
Lemma fill_table_lookup n : ∀ k j q i,
  k + n ≤ length q →
  fill_table n k j q !! i =
  if decide (k ≤ i < k + n) then Some (Nat.iter (S (i - k)) lcg j) else q !! i.
Proof.
  induction n as [|n IH]; intros k j q i Hlen; cbn [fill_table].
  - by rewrite decide_False by lia.
  - rewrite IH by (rewrite length_insert; lia).
    destruct (decide (i = k)) as [->|Hne].
    + rewrite decide_False by lia. rewrite decide_True by lia.
      rewrite list_lookup_insert_eq by lia.
      by replace (k - k) with 0 by lia.
    + rewrite list_lookup_insert_ne by done.
      destruct (decide (k ≤ i < k + S n)).
      * rewrite decide_True by lia. f_equal.
        replace (i - k) with (S (i - S k)) by lia.
        change ((69069 * j + 12345) mod 2 ^ 32)%Z with (lcg j).
        by rewrite <-Nat.iter_succ_r.
      * by rewrite decide_False by lia.
Qed.

Lemma ensure_initialized_wf st : rng_wf st → rng_wf (ensure_initialized st).
Proof.
  intros (Hlen & Hw & Hc & Hi). unfold ensure_initialized.
  destruct (MWC256_initialized st); [done|].
  unfold rng_wf. cbn [Qtab carry RAND32M_i].
  rewrite fill_table_length. split; [done|]. split; [|done].
  by apply fill_table_words.
Qed.

Lemma RAND32M_seed_wf s st : rng_wf st → rng_wf (RAND32M_seed s st).
Proof. done. Qed.

Lemma initial_wf : rng_wf initial.
Proof.
  unfold rng_wf, initial. cbn [Qtab carry RAND32M_i].
  split; [by rewrite length_replicate|].
  split; [|lia]. apply Forall_replicate. lia.
Qed.

(** The 64-bit sum [a * Q[i] + carry] of a well-formed state. *)
Lemma mwc_sum_bounds (q c : Z) :
  (0 ≤ q < 2 ^ 32)%Z → (0 ≤ c < 809430660)%Z →
  (0 ≤ 809430660 * q + c < 809430660 * 2 ^ 32)%Z.
Proof. lia. Qed.

Lemma table_word st k :
  rng_wf st → (0 ≤ k < 256)%Z → (0 ≤ Qtab st !!! Z.to_nat k < 2 ^ 32)%Z.
Proof.
  intros (Hlen & Hw & _) Hk.
  apply (Forall_lookup_total_1 _ _ _ Hw). lia.
Qed.

(** The two halves of a 64-bit sum below [809430660 * 2^32], as [RAND32M]
    takes them: [t & 0xFFFFFFFF] and [(unsigned int) (t >> 32)]. *)
Lemma mwc_halves (t : Z) :
  (0 ≤ t < 809430660 * 2 ^ 32)%Z →
  (Z.land (t mod 2 ^ 64) 4294967295
   + 2 ^ 32 * (Z.shiftr (t mod 2 ^ 64) 32 mod 2 ^ 32) = t
   ∧ 0 ≤ Z.land (t mod 2 ^ 64) 4294967295 < 2 ^ 32
   ∧ 0 ≤ Z.shiftr (t mod 2 ^ 64) 32 mod 2 ^ 32 < 809430660)%Z.
Proof.
  intros Ht.
  rewrite (Z.mod_small t (2 ^ 64)) by lia.
  change 4294967295%Z with (Z.ones 32). rewrite Z.land_ones by lia.
  rewrite Z.shiftr_div_pow2 by lia.
  assert (0 ≤ t / 2 ^ 32 < 809430660)%Z as Hhi
    by (split; [apply Z.div_pos; lia | apply Z.div_lt_upper_bound; lia]).
  rewrite (Z.mod_small (t / 2 ^ 32)) by lia.
  pose proof (Z.div_mod t (2 ^ 32) ltac:(lia)) as Hdm.
  pose proof (Z.mod_pos_bound t (2 ^ 32) ltac:(lia)).
  lia.
Qed.

Lemma ensure_initialized_carry_index st :
  RAND32M_i (ensure_initialized st) = RAND32M_i st
  ∧ carry (ensure_initialized st) = carry st.
Proof. unfold ensure_initialized. by destruct (MWC256_initialized st). Qed.

(** The sum [RAND32M] forms on a well-formed state fits 64 bits with room
    to spare. *)
Lemma RAND32M_sum_bounds st :
  rng_wf st →
  (0 ≤ 809430660
       * (Qtab (ensure_initialized st)
            !!! Z.to_nat ((RAND32M_i st + 1) mod 256))
       + carry st < 809430660 * 2 ^ 32)%Z.
Proof.
  intros Hwf.
  pose proof (ensure_initialized_wf st Hwf) as Hwf0.
  assert (0 ≤ (RAND32M_i st + 1) mod 256 < 256)%Z as Hi
    by (apply Z.mod_pos_bound; lia).
  pose proof (table_word _ _ Hwf0 Hi) as Hq.
  destruct Hwf as (_ & _ & Hc & _).
  by apply mwc_sum_bounds.
Qed.

Lemma RAND32M_carry_bound st :
  rng_wf st → (0 ≤ carry (snd (RAND32M st)) < 809430660)%Z.
Proof.
  intros Hwf. pose proof (RAND32M_sum_bounds st Hwf) as Ht.
  destruct (ensure_initialized_carry_index st) as [Ei Ec].
  unfold RAND32M. cbn [snd carry]. rewrite Ei, Ec.
  by destruct (mwc_halves _ Ht) as (_ & _ & ?).
Qed.

(** X1: on a well-formed state the 64-bit operation of [RAND32M] is exact:
    the word returned and the new carry are the low and the high half of
    [809430660 * Q[i] + carry], for the incremented index [i] and the table
    as seeded. *)
Theorem RAND32M_recurrence st :
  rng_wf st →
  let st0 := ensure_initialized st in
  let i := ((RAND32M_i st + 1) mod 256)%Z in
  (fst (RAND32M st) + 2 ^ 32 * carry (snd (RAND32M st))
   = 809430660 * (Qtab st0 !!! Z.to_nat i) + carry st)%Z
  ∧ (0 ≤ fst (RAND32M st) < 2 ^ 32)%Z
  ∧ (0 ≤ carry (snd (RAND32M st)) < 809430660)%Z.
Proof.
  intros Hwf. cbv zeta.
  pose proof (RAND32M_sum_bounds st Hwf) as Ht.
  destruct (ensure_initialized_carry_index st) as [Ei Ec].
  unfold RAND32M. cbn [fst snd carry]. rewrite Ei, Ec.
  exact (mwc_halves _ Ht).
Qed.

Lemma RAND32M_recurrence_witness :
  rng_wf initial
  ∧ (fst (RAND32M initial) + 2 ^ 32 * carry (snd (RAND32M initial))
     = 809430660 * (Qtab (ensure_initialized initial) !!! Z.to_nat ((255 + 1) mod 256))
       + 362436)%Z.
Proof.
  split; [exact initial_wf|].
  exact (proj1 (RAND32M_recurrence initial initial_wf)).
Defined.

Lemma RAND32M_wf st : rng_wf st → rng_wf (snd (RAND32M st)).
Proof.
  intros Hwf.
  pose proof (RAND32M_range st) as Hout.
  pose proof (RAND32M_carry_bound st Hwf) as Hcarry.
  pose proof (ensure_initialized_wf st Hwf) as (Hlen & Hw & _ & _).
  unfold RAND32M in *. cbn [fst snd carry Qtab RAND32M_i] in *.
  unfold rng_wf. cbn [Qtab carry RAND32M_i].
  rewrite length_insert. split; [done|].
  split; [apply Forall_insert_word; [done | lia]|].
  split; [done|]. apply Z.mod_pos_bound. lia.
Qed.

Lemma draws_length n : ∀ st, length (fst (draws n st)) = n.
Proof.
  induction n as [|n IH]; intros st; cbn [draws]; [done|].
  destruct (RAND32M st) as [r st1] eqn:Hr.
  specialize (IH st1). destruct (draws n st1) as [rs st2].
  cbn [fst length] in *. by rewrite IH.
Qed.

Lemma RAND32M_index st :
  RAND32M_i (snd (RAND32M st)) = ((RAND32M_i st + 1) mod 256)%Z.
Proof.
  unfold RAND32M. cbn [snd RAND32M_i].
  unfold ensure_initialized. by destruct (MWC256_initialized st).
Qed.

(** X2: a stream of [n] calls from a well-formed state returns [n] words of
    32 bits and leaves a well-formed state (table of 256 words of 32 bits,
    carry below the multiplier 809430660), with the index advanced by [n]
    modulo 256. *)
Theorem draws_wf n : ∀ st,
  rng_wf st →
  length (fst (draws n st)) = n
  ∧ Forall (λ r, (0 ≤ r < 2 ^ 32)%Z) (fst (draws n st))
  ∧ rng_wf (snd (draws n st))
  ∧ RAND32M_i (snd (draws n st)) = ((RAND32M_i st + Z.of_nat n) mod 256)%Z.
Proof.
  induction n as [|n IH]; intros st Hwf.
  - cbn [draws fst snd length]. split; [done|]. split; [done|].
    split; [done|]. destruct Hwf as (_ & _ & _ & Hi).
    rewrite Z.add_0_r, Z.mod_small; lia.
  - pose proof (RAND32M_wf st Hwf) as Hwf1.
    pose proof (RAND32M_range st) as Hout.
    pose proof (RAND32M_index st) as Hidx.
    cbn [draws]. destruct (RAND32M st) as [r st1].
    cbn [fst snd] in Hwf1, Hout, Hidx.
    destruct (IH st1 Hwf1) as (Hl & Hr & Hw & Hi).
    destruct (draws n st1) as [rs st2]. cbn [fst snd length] in *.
    split; [by rewrite Hl|]. split; [constructor; [lia | done]|].
    split; [done|].
    rewrite Hi, Hidx, Zplus_mod_idemp_l. f_equal. lia.
Qed.

Lemma draws_wf_witness :
  rng_wf initial
  ∧ RAND32M_i (snd (draws 300 initial)) = ((255 + Z.of_nat 300) mod 256)%Z.
Proof.
  split; [exact initial_wf|].
  exact (proj2 (proj2 (proj2 (draws_wf 300 initial initial_wf)))).
Defined.

(** X3: the first call after seeding (or the first call of the program)
    fills the whole table from the seed: word [k] is the seed, as an
    [unsigned int], stepped [k+1] times through [j = 69069 * j + 12345];
    carry and index are left as they were. *)
Theorem seeding_fills_table st k :
  MWC256_initialized st = false → length (Qtab st) = 256 → k < 256 →
  Qtab (ensure_initialized st) !! k
  = Some (Nat.iter (S k) lcg (MWC256_seed st mod 2 ^ 32)%Z)
  ∧ carry (ensure_initialized st) = carry st
  ∧ RAND32M_i (ensure_initialized st) = RAND32M_i st
  ∧ MWC256_initialized (ensure_initialized st) = true.
Proof.
  intros Hinit Hlen Hk. unfold ensure_initialized. rewrite Hinit.
  cbn [Qtab carry RAND32M_i MWC256_initialized].
  split; [|done].
  rewrite fill_table_lookup by lia. rewrite decide_True by lia.
  by rewrite Nat.sub_0_r.
Qed.

Lemma seeding_fills_table_witness :
  MWC256_initialized initial = false ∧ length (Qtab initial) = 256 ∧ 1 < 256
  ∧ Qtab (ensure_initialized initial) !! 1
    = Some (Nat.iter 2 lcg (MWC256_seed initial mod 2 ^ 32)%Z).
Proof.
  split; [reflexivity|]. split; [reflexivity|]. split; [lia|].
  exact (proj1 (seeding_fills_table initial 1 eq_refl eq_refl ltac:(lia))).
Defined.

(** X4: after [RAND32M_seed], what the stream returns depends on the seed,
    the carry and the index only: the table in place before is overwritten
    by the first call, so two states that differ in their tables alone give
    the same outputs and end in the same state. *)
Theorem seeded_stream_ignores_table n s st1 st2 :
  length (Qtab st1) = 256 → length (Qtab st2) = 256 →
  carry st1 = carry st2 → RAND32M_i st1 = RAND32M_i st2 →
  fst (draws n (RAND32M_seed s st1)) = fst (draws n (RAND32M_seed s st2))
  ∧ (0 < n → snd (draws n (RAND32M_seed s st1))
             = snd (draws n (RAND32M_seed s st2))).
Proof.
  intros H1 H2 Hc Hi. destruct n as [|n]; [split; [done | lia]|].
  cbn [draws]. unfold RAND32M.
  by rewrite (ensure_initialized_seed s st1 st2).
Qed.

Lemma seeded_stream_ignores_table_witness :
  length (Qtab initial) = 256 ∧ length (Qtab used_state) = 256
  ∧ carry initial = carry used_state
  ∧ RAND32M_i initial = RAND32M_i used_state
  ∧ Qtab initial ≠ Qtab used_state
  ∧ fst (draws 5 (RAND32M_seed 42 initial))
    = fst (draws 5 (RAND32M_seed 42 used_state)).
Proof.
  split; [reflexivity|]. split; [reflexivity|].
  split; [reflexivity|]. split; [reflexivity|].
  split; [vm_compute; discriminate|].
  exact (proj1 (seeded_stream_ignores_table 5 42 initial used_state
                  eq_refl eq_refl eq_refl eq_refl)).
Defined.

Lemma pick_rng i st : snd (pick i st) = snd (RAND32M st).
Proof.
  unfold pick. rewrite unifrand_RAND32M.
  by destruct (RAND32M st) as [r st1].
Qed.

End generator_more.

(** ** Permutation routines *)

Section generator_use.
Import Rng.

Lemma draws_snd_app a : ∀ b st,
  snd (draws (a + b) st) = snd (draws b (snd (draws a st))).
Proof.
  induction a as [|a IH]; intros b st; [done|].
  cbn [Nat.add draws]. destruct (RAND32M st) as [r st1].
  specialize (IH b st1).
  destruct (draws (a + b) st1) as [rs st2].
  destruct (draws a st1) as [rs' st2']. cbn [fst snd] in *. done.
Qed.

Lemma draws_snd_S n st :
  snd (draws (S n) st) = snd (draws n (snd (RAND32M st))).
Proof.
  cbn [draws]. destruct (RAND32M st) as [r st1]. cbn [snd].
  by destruct (draws n st1).
Qed.

(** A shuffling loop started at count [n] calls the generator [n - 1]
    times. *)
Lemma shuffle_loop_rng {T} (exch : nat → nat → T → T) n : ∀ st s,
  snd (shuffle_loop exch n st s) = snd (draws (n - 1) st).
Proof.
  induction n as [|n IH]; intros st s; cbn [shuffle_loop]; [done|].
  case_decide as Hn.
  - pose proof (pick_rng (S n) st) as Hst.
    destruct (pick (S n) st) as [j st']. cbn [snd] in Hst. subst st'.
    rewrite IH. replace (S n - 1) with (S (n - 1)) by lia.
    by rewrite draws_snd_S.
  - by replace (S n - 1) with 0 by lia.
Qed.

Lemma shuffle_rng nc flag r st :
  snd (shuffle nc flag r st)
  = snd (draws (2 * (nc - 1 - normalize_flag flag - 1)) st).
Proof.
  unfold shuffle.
  pose proof (shuffle_loop_rng (exch_open (normalize_flag flag))
                (nc - 1 - normalize_flag flag) st r) as H1.
  destruct (shuffle_loop (exch_open _) _ st r) as [r1 st1]. cbn [snd] in H1.
  rewrite shuffle_loop_rng, H1.
  replace (2 * (nc - 1 - normalize_flag flag - 1))
    with ((nc - 1 - normalize_flag flag - 1) + (nc - 1 - normalize_flag flag - 1))
    by lia.
  by rewrite draws_snd_app.
Qed.

(** X6: [do_permute] on a window of [nc] bars calls the generator exactly
    [2 * (nc - 2 - p)] times when that is positive ([p] is 1 with
    [preserve_OO] set, else 0) and not at all otherwise, whatever the
    prices: the state it leaves is the state after that many calls of
    [RAND32M]. *)
Theorem do_permute_draw_count nc flag b r st :
  snd (do_permute nc flag b r st)
  = snd (draws (2 * (nc - 1 - normalize_flag flag - 1)) st).
Proof.
  rewrite do_permute_unfold. cbn [snd]. apply shuffle_rng.
Qed.

End generator_use.

Lemma same_outside_all {A} a (l' l : list A) n :
  same_outside a a l' l → same_outside 0 n l' l.
Proof. intros Hs k _. apply Hs. lia. Qed.

(** X11: the footprint of [do_permute] on a window of [nc] bars: no array
    changes its size; of the price arrays only bars [1 .. nc-1] are
    written (the basis bar 0 and anything stored after the window stay);
    of the work arrays only entries [0 .. nc-2]. *)
Theorem do_permute_footprint nc flag b r st :
  1 ≤ nc → bars_hold nc b → rels_hold (nc - 1) r →
  let b' := (do_permute nc flag b r st).1.1 in
  let r' := (do_permute nc flag b r st).1.2 in
  (length (open b') = length (open b) ∧ length (high b') = length (high b)
   ∧ length (low b') = length (low b) ∧ length (close b') = length (close b))
  ∧ (same_outside 1 nc (open b') (open b) ∧ same_outside 1 nc (high b') (high b)
     ∧ same_outside 1 nc (low b') (low b) ∧ same_outside 1 nc (close b') (close b))
  ∧ (length (rel_open r') = length (rel_open r)
     ∧ length (rel_high r') = length (rel_high r)
     ∧ length (rel_low r') = length (rel_low r)
     ∧ length (rel_close r') = length (rel_close r))
  ∧ (same_outside 0 (nc - 1) (rel_open r') (rel_open r)
     ∧ same_outside 0 (nc - 1) (rel_high r') (rel_high r)
     ∧ same_outside 0 (nc - 1) (rel_low r') (rel_low r)
     ∧ same_outside 0 (nc - 1) (rel_close r') (rel_close r)).
Proof.
  intros Hnc Hb Hr. cbv zeta. rewrite do_permute_unfold. cbn [fst snd].
  pose proof (normalize_flag_le_1 flag) as Hp.
  pose proof (shuffle_spec nc flag r st Hr) as (So & Sh & Sl & Sc & _).
  cbv zeta in So, Sh, Sl, Sc.
  set (r' := (shuffle nc flag r st).1) in *.
  set (p := normalize_flag flag) in *.
  unfold rebuild.
  destruct (rebuild_loop_spec r' (nc - 1) 1 b) as (Hlen & Hout & _).
  { lia. }
  { destruct Hb as (? & ? & ? & ?). unfold bars_hold. lia. }
  cbv zeta in Hlen, Hout. replace (1 + (nc - 1)) with nc in Hout by lia.
  split; [done|]. split; [done|].
  split.
  { by rewrite (shuffled_within_length _ _ _ _ So),
      (shuffled_within_length _ _ _ _ Sh), (shuffled_within_length _ _ _ _ Sl),
      (shuffled_within_length _ _ _ _ Sc). }
  destruct So as [_ So], Sh as [_ Sh], Sl as [_ Sl], Sc as [_ Sc].
  destruct (decide (p ≤ nc - 1)) as [Hle|Hgt].
  - repeat split;
      [apply (same_outside_mono p (p + (nc - 1 - p)))
      |apply (same_outside_mono 0 (nc - 1 - p))
      |apply (same_outside_mono 0 (nc - 1 - p))
      |apply (same_outside_mono 0 (nc - 1 - p))]; (done || lia).
  - replace (nc - 1 - p) with 0 in * by lia. rewrite Nat.add_0_r in So.
    repeat split; eapply same_outside_all; eassumption.
Qed.

Lemma do_permute_footprint_witness :
  1 ≤ 4 ∧ bars_hold 4 window_example ∧ rels_hold (4 - 1) moves_example
  ∧ length (close (do_permute 4 1 window_example moves_example Rng.initial).1.1)
    = length (close window_example).
Proof.
  assert (bars_hold 4 window_example) as Hb by (unfold bars_hold; cbn; lia).
  assert (rels_hold (4 - 1) moves_example) as Hr by (unfold rels_hold; cbn; lia).
  split; [lia|]. split; [exact Hb|]. split; [exact Hr|].
  exact (proj2 (proj2 (proj2 (proj1
    (do_permute_footprint 4 1 window_example moves_example Rng.initial
       ltac:(lia) Hb Hr))))).
Defined.

(** ** The optimiser *)

Lemma filter_none {A} (P : A → Prop) `{!∀ x, Decision (P x)} (l : list A) :
  Forall (λ x, ¬ P x) l → filter P l = [].
Proof.
  induction 1 as [|x l Hx _ IH]; [done|].
  rewrite filter_cons. by rewrite decide_False.
Qed.

Lemma spec_grid_head : ∃ L, spec_grid = (1, 1) :: L.
Proof. eexists. vm_compute. reflexivity. Qed.

(** *** The search in binary64 *)

Lemma b64_threshold_1 :
  b64_rise_threshold 1 = B64.rise_step ∧ b64_drop_threshold 1 = B64.drop_step.
Proof. split; apply Qc_is_canon; vm_compute; reflexivity. Qed.

Lemma b64_rise_threshold_ge_1 k :
  1 ≤ k ≤ 50 → (b64_rise_threshold 1 ≤ b64_rise_threshold k)%Qc.
Proof.
  intros Hk. destruct (decide (k = 1)) as [->|Hne]; [apply Qcle_refl|].
  apply Qclt_le_weak, b64_rise_threshold_lt; lia.
Qed.

Lemma b64_drop_threshold_ge_1 k :
  1 ≤ k ≤ 50 → (b64_drop_threshold 1 ≤ b64_drop_threshold k)%Qc.
Proof.
  intros Hk. destruct (decide (k = 1)) as [->|Hne]; [apply Qcle_refl|].
  apply Qclt_le_weak, b64_drop_threshold_lt; lia.
Qed.

(** A signal at stricter thresholds is a signal at laxer ones. *)
Lemma b64_long_mono lookback close rt dt rt' dt' i :
  (rt ≤ rt')%Qc → (dt ≤ dt')%Qc →
  b64_long lookback close rt' dt' i → b64_long lookback close rt dt i.
Proof. intros Hr Hd [H1 H2]. split; eapply Qcle_trans; eassumption. Qed.

Lemma b64_sum_zero (l : list Qc) : Forall (λ x, x = 0%Qc) l → b64_sum l = 0%Qc.
Proof.
  unfold b64_sum. induction 1 as [|x l -> _ IH]; cbn [fold_left]; [done|].
  by rewrite b64_add_0_0.
Qed.

(** What the search returns when every pair of the grid has the same
    return [v], above the initial record: the first pair. *)
Lemma b64_opt_params_all_equal ncases lookback open close pr pd pn (v : Qc) :
  (B64.minus_1e60 < v)%Qc →
  (∀ p, p ∈ spec_grid →
        best_perf (b64_record ncases lookback open close p) = v) →
  B64.opt_params ncases lookback open close pr pd pn
  = b64_record ncases lookback open close (1, 1).
Proof.
  intros Hv Hall. destruct spec_grid_head as [L HL].
  destruct (b64_opt_params_cases ncases lookback open close pr pd pn)
    as [[_ Hle]|(L1 & p & L2 & Hsplit & Hres & _ & H1 & _)].
  - exfalso. specialize (Hle (1, 1)).
    rewrite Hall in Hle by (apply spec_grid_elem; lia).
    eapply Qcle_not_lt; [apply Hle; apply spec_grid_elem; lia | exact Hv].
  - rewrite Hres. destruct L1 as [|q L1].
    + rewrite HL in Hsplit. by injection Hsplit as <- _.
    + exfalso. specialize (H1 q ltac:(by left)).
      rewrite !Hall in H1.
      * exact (Qclt_not_eq _ _ H1 eq_refl).
      * rewrite Hsplit. apply elem_of_app. right. by left.
      * rewrite Hsplit. by left.
Qed.

(** X12: when no index of the evaluation range gives a signal at the
    lowest thresholds (0.005, 0.0005) - in particular when the range is
    empty, [ncases <= lookback + 2], or when the closes never drop -
    [opt_params] returns a zero return, zero long positions and that lowest
    pair: all 2500 trials tie at zero and the first one keeps the record.
    The signal is the program's: the rounded differences of closes against
    the [double]s 0.005 and 0.0005. *)
Theorem b64_opt_params_no_signal ncases lookback open close pr pd pn :
  Forall (λ i, B64.signal lookback close B64.rise_step B64.drop_step i = false)
    (spec_eval_range ncases lookback) →
  B64.opt_params ncases lookback open close pr pd pn
  = {| best_perf := 0%Qc; opt_rise := B64.rise_step;
       opt_drop := B64.drop_step; nlong := 0 |}.
Proof.
  intros Hno.
  destruct b64_threshold_1 as [Er Ed].
  assert (∀ ir id i, 1 ≤ ir ≤ 50 → 1 ≤ id ≤ 50 →
            i ∈ spec_eval_range ncases lookback →
            ¬ b64_long lookback close (b64_rise_threshold ir)
                (b64_drop_threshold id) i) as Hnone.
  { intros ir id i Hir Hid Hi Hsig.
    rewrite Forall_forall in Hno. specialize (Hno i Hi).
    rewrite b64_signal_spec, <-Er, <-Ed in Hno.
    apply bool_decide_eq_false in Hno. apply Hno.
    eapply b64_long_mono; [| |exact Hsig].
    - by apply b64_rise_threshold_ge_1.
    - by apply b64_drop_threshold_ge_1. }
  assert (∀ p, p ∈ spec_grid →
            b64_record ncases lookback open close p
            = {| best_perf := 0%Qc; opt_rise := b64_rise_threshold p.1;
                 opt_drop := b64_drop_threshold p.2; nlong := 0 |}) as Hrec.
  { intros [ir id] [Hir Hid]%spec_grid_elem. unfold b64_record. cbn [fst snd].
    f_equal.
    - unfold b64_cum_return. apply b64_sum_zero, Forall_fmap, Forall_forall.
      intros i Hi. cbn. unfold b64_realized.
      rewrite bool_decide_eq_false_2; [done|]. by apply Hnone.
    - unfold b64_long_count. rewrite filter_none; [done|].
      apply Forall_forall. intros i Hi. by apply Hnone. }
  rewrite (b64_opt_params_all_equal _ _ _ _ _ _ _ 0%Qc).
  - rewrite Hrec by (apply spec_grid_elem; lia). cbn [fst snd].
    by rewrite Er, Ed.
  - rewrite b64_minus_1e60_value. reflexivity.
  - intros p Hp. by rewrite Hrec.
Qed.

Lemma b64_opt_params_no_signal_witness :
  Forall (λ i, B64.signal 5 close_uptrend_b64 B64.rise_step B64.drop_step i
               = false)
    (spec_eval_range 12 5)
  ∧ B64.opt_params 12 5 open_uptrend_b64 close_uptrend_b64 0%Qc 0%Qc 0
    = {| best_perf := 0%Qc; opt_rise := B64.rise_step;
         opt_drop := B64.drop_step; nlong := 0 |}.
Proof.
  assert (Forall (λ i, B64.signal 5 close_uptrend_b64 B64.rise_step
                         B64.drop_step i = false)
            (spec_eval_range 12 5)) as H
    by (repeat constructor; vm_compute; reflexivity).
  split; [exact H|].
  exact (b64_opt_params_no_signal 12 5 open_uptrend_b64 close_uptrend_b64
           0%Qc 0%Qc 0 H).
Defined.




Lemma length_filter_mono {A} (P Q : A → Prop) `{!∀ x, Decision (P x)}
    `{!∀ x, Decision (Q x)} (l : list A) :
  (∀ x, P x → Q x) → length (filter P l) ≤ length (filter Q l).
Proof.
  intros HPQ. induction l as [|x l IH]; [done|].
  rewrite !filter_cons.
  destruct (decide (P x)) as [HP|HP].
  - rewrite decide_True by auto. cbn [length]. lia.
  - destruct (decide (Q x)); cbn [length]; lia.
Qed.

(** X14: stricter thresholds never trade more: over any run of the
    performance loop, the number of long positions counted with thresholds
    [(rt', dt')] is at most the number counted with [(rt, dt)] when
    [rt <= rt'] and [dt <= dt']. *)
Theorem perf_loop_count_antitone n i lookback open close rt dt rt' dt' :
  (rt ≤ rt')%Qc → (dt ≤ dt')%Qc →
  snd (perf_loop n i lookback open close rt' dt' 0%Qc 0)
  ≤ snd (perf_loop n i lookback open close rt dt 0%Qc 0).
Proof.
  intros Hr Hd. rewrite !perf_loop_spec. cbn [snd].
  rewrite !Nat.add_0_l. apply length_filter_mono.
  intros k [H1 H2]. split; eapply Qcle_trans; eassumption.
Qed.

Lemma perf_loop_count_antitone_witness :
  (spec_rise_threshold 1 ≤ spec_rise_threshold 3)%Qc
  ∧ (spec_drop_threshold 1 ≤ spec_drop_threshold 3)%Qc
  ∧ snd (perf_loop 8 2 2 open_example close_example
           (spec_rise_threshold 3) (spec_drop_threshold 3) 0%Qc 0)
    ≤ snd (perf_loop 8 2 2 open_example close_example
             (spec_rise_threshold 1) (spec_drop_threshold 1) 0%Qc 0).
Proof.
  assert (spec_rise_threshold 1 ≤ spec_rise_threshold 3)%Qc as Hr
    by (vm_compute; discriminate).
  assert (spec_drop_threshold 1 ≤ spec_drop_threshold 3)%Qc as Hd
    by (vm_compute; discriminate).
  split; [exact Hr|]. split; [exact Hd|].
  exact (perf_loop_count_antitone 8 2 2 open_example close_example _ _ _ _ Hr Hd).
Defined.

Lemma list_filter_iff_elem {A} (P1 P2 : A → Prop)
    `{!∀ x, Decision (P1 x), !∀ x, Decision (P2 x)} (l : list A) :
  (∀ x, x ∈ l → (P1 x ↔ P2 x)) → filter P1 l = filter P2 l.
Proof.
  induction l as [|a l IH]; intros Hiff; [done|].
  rewrite !filter_cons.
  rewrite IH by (intros x Hx; apply Hiff; by right).
  destruct (decide (P1 a)) as [H1|H1].
  - by rewrite decide_True by (apply Hiff; [by left | done]).
  - rewrite decide_False; [done|]. intros H2. apply H1, Hiff; [by left | done].
Qed.

Lemma fold_left_ext {A B} (f g : A → B → A) (l : list B) :
  (∀ a x, x ∈ l → f a x = g a x) → ∀ a, fold_left f l a = fold_left g l a.
Proof.
  induction l as [|x l IH]; intros Hfg a; cbn [fold_left]; [done|].
  rewrite Hfg by (by left). apply IH. intros a' y Hy. apply Hfg. by right.
Qed.

(** X15: what [opt_params] reads of its arrays: the opens of bars
    [lookback+1 .. ncases-1] and the closes of bars [0 .. ncases-3].  Two
    inputs that agree there give the same result, whatever they hold
    elsewhere (the first opens, the last two closes). *)
Theorem opt_params_reads ncases lookback open close open' close' pr pd pn :
  (∀ i, lookback < i < ncases → rd open' i = rd open i) →
  (∀ i, i + 2 < ncases → rd close' i = rd close i) →
  opt_params ncases lookback open' close' pr pd pn
  = opt_params ncases lookback open close pr pd pn.
Proof.
  intros Ho Hc. rewrite !opt_params_fold. apply fold_left_ext.
  intros acc p _. rewrite !trial_step_spec.
  assert (∀ i, i ∈ spec_eval_range ncases lookback →
            rd close' i = rd close i
            ∧ rd close' (i - lookback) = rd close (i - lookback)
            ∧ rd close' (i - 1) = rd close (i - 1)
            ∧ rd open' (i + 2) = rd open (i + 2)
            ∧ rd open' (i + 1) = rd open (i + 1)) as Hrange.
  { intros i Hi%elem_of_seq. repeat split; (apply Hc || apply Ho); lia. }
  assert (spec_record ncases lookback open' close' p
          = spec_record ncases lookback open close p) as ->; [|done].
  unfold spec_record.
  assert (∀ rt dt, spec_cum_return ncases lookback open' close' rt dt
                   = spec_cum_return ncases lookback open close rt dt) as ->.
  { intros rt dt. unfold spec_cum_return. f_equal.
    apply list_fmap_ext. intros k i Hi%list_elem_of_lookup_2.
    destruct (Hrange i Hi) as (E1 & E2 & E3 & E4 & E5).
    unfold spec_realized. by rewrite E1, E2, E3, E4, E5. }
  assert (∀ rt dt, spec_long_count ncases lookback close' rt dt
                   = spec_long_count ncases lookback close rt dt) as ->; [|done].
  intros rt dt. unfold spec_long_count. f_equal.
  apply list_filter_iff_elem.
  intros i Hi. destruct (Hrange i Hi) as (E1 & E2 & E3 & _).
  by rewrite E1, E2, E3.
Qed.

Lemma opt_params_reads_witness :
  (∀ i, 2 < i < 12 → rd open_example_alt i = rd open_example i)
  ∧ (∀ i, i + 2 < 12 → rd close_example_alt i = rd close_example i)
  ∧ open_example_alt ≠ open_example
  ∧ opt_params 12 2 open_example_alt close_example_alt 0%Qc 0%Qc 0
    = opt_params 12 2 open_example close_example 0%Qc 0%Qc 0.
Proof.
  assert (∀ i, 2 < i < 12 → rd open_example_alt i = rd open_example i) as Ho.
  { intros i Hi. do 12 (destruct i as [|i]; [try lia; reflexivity|]). lia. }
  assert (∀ i, i + 2 < 12 → rd close_example_alt i = rd close_example i) as Hc.
  { intros i Hi. do 12 (destruct i as [|i]; [try lia; reflexivity|]). lia. }
  split; [exact Ho|]. split; [exact Hc|].
  split; [vm_compute; intros [= H]|].
  exact (opt_params_reads 12 2 open_example close_example open_example_alt
           close_example_alt 0%Qc 0%Qc 0 Ho Hc).
Defined.

(** The first maximum of a list is at one place only. *)
Lemma first_max_unique {A} (v : A → Qc) (L1 L2 L1' L2' : list A) p p' :
  L1 ++ p :: L2 = L1' ++ p' :: L2' →
  (∀ q, q ∈ L1 → (v q < v p)%Qc) → (∀ q, q ∈ L2 → (v q ≤ v p)%Qc) →
  (∀ q, q ∈ L1' → (v q < v p')%Qc) → (∀ q, q ∈ L2' → (v q ≤ v p')%Qc) →
  p = p'.
Proof.
  intros Heq H1 H2 H1' H2'.
  assert (∀ (M1 M2 N1 N2 : list A) m n,
            M1 ++ m :: M2 = N1 ++ n :: N2 → length M1 < length N1 →
            m ∈ N1 ∧ n ∈ M2) as Hpos.
  { intros M1 M2 N1 N2 m n E Hlt. split.
    - apply (list_elem_of_lookup_2 _ (length M1)).
      rewrite <-(lookup_app_l N1 (n :: N2)) by done.
      rewrite <-E. by rewrite list_lookup_middle.
    - apply (list_elem_of_lookup_2 _ (length N1 - length M1 - 1)).
      assert ((M1 ++ m :: M2) !! length N1 = Some n) as Hn
        by (rewrite E; by rewrite list_lookup_middle).
      rewrite lookup_app_r in Hn by lia.
      destruct (length N1 - length M1) as [|d] eqn:Hd; [lia|].
      cbn in Hn. by replace (S d - 1) with d by lia. }
  destruct (lt_eq_lt_dec (length L1) (length L1')) as [[Hlt|Hlen]|Hgt].
  - destruct (Hpos _ _ _ _ _ _ Heq Hlt) as [Hp Hp'].
    exfalso. eapply Qcle_not_lt; [apply (H2 _ Hp') | apply (H1' _ Hp)].
  - apply app_inj_1 in Heq as [_ Heq]; [|done]. by injection Heq.
  - destruct (Hpos _ _ _ _ _ _ (eq_sym Heq) Hgt) as [Hp' Hp].
    exfalso. eapply Qcle_not_lt; [apply (H2' _ Hp) | apply (H1 _ Hp')].
Qed.

(** X16: on a series of log prices the values that the caller's
    [opt_rise], [opt_drop] and [nlong] hold before the call never reach the
    result: the first trial beats the initial record, so [main] may pass
    them uninitialised in replication 0 and stale afterwards. *)
Theorem opt_params_ignores_previous ncases lookback open close
    pr pd pn pr' pd' pn' :
  log_prices open → (Z.of_nat ncases ≤ 2147483647)%Z →
  opt_params ncases lookback open close pr pd pn
  = opt_params ncases lookback open close pr' pd' pn'.
Proof.
  intros Ho Hn.
  destruct (opt_params_first_max ncases lookback open close pr pd pn Ho Hn)
    as (L1 & p & L2 & Hsplit & Hres & H1 & H2).
  destruct (opt_params_first_max ncases lookback open close pr' pd' pn' Ho Hn)
    as (L1' & p' & L2' & Hsplit' & Hres' & H1' & H2').
  rewrite Hres, Hres'. f_equal.
  apply (first_max_unique
           (λ p, best_perf (spec_record ncases lookback open close p))
           L1 L2 L1' L2'); [congruence | done..].
Qed.

Lemma opt_params_ignores_previous_witness :
  log_prices open_example ∧ (Z.of_nat 12 ≤ 2147483647)%Z
  ∧ opt_params 12 2 open_example close_example 0%Qc 0%Qc 0
    = opt_params 12 2 open_example close_example (Qc_of_Z 7) (Qc_of_Z 8) 9.
Proof.
  split; [exact open_example_log_prices|]. split; [lia|].
  exact (opt_params_ignores_previous 12 2 open_example close_example
           0%Qc 0%Qc 0 (Qc_of_Z 7) (Qc_of_Z 8) 9
           open_example_log_prices ltac:(lia)).
Defined.

(** ** The replication loop of [main] *)

Lemma window_put_window lookback b w :
  bars_hold lookback b → window lookback (put_window lookback b w) = w.
Proof.
  intros (Ho & Hh & Hl & Hc). unfold window, put_window.
  cbn [open high low close].
  rewrite !drop_app_length' by (rewrite length_take; lia).
  by destruct w.
Qed.

Lemma put_window_put_window lookback b w w' :
  bars_hold lookback b →
  put_window lookback (put_window lookback b w) w' = put_window lookback b w'.
Proof.
  intros (Ho & Hh & Hl & Hc). unfold put_window.
  cbn [open high low close].
  by rewrite !take_app_length' by (rewrite length_take; lia).
Qed.

Lemma put_window_window lookback b : put_window lookback b (window lookback b) = b.
Proof.
  unfold window, put_window. cbn [open high low close].
  rewrite !take_drop. by destruct b.
Qed.

Lemma put_window_hold lookback b w :
  bars_hold lookback b → bars_hold lookback (put_window lookback b w).
Proof.
  intros (Ho & Hh & Hl & Hc). unfold bars_hold, put_window.
  cbn [open high low close]. rewrite !length_app, !length_take. lia.
Qed.

Lemma window_hold lookback nprices b :
  bars_hold nprices b → bars_hold (nprices - lookback) (window lookback b).
Proof.
  intros (Ho & Hh & Hl & Hc). unfold bars_hold, window.
  cbn [open high low close]. rewrite !length_drop. lia.
Qed.

(** What a replication after the baseline does to the arrays and the
    generator. *)
Lemma replication_permute nprices lookback tpr irep s :
  irep ≠ 0 →
  let d := do_permute (nprices - lookback) 1 (window lookback (prices s))
             (moves s) (rng s) in
  let s' := replication nprices lookback tpr irep s in
  prices s' = put_window lookback (prices s) d.1.1
  ∧ moves s' = d.1.2 ∧ rng s' = d.2.
Proof.
  intros Hirep. cbv zeta. unfold replication.
  destruct (decide (irep = 0)) as [?|_]; [done|].
  by destruct (do_permute _ _ _ _ _) as [[w r] st].
Qed.

Lemma rep_loop_permute nprices lookback tpr n : ∀ irep s,
  irep ≠ 0 → bars_hold lookback (prices s) →
  let c := permute_cycles n (nprices - lookback) 1
             (window lookback (prices s)) (moves s) (rng s) in
  let s' := rep_loop n irep nprices lookback tpr s in
  prices s' = put_window lookback (prices s) c.1.1
  ∧ moves s' = c.1.2 ∧ rng s' = c.2.
Proof.
  induction n as [|n IH]; intros irep s Hirep Hb;
    cbn [rep_loop permute_cycles].
  - cbn [fst snd]. by rewrite put_window_window.
  - destruct (replication_permute nprices lookback tpr irep s Hirep)
      as (Ep & Em & Er).
    specialize (IH (S irep) (replication nprices lookback tpr irep s)
                  ltac:(lia)).
    cbv zeta in *.
    destruct (do_permute _ _ (window lookback (prices s)) _ _)
      as [[w r] st]. cbn [fst snd] in *.
    rewrite Ep, Em, Er in IH.
    rewrite window_put_window, put_window_put_window in IH by done.
    apply IH. by apply put_window_hold.
Qed.

(** X17: the loop of [main] permutes the window and nothing else: after
    the baseline and [n] further replications the arrays are the input with
    the bars from [lookback] on replaced by [n] successive [do_permute]
    calls on them; the prices before [lookback] are never written, and what
    [opt_params] returns does not reach the data or the generator. *)
Theorem rep_loop_is_permute_cycles nprices lookback tpr n s0 :
  bars_hold lookback (prices s0) →
  let c := permute_cycles n (nprices - lookback) 1
             (window lookback (prices s0)) (moves s0) (rng s0) in
  let s := rep_loop (S n) 0 nprices lookback tpr s0 in
  prices s = put_window lookback (prices s0) c.1.1
  ∧ moves s = c.1.2 ∧ rng s = c.2.
Proof.
  intros Hb. cbv zeta. cbn [rep_loop].
  destruct (replication_baseline nprices lookback tpr s0)
    as (line0 & _ & _ & _ & _ & Er & Em & Ep).
  cbv zeta in Er, Em, Ep.
  destruct (rep_loop_permute nprices lookback tpr n 1
              (replication nprices lookback tpr 0 s0) ltac:(lia))
    as (Hp & Hm & Hr); [by rewrite Ep|].
  rewrite Ep, Em, Er in Hp, Hm, Hr. done.
Qed.

Lemma rep_loop_is_permute_cycles_witness :
  bars_hold 2 (prices (loop_start 2 12 series_example Rng.initial))
  ∧ rng (rep_loop 3 0 12 2 0%Qc (loop_start 2 12 series_example Rng.initial))
    = (permute_cycles 2 (12 - 2) 1
         (window 2 (prices (loop_start 2 12 series_example Rng.initial)))
         (moves (loop_start 2 12 series_example Rng.initial))
         (rng (loop_start 2 12 series_example Rng.initial))).2.
Proof.
  assert (bars_hold 2 (prices (loop_start 2 12 series_example Rng.initial)))
    as Hb by (unfold bars_hold; cbn; lia).
  split; [exact Hb|].
  exact (proj2 (proj2 (rep_loop_is_permute_cycles 12 2 0%Qc 2
                         (loop_start 2 12 series_example Rng.initial) Hb))).
Defined.

(** The report of a run that passes the data check. *)
Lemma main_report lookback nreps nprices b st :
  10 ≤ nprices - lookback →
  let tpr := (open_trend lookback nprices b
              / Qc_of_Z (Z.of_nat (nprices - lookback - 2)))%Qc in
  let s := rep_loop (Z.to_nat nreps) 0 nprices lookback tpr
             (loop_start lookback nprices b st) in
  main lookback nreps nprices b st
  = Report
      {| rep_lines := printed s;
         p_value := ddiv (Qc_of_Z (count s)) (Qc_of_Z nreps);
         total_trend := open_trend lookback nprices (prices s);
         sum_original_nlong := original_nlong s;
         sum_original := original s;
         sum_trend_component := original_trend_component s;
         training_bias := ddiv (mean_training_bias s) (Qc_of_Z (nreps - 1));
         skill := (λ u, (u - original_trend_component s)%Qc)
                  <$> ((λ m, (original s - m)%Qc)
                       <$> ddiv (mean_training_bias s) (Qc_of_Z (nreps - 1)));
         unbiased_return := (λ m, (original s - m)%Qc)
                            <$> ddiv (mean_training_bias s) (Qc_of_Z (nreps - 1));
         final_count := count s;
         final_rng := rng s;
         final_moves := moves s |}.
Proof.
  intros Hdata. unfold main. rewrite decide_False by lia. reflexivity.
Qed.

Lemma normalize_flag_1 : normalize_flag 1 = 1.
Proof. reflexivity. Qed.

(** The replications after the baseline call the generator
    [2 * (nprices - lookback - 3)] times each. *)
Lemma rep_loop_rng nprices lookback tpr n : ∀ irep s,
  irep ≠ 0 →
  rng (rep_loop n irep nprices lookback tpr s)
  = snd (Rng.draws (n * (2 * (nprices - lookback - 3))) (rng s)).
Proof.
  induction n as [|n IH]; intros irep s Hirep; cbn [rep_loop]; [done|].
  rewrite IH by lia.
  destruct (replication_permute nprices lookback tpr irep s Hirep)
    as (_ & _ & Er).
  cbv zeta in Er. rewrite Er.
  change (?p.2) with (snd p) at 1.
  rewrite do_permute_unfold. cbn [snd].
  rewrite shuffle_rng, normalize_flag_1.
  replace (nprices - lookback - 1 - 1 - 1) with (nprices - lookback - 3)
    by lia.
  replace (S n * (2 * (nprices - lookback - 3)))
    with (2 * (nprices - lookback - 3) + n * (2 * (nprices - lookback - 3)))
    by lia.
  by rewrite draws_snd_app.
Qed.

(** X19: a run of [main] with [nreps] replications over a window of
    [nprices - lookback] bars calls [RAND32M] exactly
    [(nreps - 1) * 2 * (nprices - lookback - 3)] times, whatever the
    prices: the baseline replication draws nothing and each later one draws
    once per exchange of its two shuffling loops. *)
Theorem main_draw_count lookback nreps nprices b st :
  10 ≤ nprices - lookback →
  ∃ r, main lookback nreps nprices b st = Report r
       ∧ final_rng r
         = snd (Rng.draws (Z.to_nat (nreps - 1)
                           * (2 * (nprices - lookback - 3))) st).
Proof.
  intros Hdata. rewrite main_report by done. cbv zeta.
  eexists. split; [reflexivity|]. cbn [final_rng].
  destruct (Z.to_nat nreps) as [|n] eqn:Hn.
  - by replace (Z.to_nat (nreps - 1)) with 0 by lia.
  - replace (Z.to_nat (nreps - 1)) with n by lia. cbn [rep_loop].
    rewrite rep_loop_rng by lia.
    match goal with |- context [replication _ _ ?tpr 0 ?s0] =>
      destruct (replication_baseline nprices lookback tpr s0)
        as (line0 & _ & _ & _ & _ & Er & _)
    end.
    cbv zeta in Er. by rewrite Er.
Qed.

Lemma main_draw_count_witness :
  10 ≤ 12 - 2
  ∧ ∃ r, main 2 3 12 series_example Rng.initial = Report r
         ∧ final_rng r
           = snd (Rng.draws (Z.to_nat (3 - 1) * (2 * (12 - 2 - 3))) Rng.initial).
Proof.
  split; [cbn; lia|].
  exact (main_draw_count 2 3 12 series_example Rng.initial ltac:(cbn; lia)).
Defined.

(** One replication prints one line of the shape [line_shape]; the
    baseline sets the original figures, a later one adds its training bias
    to the running sum. *)
Lemma replication_line nprices lookback tpr irep s :
  ∃ line,
    let s' := replication nprices lookback tpr irep s in
    printed s' = printed s ++ [line]
    ∧ line_shape tpr irep line
    ∧ (irep = 0 →
       original s' = line_ret line
       ∧ original_trend_component s' = line_TrndComp line
       ∧ original_nlong s' = line_NL line
       ∧ mean_training_bias s' = 0%Qc)
    ∧ (irep ≠ 0 →
       original s' = original s
       ∧ original_trend_component s' = original_trend_component s
       ∧ original_nlong s' = original_nlong s
       ∧ mean_training_bias s'
         = (mean_training_bias s + line_TrnBias line)%Qc).
Proof.
  unfold replication.
  destruct (decide (irep = 0)) as [->|Hne].
  - eexists. cbv zeta.
    cbn [printed original original_trend_component original_nlong
         mean_training_bias].
    split; [reflexivity|]. split; [by repeat split|].
    split; [by repeat split | done].
  - destruct (do_permute _ _ _ _ _) as [[w r] st].
    eexists. cbv zeta.
    cbn [printed original original_trend_component original_nlong
         mean_training_bias].
    split; [reflexivity|]. split; [by repeat split|].
    split; [done | by repeat split].
Qed.

Lemma printed_bias_cons l trials :
  printed_bias (l :: trials) = (line_TrnBias l + printed_bias trials)%Qc.
Proof. reflexivity. Qed.

Lemma rep_loop_lines nprices lookback tpr n : ∀ irep s,
  irep ≠ 0 →
  ∃ trials,
    let s' := rep_loop n irep nprices lookback tpr s in
    printed s' = printed s ++ trials
    ∧ length trials = n
    ∧ (∀ k l, trials !! k = Some l → line_shape tpr (irep + k) l)
    ∧ original s' = original s
    ∧ original_trend_component s' = original_trend_component s
    ∧ original_nlong s' = original_nlong s
    ∧ mean_training_bias s'
      = (mean_training_bias s + printed_bias trials)%Qc.
Proof.
  induction n as [|n IH]; intros irep s Hirep; cbn [rep_loop].
  - exists []. cbv zeta. rewrite app_nil_r.
    split; [done|]. split; [done|]. split; [by intros k l|].
    split; [done|]. split; [done|]. split; [done|].
    unfold printed_bias, sumQc. cbn. ring.
  - destruct (replication_line nprices lookback tpr irep s)
      as (line & Hp & Hs & _ & Hne).
    destruct (Hne Hirep) as (Ho & Ht & Hl & Hm).
    destruct (IH (S irep) (replication nprices lookback tpr irep s) ltac:(lia))
      as (trials & Hp' & Hlen & Hs' & Ho' & Ht' & Hl' & Hm').
    cbv zeta in *. exists (line :: trials).
    rewrite Hp', Hp, Ho', Ho, Ht', Ht, Hl', Hl, Hm', Hm, <-app_assoc.
    split; [done|]. split; [cbn; lia|].
    split.
    { intros [|k] l Hk.
      - injection Hk as <-. by rewrite Nat.add_0_r.
      - replace (irep + S k) with (S irep + k) by lia. by apply Hs'. }
    split; [done|]. split; [done|]. split; [done|].
    rewrite printed_bias_cons. ring.
Qed.

(** X20: what the report of a run with [nreps >= 2] is made of.  Line [k]
    is numbered [k]; its trend component is its number of long positions
    times the trend per bar, and its training bias its return minus that.
    The training bias reported is the mean of the printed training biases
    of the [nreps - 1] permuted replications (the baseline line is left
    out); the original return, trend component and long count are those of
    line 0; the unbiased return is the original return minus the mean
    bias, and the skill that minus the original trend component. *)
Theorem report_decomposition lookback nreps nprices b st :
  (2 ≤ nreps)%Z → 10 ≤ nprices - lookback →
  let tpr := (open_trend lookback nprices b
              / Qc_of_Z (Z.of_nat (nprices - lookback - 2)))%Qc in
  ∃ r line0 trials mean,
    main lookback nreps nprices b st = Report r
    ∧ rep_lines r = line0 :: trials
    ∧ (∀ k l, rep_lines r !! k = Some l → line_shape tpr k l)
    ∧ mean = (printed_bias trials / Qc_of_Z (nreps - 1))%Qc
    ∧ training_bias r = Some mean
    ∧ sum_original r = line_ret line0
    ∧ sum_trend_component r = line_TrndComp line0
    ∧ sum_original_nlong r = line_NL line0
    ∧ unbiased_return r = Some (line_ret line0 - mean)%Qc
    ∧ skill r = Some (line_ret line0 - mean - line_TrndComp line0)%Qc.
Proof.
  intros Hn Hdata tpr. rewrite main_report by done. cbv zeta. fold tpr.
  destruct (Z.to_nat nreps) as [|m] eqn:Hm; [lia|]. cbn [rep_loop].
  set (s0 := loop_start lookback nprices b st).
  destruct (replication_line nprices lookback tpr 0 s0)
    as (line0 & Hp & Hs & Hbase & _).
  destruct (Hbase eq_refl) as (Ho & Ht & Hl & Hmb).
  destruct (rep_loop_lines nprices lookback tpr m 1
              (replication nprices lookback tpr 0 s0) ltac:(lia))
    as (trials & Hp' & Hlen & Hs' & Ho' & Ht' & Hl' & Hm').
  cbv zeta in *.
  set (s := rep_loop m 1 nprices lookback tpr
              (replication nprices lookback tpr 0 s0)) in *.
  rewrite Hp in Hp'. cbn [s0 loop_start printed app] in Hp'.
  rewrite Hmb in Hm'. rewrite Ho in Ho'. rewrite Ht in Ht'. rewrite Hl in Hl'.
  assert (mean_training_bias s = printed_bias trials) as Hmean
    by (rewrite Hm'; ring).
  assert (Qc_of_Z (nreps - 1) ≠ 0%Qc) as Hnz.
  { rewrite <-Z2Qc_inj_0. intros H0%Z2Qc_inj. lia. }
  eexists. exists line0, trials, (printed_bias trials / Qc_of_Z (nreps - 1))%Qc.
  split; [reflexivity|].
  cbn [rep_lines training_bias sum_original sum_trend_component
       sum_original_nlong unbiased_return skill].
  rewrite (ddiv_Some _ _ Hnz), Hmean, Ho', Ht', Hl', Hp'.
  cbn [fmap option_fmap option_map].
  split; [done|].
  split.
  { intros [|k] l Hk.
    - injection Hk as <-. exact Hs.
    - apply (Hs' k l Hk). }
  repeat split; done.
Qed.

Lemma report_decomposition_witness :
  (2 ≤ 3)%Z ∧ 10 ≤ 12 - 2
  ∧ ∃ r line0 trials mean,
      main 2 3 12 series_example Rng.initial = Report r
      ∧ rep_lines r = line0 :: trials
      ∧ (∀ k l, rep_lines r !! k = Some l →
           line_shape (open_trend 2 12 series_example
                       / Qc_of_Z (Z.of_nat (12 - 2 - 2)))%Qc k l)
      ∧ mean = (printed_bias trials / Qc_of_Z (3 - 1))%Qc
      ∧ training_bias r = Some mean
      ∧ sum_original r = line_ret line0
      ∧ sum_trend_component r = line_TrndComp line0
      ∧ sum_original_nlong r = line_NL line0
      ∧ unbiased_return r = Some (line_ret line0 - mean)%Qc
      ∧ skill r = Some (line_ret line0 - mean - line_TrndComp line0)%Qc.
Proof.
  split; [lia|]. split; [cbn; lia|].
  exact (report_decomposition 2 3 12 series_example Rng.initial
           ltac:(lia) ltac:(cbn; lia)).
Defined.

(** ** The reading loop of [main] *)

Section reader_properties.

Context (atof : list ascii → Qc) (log : Qc → Qc).

Lemma MKTBUF_pos : 0 < MKTBUF.
Proof. unfold MKTBUF. lia. Qed.

Lemma invalid_prices_false o h l c :
  invalid_prices (o, h, l, c) = false →
  (l ≤ o)%Qc ∧ (l ≤ c)%Qc ∧ (o ≤ h)%Qc ∧ (c ≤ h)%Qc.
Proof.
  unfold invalid_prices. intros H.
  apply orb_false_elim in H as [H H4]. apply orb_false_elim in H as [H H3].
  apply orb_false_elim in H as [H1 H2].
  apply bool_decide_eq_false in H1, H2, H3, H4.
  repeat split; by apply Qcnot_lt_le.
Qed.

Lemma bar_at_eq b' b k :
  rd (open b') k = rd (open b) k → rd (high b') k = rd (high b) k →
  rd (low b') k = rd (low b) k → rd (close b') k = rd (close b) k →
  bar_at b' k = bar_at b k.
Proof. unfold bar_at. by intros -> -> -> ->. Qed.

Lemma realloc_bars_bar nprices bufcnt b n k :
  capacity (nprices + bufcnt) b → k < nprices → nprices ≤ n →
  bar_at (realloc_bars n b) k = bar_at b k.
Proof.
  intros (Lo & Lh & Ll & Lc) Hk Hn.
  unfold bar_at, realloc_bars, rd. cbn [open high low close].
  rewrite !list_lookup_total_alt.
  by rewrite !lookup_resize by lia.
Qed.

Lemma valid_bar_at b' b k : bar_at b' k = bar_at b k → valid_bar b k → valid_bar b' k.
Proof. unfold bar_at, valid_bar. by intros [= -> -> -> ->]. Qed.

Lemma realloc_bars_inv nprices b :
  read_inv nprices 0 b → read_inv nprices MKTBUF (realloc_bars (nprices + MKTBUF) b).
Proof.
  intros (Hcap & _ & Hdiv & Hvalid).
  split; [|split; [done|split]].
  - destruct Hcap as (Lo & Lh & Ll & Lc).
    unfold capacity, realloc_bars. cbn [open high low close].
    by rewrite !length_resize.
  - rewrite Nat.add_0_r in Hdiv.
    apply Nat.divide_add_r; [done | apply Nat.divide_refl].
  - intros k Hk. eapply valid_bar_at; [|by apply Hvalid].
    eapply realloc_bars_bar; [done | done | lia].
Qed.

(** A record stored within the arrays: the bars before it stay, the new
    one holds the four prices. *)
Lemma store_bar_Some nprices bufcnt o h l c b :
  capacity (nprices + bufcnt) b → 0 < bufcnt →
  ∃ b', store_bar nprices (o, h, l, c) b = Some b'
        ∧ capacity (nprices + bufcnt) b'
        ∧ bar_at b' nprices = (o, h, l, c)
        ∧ ∀ k, k ≠ nprices → bar_at b' k = bar_at b k.
Proof.
  intros (Lo & Lh & Ll & Lc) Hpos. unfold store_bar.
  rewrite decide_True by lia. eexists. split; [reflexivity|].
  split; [|split].
  - unfold capacity. cbn [open high low close]. by rewrite !length_insert.
  - unfold bar_at. cbn [open high low close].
    by rewrite !rd_insert_eq by lia.
  - intros k Hk. unfold bar_at. cbn [open high low close].
    by rewrite !rd_insert_ne by done.
Qed.

Lemma store_bar_inv nprices bufcnt v b :
  read_inv nprices bufcnt b → 0 < bufcnt →
  ∃ b', store_bar nprices v b = Some b'
        ∧ (invalid_prices v = false → read_inv (S nprices) (bufcnt - 1) b').
Proof.
  intros (Hcap & Hle & Hdiv & Hvalid) Hpos.
  destruct v as [[[o h] l] c].
  destruct (store_bar_Some nprices bufcnt o h l c b Hcap Hpos)
    as (b' & Hst & Hcap' & Hnew & Hold).
  exists b'. split; [done|].
  intros Hok. apply invalid_prices_false in Hok. unfold read_inv.
  replace (S nprices + (bufcnt - 1)) with (nprices + bufcnt) by lia.
  split; [done|]. split; [lia|]. split; [done|].
  intros k Hk. destruct (decide (k = nprices)) as [->|Hne].
  - unfold valid_bar. unfold bar_at in Hnew. by injection Hnew as -> -> -> ->.
  - eapply valid_bar_at; [by apply Hold|]. apply Hvalid. lia.
Qed.

(** The variables at the place of the loop body where the arrays have
    been enlarged if they were full. *)
Lemma enlarged_inv nprices bufcnt b :
  read_inv nprices bufcnt b →
  let st := if decide (bufcnt = 0)
            then (realloc_bars (nprices + MKTBUF) b, MKTBUF)
            else (b, bufcnt) in
  read_inv nprices st.2 st.1 ∧ 0 < st.2
  ∧ ∀ k, k < nprices → bar_at st.1 k = bar_at b k.
Proof.
  intros Hinv. cbv zeta.
  destruct (decide (bufcnt = 0)) as [->|Hne]; cbn [fst snd].
  - split; [by apply realloc_bars_inv|]. split; [apply MKTBUF_pos|].
    intros k Hk. eapply realloc_bars_bar; [apply Hinv | done | lia].
  - split; [done|]. split; [lia | done].
Qed.

(** *** One pass of the loop *)

(** [fgets] splits the stream, and takes at least one character from a
    stream that has one. *)
Lemma fgets_split n : ∀ fp, (fgets n fp).1 ++ (fgets n fp).2 = fp.
Proof.
  induction n as [|n IH]; intros [|c fp]; cbn [fgets]; try done.
  destruct (decide (c = newline)); [done|].
  specialize (IH fp). destruct (fgets n fp) as [l rest].
  cbn [fst snd app] in *. by rewrite IH.
Qed.

Lemma fgets_length n : ∀ fp, length (fgets n fp).1 ≤ n.
Proof.
  induction n as [|n IH]; intros [|c fp]; cbn [fgets]; cbn [fst length];
    try lia.
  destruct (decide (c = newline)); [cbn; lia|].
  specialize (IH fp). destruct (fgets n fp) as [l rest].
  cbn [fst snd length] in *. lia.
Qed.

Lemma fgets_rest n c fp : length (fgets (S n) (c :: fp)).2 ≤ length fp.
Proof.
  pose proof (fgets_split (S n) (c :: fp)) as Hs.
  apply (f_equal length) in Hs. rewrite length_app in Hs.
  cbn [fgets] in *. destruct (decide (c = newline)); [done|].
  destruct (fgets n fp) as [l rest]. cbn [fst snd length] in *. lia.
Qed.

Lemma read_line_nil line nprices bufcnt b :
  read_line atof log [] line nprices bufcnt b = inl (Prices nprices b).
Proof. done. Qed.

(** A pass that does not end the loop has stored one bar and taken at
    least one character; one that ends it with the prices leaves them as
    they were. *)
Lemma read_line_inr fp line nprices bufcnt b fp' line' nprices' bufcnt' b' :
  read_line atof log fp line nprices bufcnt b
  = inr (fp', line', nprices', bufcnt', b') →
  fp' = (fgets 255 fp).2 ∧ length fp' < length fp
  ∧ line' = store_line (fgets 255 fp).1 line
  ∧ nprices' = S nprices
  ∧ forallb is_digit (take 8 line') = true
  ∧ ∃ v, parse_prices atof log line' = Some v ∧ invalid_prices v = false
         ∧ store_bar nprices v
             (if decide (bufcnt = 0)
              then (realloc_bars (nprices + MKTBUF) b, MKTBUF)
              else (b, bufcnt)).1 = Some b'.
Proof.
  unfold read_line. destruct fp as [|c0 fp0]; [done|].
  pose proof (fgets_rest 254 c0 fp0) as Hrest.
  destruct (fgets 255 (c0 :: fp0)) as [l rest]. cbn [fst snd] in *.
  destruct (decide (strlen (store_line l line) < 2)); [done|].
  destruct (if decide (bufcnt = 0) then _ else _) as [b1 bufcnt1].
  destruct (forallb is_digit _) eqn:Hdate; [|done]. cbn [negb].
  destruct (parse_prices atof log (store_line l line)) as [v|] eqn:Hv; [|done].
  destruct (store_bar nprices v b1) as [b2|] eqn:Hst; [|done].
  destruct (invalid_prices v) eqn:Hok; [done|].
  intros [= <- <- <- <- <-].
  split; [done|]. split; [cbn [length]; lia|]. split; [done|].
  split; [done|]. split; [done|]. by exists v.
Qed.

Lemma read_line_inl_Prices fp line nprices bufcnt b n b' :
  read_line atof log fp line nprices bufcnt b = inl (Prices n b') →
  n = nprices ∧ b' = b.
Proof.
  unfold read_line. destruct fp as [|c0 fp0]; [by intros [= <- <-]|].
  destruct (fgets 255 (c0 :: fp0)) as [l rest].
  destruct (decide (strlen (store_line l line) < 2)); [by intros [= <- <-]|].
  destruct (if decide (bufcnt = 0) then _ else _) as [b1 bufcnt1].
  destruct (negb _); [done|].
  destruct (parse_prices atof log (store_line l line)) as [v|]; [|done].
  destruct (store_bar nprices v b1) as [b2|]; [|done].
  by destruct (invalid_prices v).
Qed.

Lemma read_line_inv fp line nprices bufcnt b :
  read_inv nprices bufcnt b →
  match read_line atof log fp line nprices bufcnt b with
  | inl res => res ≠ Array_overrun
  | inr (_, _, nprices', bufcnt', b') =>
      read_inv nprices' bufcnt' b'
      ∧ ∀ k, k < nprices → bar_at b' k = bar_at b k
  end.
Proof.
  intros Hinv. unfold read_line. destruct fp as [|c0 fp0]; [done|].
  destruct (fgets 255 (c0 :: fp0)) as [l rest].
  destruct (decide (strlen (store_line l line) < 2)); [done|].
  destruct (enlarged_inv nprices bufcnt b Hinv) as (Hinv' & Hpos & Hkeep).
  destruct (if decide (bufcnt = 0) then _ else _) as [b1 bufcnt1].
  cbn [fst snd] in *.
  destruct (negb _); [done|].
  destruct (parse_prices atof log (store_line l line)) as [v|]; [|done].
  destruct v as [[[o h] lo] c].
  destruct (store_bar_inv nprices bufcnt1 (o, h, lo, c) b1 Hinv' Hpos)
    as (b2 & Hst & Hnext).
  destruct (store_bar_Some nprices bufcnt1 o h lo c b1 (proj1 Hinv') Hpos)
    as (b2' & Hst' & _ & _ & Hold).
  rewrite Hst. rewrite Hst in Hst'. injection Hst' as <-.
  destruct (invalid_prices (o, h, lo, c)); [done|].
  split; [by apply Hnext|].
  intros k Hk. rewrite Hold by lia. by apply Hkeep.
Qed.

(** *** The loop *)

Lemma read_loop_inv fuel : ∀ fp line nprices bufcnt b res,
  read_inv nprices bufcnt b →
  read_loop atof log fuel fp line nprices bufcnt b = Some res →
  res ≠ Array_overrun
  ∧ ∀ n b', res = Prices n b' → ∃ c, read_inv n c b'.
Proof.
  induction fuel as [|fuel IH]; intros fp line nprices bufcnt b res Hinv;
    cbn [read_loop]; [done|].
  pose proof (read_line_inv fp line nprices bufcnt b Hinv) as Hstep.
  destruct (read_line atof log fp line nprices bufcnt b)
    as [r|[[[[fp' line'] n'] c'] b']] eqn:Hline.
  - intros [= <-]. split; [done|]. intros n b' ->.
    apply read_line_inl_Prices in Hline as [-> ->]. by exists bufcnt.
  - apply IH, Hstep.
Qed.

(** With more passes allowed than the stream has characters, the loop
    ends by itself, and the number allowed does not matter. *)
Lemma read_loop_fuel fuel : ∀ fuel' fp line nprices bufcnt b,
  length fp < fuel → length fp < fuel' →
  is_Some (read_loop atof log fuel fp line nprices bufcnt b)
  ∧ read_loop atof log fuel fp line nprices bufcnt b
    = read_loop atof log fuel' fp line nprices bufcnt b.
Proof.
  induction fuel as [|fuel IH]; intros fuel' fp line nprices bufcnt b Hf Hf';
    [lia|].
  destruct fuel' as [|fuel']; [lia|]. cbn [read_loop].
  destruct (read_line atof log fp line nprices bufcnt b)
    as [r|[[[[fp' line'] n'] c'] b']] eqn:Hline; [done|].
  apply read_line_inr in Hline as (_ & Hlen & _).
  apply IH; lia.
Qed.

Lemma read_inv_start :
  read_inv 0 MKTBUF
    {| open := replicate MKTBUF 0%Qc; high := replicate MKTBUF 0%Qc;
       low := replicate MKTBUF 0%Qc; close := replicate MKTBUF 0%Qc |}.
Proof.
  split; [|split; [done|split; [apply Nat.divide_refl | intros k Hk; lia]]].
  unfold capacity. cbn [open high low close]. by rewrite !length_replicate.
Qed.

(** X21: the reading loop always ends - with the prices, or with one of
    its two error messages, or at a read behind the line buffer - and
    never writes a record behind the end of its arrays, however long the
    file: the arrays are enlarged before the first write that would not
    fit. *)
Theorem read_prices_returns fp line :
  ∃ res, read_prices atof log fp line = Some res ∧ res ≠ Array_overrun.
Proof.
  unfold read_prices.
  destruct (read_loop_fuel (S (length fp)) (S (length fp)) fp line 0 MKTBUF
              {| open := replicate MKTBUF 0%Qc; high := replicate MKTBUF 0%Qc;
                 low := replicate MKTBUF 0%Qc; close := replicate MKTBUF 0%Qc |}
              ltac:(lia) ltac:(lia)) as [[res Hres] _].
  exists res. split; [done|].
  by destruct (read_loop_inv _ _ _ _ _ _ _ read_inv_start Hres).
Qed.

(** X22: when the file is accepted, the arrays hold [nprices] records or
    more - their common size is a multiple of [MKTBUF] and exceeds
    [nprices] by at most [MKTBUF] - and each of the [nprices] bars read
    satisfies low <= open, low <= close, open <= high, close <= high: the
    condition under which the permutation keeps bars consistent. *)
Theorem read_prices_valid fp line nprices b :
  read_prices atof log fp line = Some (Prices nprices b) →
  (∃ cap, capacity cap b ∧ nprices ≤ cap ≤ nprices + MKTBUF ∧ (MKTBUF | cap))
  ∧ bars_hold nprices b
  ∧ ∀ k, k < nprices → valid_bar b k.
Proof.
  intros Hres. unfold read_prices in Hres.
  destruct (read_loop_inv _ _ _ _ _ _ _ read_inv_start Hres) as [_ Hinv].
  destruct (Hinv nprices b eq_refl)
    as (c & (Lo & Lh & Ll & Lc) & Hle & Hdiv & Hvalid).
  split; [|split; [|done]].
  - exists (nprices + c). split; [done|]. split; [lia | done].
  - unfold bars_hold. lia.
Qed.

(** *** Reads of the line buffer *)

Lemma NUL_not_delimiter : is_delimiter NUL = false.
Proof. reflexivity. Qed.

Lemma skip_delimiters_Some cptr :
  NUL ∈ cptr → ∃ cptr', skip_delimiters cptr = Some cptr' ∧ NUL ∈ cptr'.
Proof.
  induction cptr as [|c cptr IH]; intros Hin; [by apply elem_of_nil in Hin|].
  cbn [skip_delimiters]. destruct (is_delimiter c) eqn:Hd.
  - apply IH. apply elem_of_cons in Hin as [Heq|Hin]; [|done].
    rewrite <-Heq, NUL_not_delimiter in Hd. done.
  - by exists (c :: cptr).
Qed.

Lemma pass_price_Some cptr :
  NUL ∈ cptr → ∃ cptr', pass_price cptr = Some cptr' ∧ NUL ∈ cptr'.
Proof.
  induction cptr as [|c cptr IH]; intros Hin; [by apply elem_of_nil in Hin|].
  cbn [pass_price]. destruct (decide (c = NUL)) as [->|Hne].
  - by exists (NUL :: cptr).
  - destruct (is_delimiter c); [by exists (c :: cptr)|].
    apply IH. by apply elem_of_cons in Hin as [Heq|Hin].
Qed.

Lemma c_string_Some cptr : NUL ∈ cptr → is_Some (c_string cptr).
Proof.
  induction cptr as [|c cptr IH]; intros Hin; [by apply elem_of_nil in Hin|].
  cbn [c_string]. destruct (decide (c = NUL)) as [->|Hne]; [done|].
  apply fmap_is_Some, IH. by apply elem_of_cons in Hin as [Heq|Hin].
Qed.

Lemma read_price_Some cptr : NUL ∈ cptr → is_Some (read_price atof log cptr).
Proof.
  intros Hin. unfold read_price.
  by destruct (c_string_Some cptr Hin) as [s ->].
Qed.

Lemma parse_prices_Some line :
  NUL ∈ drop 9 line → is_Some (parse_prices atof log line).
Proof.
  intros Hin. unfold parse_prices.
  destruct (skip_delimiters_Some _ Hin) as (p1 & -> & H1). cbn [mbind option_bind].
  destruct (read_price_Some p1 H1) as [o ->]. cbn [mbind option_bind].
  destruct (pass_price_Some _ H1) as (p2 & -> & H2). cbn [mbind option_bind].
  destruct (skip_delimiters_Some _ H2) as (p3 & -> & H3). cbn [mbind option_bind].
  destruct (read_price_Some p3 H3) as [h ->]. cbn [mbind option_bind].
  destruct (pass_price_Some _ H3) as (p4 & -> & H4). cbn [mbind option_bind].
  destruct (skip_delimiters_Some _ H4) as (p5 & -> & H5). cbn [mbind option_bind].
  destruct (read_price_Some p5 H5) as [l ->]. cbn [mbind option_bind].
  destruct (pass_price_Some _ H5) as (p6 & -> & H6). cbn [mbind option_bind].
  destruct (skip_delimiters_Some _ H6) as (p7 & -> & H7). cbn [mbind option_bind].
  destruct (read_price_Some p7 H7) as [c ->]. cbn [mbind option_bind].
  done.
Qed.

(** What a line of at most eight characters leaves of the buffer from
    column 9 on: everything. *)
Lemma store_line_short l line :
  length l ≤ 8 → drop 9 (store_line l line) = drop 9 line.
Proof.
  intros Hl. unfold store_line.
  rewrite drop_app_ge by lia.
  replace (9 - length l) with (S (8 - length l)) by lia.
  cbn [drop]. rewrite drop_drop. f_equal. lia.
Qed.

Lemma store_line_ok l line :
  length l ≤ 255 → line_ok line → line_ok (store_line l line).
Proof.
  intros Hl [Hlen Hin]. split.
  - unfold store_line. rewrite length_app. cbn [length].
    rewrite length_drop. lia.
  - destruct (decide (length l ≤ 8)) as [Hs|Hs].
    + by rewrite store_line_short.
    + unfold store_line. rewrite drop_app_le by lia.
      apply elem_of_app. right. apply elem_of_cons. by left.
Qed.

Lemma read_line_in_buffer fp line nprices bufcnt b :
  line_ok line →
  match read_line atof log fp line nprices bufcnt b with
  | inl res => res ≠ Buffer_overrun
  | inr (_, line', _, _, _) => line_ok line'
  end.
Proof.
  intros Hok. unfold read_line. destruct fp as [|c0 fp0]; [done|].
  pose proof (fgets_length 255 (c0 :: fp0)) as Hlen.
  destruct (fgets 255 (c0 :: fp0)) as [l fp']. cbn [fst] in Hlen.
  pose proof (store_line_ok l line Hlen Hok) as Hok'.
  destruct (decide (strlen (store_line l line) < 2)); [done|].
  destruct (if decide (bufcnt = 0) then _ else _) as [b1 bufcnt1].
  destruct (negb _); [done|].
  destruct (parse_prices_Some (store_line l line) (proj2 Hok')) as [v ->].
  destruct (store_bar nprices v b1) as [b2|]; [|done].
  by destruct (invalid_prices v).
Qed.

(** X23: no character is read behind the line buffer when the buffer
    holds a terminator at column 9 or later before the first line is read
    (a zeroed buffer does): every scan for a price stops at a terminator,
    and no line stored removes the last one from there. *)
Theorem read_prices_in_buffer fp line :
  length line = 256 → NUL ∈ drop 9 line →
  read_prices atof log fp line ≠ Some Buffer_overrun.
Proof.
  intros Hlen Hin. assert (line_ok line) as Hok by done. clear Hlen Hin.
  unfold read_prices.
  generalize (S (length fp)) 0 MKTBUF
    {| open := replicate MKTBUF 0%Qc; high := replicate MKTBUF 0%Qc;
       low := replicate MKTBUF 0%Qc; close := replicate MKTBUF 0%Qc |}.
  intros fuel. revert fp line Hok.
  induction fuel as [|fuel IH]; intros fp line Hok nprices bufcnt b;
    cbn [read_loop]; [done|].
  pose proof (read_line_in_buffer fp line nprices bufcnt b Hok) as Hstep.
  destruct (read_line atof log fp line nprices bufcnt b)
    as [r|[[[[fp' line'] n'] c'] b']].
  - by intros [= ->].
  - by apply IH.
Qed.

(** *** Whole lines and what follows them *)

Lemma fgets_app n : ∀ f rest,
  last f = Some newline →
  fgets n (f ++ rest) = ((fgets n f).1, (fgets n f).2 ++ rest)
  ∧ whole_lines (fgets n f).2.
Proof.
  induction n as [|n IH]; intros f rest Hlast.
  - destruct f as [|c f]; [done|]. destruct rest; cbn [fgets fst snd app];
      by (split; [|right]).
  - destruct f as [|c f]; [done|]. cbn [app fgets].
    destruct (decide (c = newline)) as [->|Hne].
    + cbn [fst snd]. split; [done|].
      destruct f as [|c' f]; [by left | by right].
    + assert (last f = Some newline) as Hlast'.
      { destruct f as [|c' f]; [|done]. cbn in Hlast. congruence. }
      destruct (IH f rest Hlast') as [-> Hrest].
      destruct (fgets n f) as [l r]. cbn [fst snd] in *. done.
Qed.

(** A pass over whole lines does not depend on what follows them. *)
Lemma read_line_app f rest line nprices bufcnt b :
  last f = Some newline →
  match read_line atof log f line nprices bufcnt b with
  | inl res =>
      read_line atof log (f ++ rest) line nprices bufcnt b = inl res
  | inr (fp', line', nprices', bufcnt', b') =>
      read_line atof log (f ++ rest) line nprices bufcnt b
      = inr (fp' ++ rest, line', nprices', bufcnt', b')
      ∧ whole_lines fp'
  end.
Proof.
  intros Hlast. destruct f as [|c0 f0]; [done|].
  destruct (fgets_app 255 (c0 :: f0) rest Hlast) as [Happ Hends].
  unfold read_line. cbn [app] in *. rewrite Happ.
  destruct (fgets 255 (c0 :: f0)) as [l r]. cbn [fst snd] in *.
  destruct (decide (strlen (store_line l line) < 2)); [done|].
  destruct (if decide (bufcnt = 0) then _ else _) as [b1 bufcnt1].
  destruct (negb _); [done|].
  destruct (parse_prices atof log (store_line l line)) as [v|]; [|done].
  destruct (store_bar nprices v b1) as [b2|]; [|done].
  by destruct (invalid_prices v).
Qed.

(** The loop over whole lines [f] followed by [rest]: either it ends
    within [f], or it reaches [rest] with the variables it has at the end
    of [f]. *)
Lemma read_loop_app fuel0 : ∀ f line nprices bufcnt b,
  whole_lines f → length f < fuel0 → read_inv nprices bufcnt b →
  (∀ rest fuel, length (f ++ rest) < fuel →
     read_loop atof log fuel (f ++ rest) line nprices bufcnt b
     = read_loop atof log fuel0 f line nprices bufcnt b)
  ∨ (∃ line' nprices' bufcnt' b',
       read_inv nprices' bufcnt' b'
       ∧ read_loop atof log fuel0 f line nprices bufcnt b
         = Some (Prices nprices' b')
       ∧ ∀ rest fuel, length (f ++ rest) < fuel →
           read_loop atof log fuel (f ++ rest) line nprices bufcnt b
           = read_loop atof log fuel rest line' nprices' bufcnt' b').
Proof.
  induction fuel0 as [|fuel0 IH]; intros f line nprices bufcnt b Hf Hfuel Hinv;
    [lia|].
  destruct Hf as [->|Hlast].
  { right. exists line, nprices, bufcnt, b. by split; [|split]. }
  pose proof (read_line_inv f line nprices bufcnt b Hinv) as Hstep.
  pose proof (λ rest, read_line_app f rest line nprices bufcnt b Hlast) as Happ.
  cbn [read_loop].
  destruct (read_line atof log f line nprices bufcnt b)
    as [r|[[[[fp' line'] n'] c'] b']] eqn:Hline.
  - left. intros rest fuel Hlen. destruct fuel as [|fuel]; [lia|].
    cbn [read_loop]. by rewrite Happ.
  - apply read_line_inr in Hline as (_ & Hshort & _).
    destruct Hstep as [Hinv' _].
    destruct (IH fp' line' n' c' b' (proj2 (Happ [])) ltac:(lia) Hinv')
      as [Hin|(line2 & n2 & c2 & b2 & Hinv2 & Hres & Hnext)].
    + left. intros rest fuel Hlen. destruct fuel as [|fuel]; [lia|].
      cbn [read_loop]. rewrite (proj1 (Happ rest)).
      apply Hin. rewrite length_app in *. lia.
    + right. exists line2, n2, c2, b2. split; [done|]. split; [done|].
      intros rest fuel Hlen. destruct fuel as [|fuel]; [lia|].
      cbn [read_loop]. rewrite (proj1 (Happ rest)).
      rewrite Hnext by (rewrite length_app in *; lia).
      rewrite length_app in Hlen.
      apply (proj2 (read_loop_fuel fuel (S fuel) rest line2 n2 c2 b2
                      ltac:(lia) ltac:(lia))).
Qed.

Lemma strlen_newline line : strlen (store_line [newline] line) = 1.
Proof. reflexivity. Qed.

(** X24: an empty line ends the reading as the end of the file does:
    behind whole lines, what follows an empty line is never looked at, and
    the result is the one for the file cut before it. *)
Theorem empty_line_ends_reading f rest line :
  whole_lines f →
  read_prices atof log (f ++ newline :: rest) line
  = read_prices atof log f line.
Proof.
  intros Hf. unfold read_prices.
  destruct (read_loop_app (S (length f)) f line 0 MKTBUF _ Hf ltac:(lia)
              read_inv_start)
    as [Hin|(line' & n' & c' & b' & _ & Hres & Hnext)].
  - apply Hin. lia.
  - rewrite Hres, Hnext by lia. cbn [length read_loop read_line fgets].
    rewrite decide_True by done.
    rewrite decide_True; [done|]. rewrite strlen_newline. lia.
Qed.

(** *** A line that holds a date and nothing else *)

Lemma is_digit_char c : is_digit c = true → c ≠ NUL ∧ c ≠ newline.
Proof. intros Hc. split; intros ->; discriminate Hc. Qed.

Lemma fgets_all n : ∀ d,
  Forall (λ c, c ≠ newline) d → length d ≤ n → fgets n d = (d, []).
Proof.
  induction n as [|n IH]; intros [|c d] Hd Hlen; cbn [fgets]; try done.
  { cbn in Hlen. lia. }
  apply Forall_cons in Hd as [Hc Hd].
  rewrite decide_False by done.
  rewrite IH; [done | done | cbn in Hlen; lia].
Qed.

Lemma strlen_app d rest :
  Forall (λ c, c ≠ NUL) d → strlen (d ++ NUL :: rest) = length d.
Proof.
  induction d as [|c d IH]; intros Hd; cbn [app strlen].
  - by rewrite decide_True.
  - apply Forall_cons in Hd as [Hc Hd].
    rewrite decide_False by done. cbn [length]. f_equal. by apply IH.
Qed.

Lemma store_bar_bar nprices v b b' :
  store_bar nprices v b = Some b' → bar_at b' nprices = v.
Proof.
  destruct v as [[[o h] l] c]. unfold store_bar.
  destruct (decide _) as [(Ho & Hh & Hl & Hc)|]; [|done].
  intros [= <-]. unfold bar_at. cbn [open high low close].
  by rewrite !rd_insert_eq by done.
Qed.

(** The pass over a last line of eight digits: it is accepted, with the
    prices the buffer holds from column 9 on. *)
Lemma read_line_date_only d line nprices bufcnt b v :
  length d = 8 → forallb is_digit d = true →
  read_inv nprices bufcnt b →
  parse_prices atof log line = Some v → invalid_prices v = false →
  ∃ bufcnt' b',
    read_line atof log d line nprices bufcnt b
    = inr ([], store_line d line, S nprices, bufcnt', b')
    ∧ bar_at b' nprices = v
    ∧ ∀ k, k < nprices → bar_at b' k = bar_at b k.
Proof.
  intros Hlen Hdig Hinv Hv Hok.
  assert (Forall (λ c, c ≠ NUL) d ∧ Forall (λ c, c ≠ newline) d) as [Hnul Hnl].
  { pose proof (proj1 (forallb_True _ _) (Is_true_true_2 _ Hdig)) as Hall.
    split; (eapply Forall_impl; [exact Hall|]); intros c Hc;
      by apply is_digit_char, Is_true_true_1. }
  destruct d as [|c0 d0]; [done|]. unfold read_line.
  remember (c0 :: d0) as d eqn:Hd. clear Hd.
  rewrite (fgets_all 255 d Hnl) by lia.
  assert (strlen (store_line d line) = 8) as ->
    by (unfold store_line; by rewrite strlen_app).
  rewrite decide_False by lia.
  destruct (enlarged_inv nprices bufcnt b Hinv) as (Hinv' & Hpos & Hkeep).
  destruct (if decide (bufcnt = 0) then _ else _) as [b1 bufcnt1].
  cbn [fst snd] in *.
  assert (take 8 (store_line d line) = d) as ->.
  { unfold store_line. by rewrite take_app_length' by done. }
  rewrite Hdig. cbn [negb].
  unfold parse_prices in *. rewrite store_line_short by lia. rewrite Hv.
  destruct v as [[[o h] lo] c].
  destruct (store_bar_Some nprices bufcnt1 o h lo c b1 (proj1 Hinv') Hpos)
    as (b2 & -> & _ & Hnew & Hold).
  rewrite Hok. exists (bufcnt1 - 1), b2.
  split; [done|]. split; [done|].
  intros k Hk. rewrite Hold by lia. by apply Hkeep.
Qed.

(** X25: a last line that holds eight digits and nothing else - a date
    without prices and without a newline - is accepted, and the bar stored
    for it is the bar of the line before: its prices are parsed from what
    that line left in the buffer.  Here [f] are whole lines read as [n]
    bars and [l] is one more line, read as bar [n]. *)
Theorem date_only_line_repeats_bar f l d line n b0 b1 :
  whole_lines f → last l = Some newline → fgets 255 l = (l, []) →
  length d = 8 → forallb is_digit d = true →
  read_prices atof log f line = Some (Prices n b0) →
  read_prices atof log (f ++ l) line = Some (Prices (S n) b1) →
  ∃ b2, read_prices atof log (f ++ l ++ d) line = Some (Prices (S (S n)) b2)
        ∧ bar_at b2 (S n) = bar_at b1 n
        ∧ ∀ k, k ≤ n → bar_at b2 k = bar_at b1 k.
Proof.
  intros Hf Hlast Hl Hlen Hdig H0 H1. unfold read_prices in *.
  destruct (read_loop_app (S (length f)) f line 0 MKTBUF _ Hf ltac:(lia)
              read_inv_start)
    as [Hin|(line' & n' & c' & b' & Hinv' & Hres & Hnext)].
  { rewrite (Hin l) in H1 by lia. rewrite H0 in H1. injection H1. lia. }
  rewrite H0 in Hres. injection Hres as <- <-.
  rewrite (Hnext l) in H1 by lia.
  rewrite (Hnext (l ++ d)) by lia.
  rewrite (proj2 (read_loop_fuel (S (length (f ++ l))) (S (S (length l)))
                    l line' n c' b0 ltac:(rewrite length_app; lia) ltac:(lia)))
    in H1.
  rewrite (proj2 (read_loop_fuel (S (length (f ++ l ++ d)))
                    (S (S (S (length (l ++ d)))))
                    (l ++ d) line' n c' b0
                    ltac:(rewrite !length_app; lia) ltac:(lia))).
  cbn [read_loop] in H1 |- *.
  pose proof (read_line_inv l line' n c' b0 Hinv') as Hstep.
  pose proof (read_line_app l d line' n c' b0 Hlast) as Happ.
  destruct (read_line atof log l line' n c' b0)
    as [r|[[[[fp1 line1] n1] c1] b1']] eqn:Hline.
  { injection H1 as ->. apply read_line_inl_Prices in Hline as [Hn _]. lia. }
  destruct Happ as [-> _].
  pose proof (read_line_inr _ _ _ _ _ _ _ _ _ _ Hline)
    as (Hfp1 & _ & Hline1 & -> & _ & v & Hv & Hok & Hst).
  rewrite Hl in Hfp1. cbn [snd] in Hfp1. subst fp1.
  rewrite read_line_nil in H1. injection H1 as ->.
  destruct Hstep as [Hinv1 _].
  destruct (read_line_date_only d line1 (S n) c1 b1 v Hlen Hdig Hinv1 Hv Hok)
    as (c2 & b2 & Hd & Hnew & Hold).
  cbn [app]. rewrite Hd, read_line_nil.
  exists b2. split; [done|]. split.
  - rewrite Hnew. symmetry. by eapply store_bar_bar.
  - intros k Hk. apply Hold. lia.
Qed.

End reader_properties.

Lemma read_prices_valid_witness :
  read_prices atof_example log_example two_bars_example line_example
  = Some (Prices 2 loaded_example)
  ∧ bars_hold 2 loaded_example
  ∧ ∀ k, k < 2 → valid_bar loaded_example k.
Proof.
  assert (read_prices atof_example log_example two_bars_example line_example
          = Some (Prices 2 loaded_example)) as H
    by (vm_compute; reflexivity).
  split; [exact H|].
  exact (proj2 (read_prices_valid atof_example log_example two_bars_example
                  line_example 2 loaded_example H)).
Defined.

Lemma line_example_ok : length line_example = 256 ∧ NUL ∈ drop 9 line_example.
Proof. split; [reflexivity|]. vm_compute. apply list_elem_of_here. Qed.

Lemma read_prices_in_buffer_witness :
  length line_example = 256 ∧ NUL ∈ drop 9 line_example
  ∧ read_prices atof_example log_example file_example line_example
    ≠ Some Buffer_overrun.
Proof.
  split; [exact (proj1 line_example_ok)|].
  split; [exact (proj2 line_example_ok)|].
  exact (read_prices_in_buffer atof_example log_example file_example
           line_example (proj1 line_example_ok) (proj2 line_example_ok)).
Defined.

Lemma two_bars_example_lines : whole_lines two_bars_example.
Proof. right. reflexivity. Qed.

Lemma empty_line_ends_reading_witness :
  whole_lines two_bars_example
  ∧ read_prices atof_example log_example
      (two_bars_example
       ++ newline :: String.list_ascii_of_string "20200106 5 7 4 6" ++ [newline])
      line_example
    = read_prices atof_example log_example two_bars_example line_example.
Proof.
  split; [exact two_bars_example_lines|].
  exact (empty_line_ends_reading atof_example log_example two_bars_example
           (String.list_ascii_of_string "20200106 5 7 4 6" ++ [newline])
           line_example two_bars_example_lines).
Defined.

Lemma date_only_line_repeats_bar_witness :
  whole_lines first_line_example
  ∧ last second_line_example = Some newline
  ∧ fgets 255 second_line_example = (second_line_example, [])
  ∧ length date_only_example = 8
  ∧ forallb is_digit date_only_example = true
  ∧ read_prices atof_example log_example first_line_example line_example
    = Some (Prices 1 loaded_first_example)
  ∧ read_prices atof_example log_example
      (first_line_example ++ second_line_example) line_example
    = Some (Prices 2 loaded_example)
  ∧ ∃ b2,
      read_prices atof_example log_example
        (first_line_example ++ second_line_example ++ date_only_example)
        line_example
      = Some (Prices 3 b2)
      ∧ bar_at b2 2 = bar_at loaded_example 1
      ∧ ∀ k, k ≤ 1 → bar_at b2 k = bar_at loaded_example k.
Proof.
  assert (whole_lines first_line_example) as H1 by (right; reflexivity).
  assert (last second_line_example = Some newline) as H2 by reflexivity.
  assert (fgets 255 second_line_example = (second_line_example, [])) as H3
    by (vm_compute; reflexivity).
  assert (length date_only_example = 8) as H4 by reflexivity.
  assert (forallb is_digit date_only_example = true) as H5
    by (vm_compute; reflexivity).
  assert (read_prices atof_example log_example first_line_example line_example
          = Some (Prices 1 loaded_first_example)) as H6
    by (vm_compute; reflexivity).
  assert (read_prices atof_example log_example
            (first_line_example ++ second_line_example) line_example
          = Some (Prices 2 loaded_example)) as H7
    by (vm_compute; reflexivity).
  split; [exact H1|]. split; [exact H2|]. split; [exact H3|].
  split; [exact H4|]. split; [exact H5|]. split; [exact H6|].
  split; [exact H7|].
  exact (date_only_line_repeats_bar atof_example log_example
           first_line_example second_line_example date_only_example
           line_example 1 loaded_first_example loaded_example
           H1 H2 H3 H4 H5 H6 H7).
Defined.

(** ** From the file to the replications *)

Lemma rd_put_window (a w : list Qc) lookback k :
  lookback ≤ length a →
  rd (take lookback a ++ w) k
  = if decide (k < lookback) then rd a k else rd w (k - lookback).
Proof.
  intros Ha. unfold rd. destruct (decide (k < lookback)) as [Hk|Hk].
  - rewrite lookup_total_app_l by (rewrite length_take; lia).
    rewrite !list_lookup_total_alt. by rewrite lookup_take_lt.
  - rewrite lookup_total_app_r by (rewrite length_take; lia).
    f_equal. rewrite length_take. lia.
Qed.

Lemma valid_bar_put_window lookback b w k :
  bars_hold lookback b →
  valid_bar (put_window lookback b w) k
  ↔ if decide (k < lookback) then valid_bar b k
    else valid_bar w (k - lookback).
Proof.
  intros (Ho & Hh & Hl & Hc). unfold valid_bar, put_window.
  cbn [open high low close].
  rewrite !rd_put_window by done. by destruct (decide (k < lookback)).
Qed.

Lemma valid_bar_window lookback b k :
  valid_bar (window lookback b) k ↔ valid_bar b (lookback + k).
Proof.
  unfold valid_bar, window, rd. cbn [open high low close].
  by rewrite !lookup_total_drop.
Qed.

(** Valid bars stay valid through any number of permutations of the
    window. *)
Lemma permuted_window_valid n nc flag w work st k :
  bars_hold nc w → rels_hold (nc - 1) work →
  (∀ j, j < nc → valid_bar w j) → k < nc →
  valid_bar (permute_cycles n nc flag w (prepare_permute nc w work) st).1.1 k.
Proof.
  intros Hb Hw Hvalid Hk.
  destruct (decide (nc ≤ 1)) as [Hshort|Hnc].
  { rewrite permute_cycles_short by done. by apply Hvalid. }
  pose proof (permute_cycles_cycle_inv n nc flag w (prepare_permute nc w work)
                w (prepare_permute nc w work) st ltac:(lia)
                (cycle_inv_start nc w work Hb Hw)) as Hinv.
  destruct Hinv as (Hb' & Hr' & _ & _ & Pt & (Bo & Bh & Bl & Bc) & Hcons).
  destruct (decide (k = 0)) as [->|Hk0].
  - unfold valid_bar.
    rewrite (rd_same _ _ _ Bo), (rd_same _ _ _ Bh), (rd_same _ _ _ Bl),
      (rd_same _ _ _ Bc).
    by apply Hvalid.
  - eapply consistent_valid; [exact Hcons | exact Hr' | | lia].
    rewrite Pt. by apply prepare_permute_valid_triples.
Qed.

Section file_to_replications.

Context (atof : list ascii → Qc) (log : Qc → Qc).

(** X26: the reader and the permutation fit together: for a file that is
    accepted and passes the data check of [main], every series that a
    replication hands to [opt_params] - the one read and each permuted one
    - consists of [nprices] consistent bars (low <= open, close <= high):
    the reader's check is the condition the permutation preserves. *)
Theorem replications_see_valid_bars fp line lookback nprices b st tpr n k :
  read_prices atof log fp line = Some (Prices nprices b) →
  10 ≤ nprices - lookback → k < nprices →
  valid_bar (prices (rep_loop n 0 nprices lookback tpr
                       (loop_start lookback nprices b st))) k.
Proof.
  intros Hread Hdata Hk.
  destruct (read_loop_inv atof log _ _ _ _ _ _ _ read_inv_start Hread)
    as [_ Hinv].
  destruct (Hinv nprices b eq_refl)
    as (c & (Lo & Lh & Ll & Lc) & _ & _ & Hvalid).
  assert (bars_hold nprices b) as Hb by (unfold bars_hold; lia).
  assert (bars_hold lookback b) as Hlb by (unfold bars_hold; lia).
  destruct n as [|n]; [by apply Hvalid|]. cbn [rep_loop].
  set (s0 := loop_start lookback nprices b st).
  destruct (replication_baseline nprices lookback tpr s0)
    as (line0 & _ & _ & _ & _ & Er & Em & Ep).
  cbv zeta in Er, Em, Ep.
  destruct (rep_loop_permute nprices lookback tpr n 1
              (replication nprices lookback tpr 0 s0) ltac:(lia))
    as (Hp & _); [by rewrite Ep|].
  rewrite Ep, Em, Er in Hp. rewrite Hp. cbn [s0 loop_start prices moves rng].
  apply valid_bar_put_window; [done|].
  destruct (decide (k < lookback)) as [Hlt|Hge]; [by apply Hvalid|].
  apply permuted_window_valid.
  - by apply window_hold.
  - unfold rels_hold, main_work. cbn [rel_open rel_high rel_low rel_close].
    rewrite length_replicate. lia.
  - intros j Hj. apply valid_bar_window, Hvalid. lia.
  - lia.
Qed.

End file_to_replications.

Lemma replications_see_valid_bars_witness :
  read_prices atof_example log_example twelve_bars_example line_example
  = Some (Prices 12 loaded_twelve_example)
  ∧ 10 ≤ 12 - 2 ∧ 3 < 12
  ∧ valid_bar (prices (rep_loop 3 0 12 2 0%Qc
                         (loop_start 2 12 loaded_twelve_example Rng.initial))) 3.
Proof.
  assert (read_prices atof_example log_example twelve_bars_example line_example
          = Some (Prices 12 loaded_twelve_example)) as H
    by (vm_compute; reflexivity).
  split; [exact H|]. split; [cbn; lia|]. split; [lia|].
  exact (replications_see_valid_bars atof_example log_example
           twelve_bars_example line_example 2 12 loaded_twelve_example
           Rng.initial 0%Qc 3 3 H ltac:(cbn; lia) ltac:(lia)).
Defined.
